(** * CarBnR back end: referential integrity and reservation scheduling

    A shallow embedding of the Mongoose models and Express controllers of
    the rental back end (State -> City -> Location -> Car -> Reservation,
    plus User), and the properties of its cascade hooks, soft-delete
    filter, name and phone setters and reservation scheduler.

    Conventions of the embedding:
    - a collection is a finite map from [_id] to document ([gmap]);
    - a JavaScript [Date] is its millisecond time stamp, an integer (the
      valid dates; the clock of the server is not before 1970, so that the
      length of an accepted interval is below 2^53 and the quotient in the
      price hook is exact enough for [Math.ceil] to be the integer
      ceiling); the dates of a request body may be [Invalid Date];
    - a [Number] is a binary64 floating-point number, with the arithmetic
      of IEEE 754 ([PrimFloat]);
    - a string is its sequence of UTF-16 code units, well formed, so that
      the store keeps it as it is; the regular-expression classes and
      [trim] are those of ECMAScript; the case mappings
      [toUpperCase]/[toLowerCase] of the runtime are a parameter
      ([Runtime]) of which only the behaviour on ASCII strings is assumed;
    - a value given where an ObjectId is expected either casts to one or
      fails with a [CastError] ([raw_id]), where the route does not check
      it beforehand;
    - [async] functions run to completion one after the other; the
      [timestamps] fields [createdAt]/[updatedAt] are left out. *)

From Stdlib Require Import ZArith NArith Ascii String List Bool Lia.
From Stdlib Require PrimFloat FloatOps SpecFloat.
From stdpp Require Import gmap strings list fin_maps.

Local Open Scope Z_scope.

(** ** JavaScript values *)

(** A string: its UTF-16 code units. *)
Definition code_unit := N.
Definition jsstring := list code_unit.

(** The string of an ASCII literal. *)
Definition js (s : string) : jsstring :=
  map N_of_ascii (list_ascii_of_string s).
Coercion js : string >-> jsstring.

(** The [Number] of an integer, rounded to the nearest binary64 value
    (exact below 2^53). *)
Definition Number_of_Z (z : Z) : PrimFloat.float :=
  FloatOps.SF2Prim
    (SpecFloat.binary_normalize FloatOps.prec FloatOps.emax z 0 false).

(** ** Documents *)

(** A Mongo [ObjectId], abstracted to a number. *)
Abbreviation ObjectId := positive (only parsing).
Definition Date := Z.

(** A value given where Mongoose expects an ObjectId: it casts to an id,
    or the cast fails with a [CastError]; [cast_message] is the message of
    that error, which quotes the value
    ([Cast to ObjectId failed for value "..." (type ...) at path "..."]). *)
Inductive raw_id :=
| Id (i : ObjectId)
| NotAnId (cast_message : jsstring).

Module State.
Record doc := mk { name : jsstring }.
End State.

Module City.
Record doc := mk { name : jsstring; stateId : ObjectId }.
End City.

Module Location.
Record doc := mk {
  name : jsstring;
  address : jsstring;
  phone_number : jsstring;
  cityId : ObjectId;
  userId : ObjectId;
  deleted : option Date
}.
End Location.

Module Car.
Record doc := mk { locationId : ObjectId; priceByDay : PrimFloat.float }.
End Car.

Module User.
Record doc := mk { name : jsstring; email : jsstring; deleted : option Date }.
End User.

Module Reservation.
Record doc := mk {
  carId : ObjectId;
  userId : ObjectId;
  startDate : Date;
  endDate : Date;
  status : jsstring;
  totalPrice : option PrimFloat.float
}.
End Reservation.

(** The database: one collection per model. *)
Record DB := mkDB {
  states : gmap ObjectId State.doc;
  cities : gmap ObjectId City.doc;
  locations : gmap ObjectId Location.doc;
  cars : gmap ObjectId Car.doc;
  reservations : gmap ObjectId Reservation.doc;
  users : gmap ObjectId User.doc
}.

Definition set_states (db : DB) (c : gmap ObjectId State.doc) : DB :=
  mkDB c (cities db) (locations db) (cars db) (reservations db) (users db).
Definition set_cities (db : DB) (c : gmap ObjectId City.doc) : DB :=
  mkDB (states db) c (locations db) (cars db) (reservations db) (users db).
Definition set_locations (db : DB) (c : gmap ObjectId Location.doc) : DB :=
  mkDB (states db) (cities db) c (cars db) (reservations db) (users db).
Definition set_cars (db : DB) (c : gmap ObjectId Car.doc) : DB :=
  mkDB (states db) (cities db) (locations db) c (reservations db) (users db).
Definition set_reservations (db : DB) (c : gmap ObjectId Reservation.doc) : DB :=
  mkDB (states db) (cities db) (locations db) (cars db) c (users db).

(** ** Queries on a collection

    A filter object is a decidable predicate on [(_id, document)]. *)

Section Collection.
Context {D : Type}.

(** [Model.find(filter)] on a model without query hooks. *)
Definition coll_find (p : ObjectId -> D -> bool) (c : gmap ObjectId D)
  : gmap ObjectId D :=
  filter (fun kv => p kv.1 kv.2 = true) c.

(** The write of [Model.deleteMany(filter)]. *)
Definition coll_deleteMany (p : ObjectId -> D -> bool) (c : gmap ObjectId D)
  : gmap ObjectId D :=
  filter (fun kv => p kv.1 kv.2 = false) c.

(** [{ field: { $in: docs.map(d => d._id) } }] *)
Definition id_in (i : ObjectId) (found : gmap ObjectId D) : bool :=
  bool_decide (is_Some (found !! i)).
End Collection.

(** ** The soft-delete filter: [schema.pre(/^find/, ...)] of Location and User *)

(** The condition a filter object puts on the field [deleted]. *)
Inductive deleted_cond :=
| DeletedNull            (* deleted: null *)
| DeletedNeNull          (* deleted: { $ne: null } *)
| DeletedEq (d : Date).  (* deleted: <date> *)

(** [this._conditions]: the condition on [deleted] (absent: [None]) and the
    conditions on every other field. *)
Record conditions (D : Type) := mkConds {
  cond_deleted : option deleted_cond;
  cond_rest : ObjectId -> D -> bool
}.
Arguments mkConds {D} _ _.
Arguments cond_deleted {D} _.
Arguments cond_rest {D} _.

(** [this.getOptions()] *)
Record options := mkOpts { withDeleted : bool }.

Definition no_options : options := mkOpts false.

(** JavaScript truthiness of [this._conditions.deleted]: [undefined] and
    [null] are falsy, an operator object or a [Date] is truthy. *)
Definition truthy (c : option deleted_cond) : bool :=
  match c with
  | None | Some DeletedNull => false
  | Some DeletedNeNull | Some (DeletedEq _) => true
  end.

Class SoftDeletable (D : Type) := deleted_of : D -> option Date.
#[export] Instance Location_soft : SoftDeletable Location.doc := Location.deleted.
#[export] Instance User_soft : SoftDeletable User.doc := User.deleted.

(** How MongoDB matches a condition on [deleted] against a document. *)
Definition match_deleted (c : option deleted_cond) (d : option Date) : bool :=
  match c, d with
  | None, _ => true
  | Some DeletedNull, None => true
  | Some DeletedNull, Some _ => false
  | Some DeletedNeNull, None => false
  | Some DeletedNeNull, Some _ => true
  | Some (DeletedEq x), Some y => Z.eqb x y
  | Some (DeletedEq _), None => false
  end.

Section SoftDelete.
Context {D : Type} `{SoftDeletable D}.

(** A document matches the conditions of a query. *)
Definition matches (q : conditions D) (k : ObjectId) (d : D) : bool :=
  cond_rest q k d && match_deleted (cond_deleted q) (deleted_of d).

(** The hook:
<<
if (!this.getOptions().withDeleted && !this._conditions.deleted) {
  this.where({ deleted: null });
}
>> *)
Definition pre_find (o : options) (q : conditions D) : conditions D :=
  if negb (withDeleted o) && negb (truthy (cond_deleted q))
  then mkConds (Some DeletedNull) (cond_rest q)
  else q.

(** [Model.find(q).setOptions(o)] *)
Definition model_find (o : options) (q : conditions D) (c : gmap ObjectId D)
  : gmap ObjectId D :=
  coll_find (matches (pre_find o q)) c.

(** [Model.findById(id).setOptions(o)], that is [findOne({ _id: id })]. *)
Definition model_findById (o : options) (i : ObjectId) (c : gmap ObjectId D)
  : option D :=
  model_find o (mkConds None (fun k _ => bool_decide (k = i))) c !! i.

(** The write of [Model.deleteMany(q)]: no [/^find/] hook runs for it. *)
Definition model_deleteMany_write (q : conditions D) (c : gmap ObjectId D)
  : gmap ObjectId D :=
  coll_deleteMany (matches q) c.
End SoftDelete.

(** ** Errors and HTTP responses *)

(** A thrown JavaScript error: [error.name], [error.message], [error.code]. *)
Record Error := mkError {
  err_name : jsstring;
  err_message : jsstring;
  err_code : option Z
}.

Definition plain_error (msg : jsstring) : Error := mkError "Error" msg None.

(** The [CastError] of a value that is no ObjectId. *)
Definition CastError (msg : jsstring) : Error := mkError "CastError" msg None.

Inductive Body (A : Type) :=
| Json (a : A)
| ErrorJson (msg : jsstring)
| NoBody.
Arguments Json {A} _.
Arguments ErrorJson {A} _.
Arguments NoBody {A}.

Record Response (A : Type) := mkRes { res_status : Z; res_body : Body A }.
Arguments mkRes {A} _ _.
Arguments res_status {A} _.
Arguments res_body {A} _.

(** ** Cascade hooks *)

(** [Reservation.deleteMany(filter)]: the reservation schema has no delete hook. *)
Definition Reservation_deleteMany (p : ObjectId -> Reservation.doc -> bool)
    (db : DB) : DB :=
  set_reservations db (coll_deleteMany p (reservations db)).

(** [Car.deleteMany(filter)] with [carSchema.pre('deleteMany')]:
<<
  const cars = await this.model.find(this.getFilter());
  await Reservation.deleteMany({ carId: { $in: cars.map(c => c._id) } });
>> *)
Definition Car_deleteMany (p : ObjectId -> Car.doc -> bool) (db : DB) : DB :=
  let found := coll_find p (cars db) in
  let db1 := Reservation_deleteMany (fun _ r => id_in (Reservation.carId r) found) db in
  set_cars db1 (coll_deleteMany p (cars db1)).

(** [Location.deleteMany(q)] with [locationSchema.pre('deleteMany')]:
<<
  const locations = await this.model.find(this.getFilter());
  await Car.deleteMany({ locationId: { $in: locations.map(l => l._id) } });
>>
    The inner [find] is a Location query of its own: the [/^find/] hook
    runs for it, with no options. *)
Definition Location_deleteMany (q : conditions Location.doc) (db : DB) : DB :=
  let found := model_find no_options q (locations db) in
  let db1 := Car_deleteMany (fun _ c => id_in (Car.locationId c) found) db in
  set_locations db1 (model_deleteMany_write q (locations db1)).

(** [City.deleteMany(filter)] with [citySchema.pre('deleteMany')]:
<<
  const cities = await this.model.find(this.getFilter());
  await Location.deleteMany({ cityId: { $in: cities.map(c => c._id) } });
>> *)
Definition City_deleteMany (p : ObjectId -> City.doc -> bool) (db : DB) : DB :=
  let found := coll_find p (cities db) in
  let db1 :=
    Location_deleteMany
      (mkConds None (fun _ l => id_in (Location.cityId l) found)) db in
  set_cities db1 (coll_deleteMany p (cities db1)).

(** [State.findByIdAndDelete(id)] with [stateSchema.pre('findOneAndDelete')]:
<<
  const doc = await this.model.findOne(this.getFilter());
  if (!doc) { return next(new Error('Document not found')); }
  await City.deleteMany({ stateId: doc._id });
>>
    and then the delete itself, which returns the removed document. *)
Definition State_findByIdAndDelete (i : ObjectId) (db : DB)
    : Error + (option State.doc * DB) :=
  match states db !! i with
  | None => inl (plain_error "Document not found")
  | Some _ =>
      let db1 := City_deleteMany (fun _ c => bool_decide (City.stateId c = i)) db in
      inr (states db1 !! i, set_states db1 (delete i (states db1)))
  end.

(** [Location.findByIdAndDelete(id)]: a [findOneAndDelete] query.  The
    location schema registers hooks for ['deleteOne'] (document) and
    ['deleteMany'] only, so none of them runs; the name [findOneAndDelete]
    matches [/^find/], so the soft-delete hook does. *)
Definition Location_findByIdAndDelete (i : ObjectId) (db : DB)
    : option Location.doc * DB :=
  match model_findById no_options i (locations db) with
  | None => (None, db)
  | Some l => (Some l, set_locations db (delete i (locations db)))
  end.

(** [location.deleteOne()] on a loaded document, with
    [locationSchema.pre('deleteOne', { document: true })]:
<<
  await Car.deleteMany({ locationId: this._id }).maxTimeMS(30000);
>> *)
Definition Location_document_deleteOne (i : ObjectId) (db : DB) : DB :=
  let db1 := Car_deleteMany (fun _ c => bool_decide (Car.locationId c = i)) db in
  set_locations db1 (delete i (locations db1)).

(** [Car.findByIdAndDelete(id)]: no hook of the car schema runs. *)
Definition Car_findByIdAndDelete (i : ObjectId) (db : DB)
    : option Car.doc * DB :=
  match cars db !! i with
  | None => (None, db)
  | Some c => (Some c, set_cars db (delete i (cars db)))
  end.

(** ** Controllers: delete operations *)

(** [handleErrors] of the state, city, location and car controllers; they
    differ in the text of the 409 answer only. *)
Definition handleErrors {A} (dup : Error -> jsstring) (error : Error)
    (defaultMessage : jsstring) : Response A :=
  if bool_decide (err_name error = "ValidationError")
  then mkRes 400 (ErrorJson (err_message error))
  else if bool_decide (err_code error = Some 11000)
  then mkRes 409 (ErrorJson (dup error))
  else mkRes 500 (ErrorJson defaultMessage).

(** stateController.js, [deleteState] *)
Definition deleteState (i : ObjectId) (db : DB) : Response State.doc * DB :=
  match State_findByIdAndDelete i db with
  | inl err =>
      (handleErrors (fun _ => js "State name already exists") err
         "Failed to delete state", db)
  | inr (None, db') => (mkRes 404 (ErrorJson "State not found"), db')
  | inr (Some _, db') => (mkRes 204 NoBody, db')
  end.

(** locationController.js, [deleteLocation] *)
Definition deleteLocation (i : ObjectId) (db : DB)
    : Response Location.doc * DB :=
  match Location_findByIdAndDelete i db with
  | (None, db') => (mkRes 404 (ErrorJson "Location not found"), db')
  | (Some _, db') => (mkRes 204 NoBody, db')
  end.

(** locationController.js, [softDeleteLocation]:
    [Location.findByIdAndUpdate(id, { deleted: new Date() }, { new: true })];
    [findOneAndUpdate] matches [/^find/] too. *)
Definition softDeleteLocation (now : Date) (i : ObjectId) (db : DB)
    : Response Location.doc * DB :=
  match model_findById no_options i (locations db) with
  | None => (mkRes 404 (ErrorJson "Location not found"), db)
  | Some l =>
      let l' := Location.mk (Location.name l) (Location.address l)
                  (Location.phone_number l) (Location.cityId l)
                  (Location.userId l) (Some now) in
      (mkRes 200 (Json l'), set_locations db (<[i := l']> (locations db)))
  end.

(** carController.js, [deleteCar] *)
Definition deleteCar (i : ObjectId) (db : DB) : Response Car.doc * DB :=
  match Car_findByIdAndDelete i db with
  | (None, db') => (mkRes 404 (ErrorJson "Car not found"), db')
  | (Some _, db') => (mkRes 204 NoBody, db')
  end.

(** locationController.js, [getLocations]: the query string carries
    [deleted] as ['true'], ['false'] or nothing; [rest] stands for the
    [cityId]/[userId] conditions.
<<
  if (deleted === 'true') { query.deleted = { $ne: null }; }
  else if (deleted === 'false') { query.deleted = null; }
  const locations = await Location.find(query)
    .setOptions({ withDeleted: deleted === 'true' })
>> *)
Definition getLocations (deleted : option bool)
    (rest : ObjectId -> Location.doc -> bool) (db : DB)
    : gmap ObjectId Location.doc :=
  let query :=
    match deleted with
    | Some true => mkConds (Some DeletedNeNull) rest
    | Some false => mkConds (Some DeletedNull) rest
    | None => mkConds None rest
    end in
  model_find (mkOpts (bool_decide (deleted = Some true))) query (locations db).

(** locationController.js, [getLocationById]: [Location.findById(id)]. *)
Definition getLocationById (i : ObjectId) (db : DB) : Response Location.doc :=
  match model_findById no_options i (locations db) with
  | None => mkRes 404 (ErrorJson "Location not found")
  | Some l => mkRes 200 (Json l)
  end.

(** ** The reservation model *)

(** [haystack.startsWith(needle)] *)
Fixpoint starts_with (needle haystack : jsstring) : bool :=
  match needle, haystack with
  | [], _ => true
  | _ :: _, [] => false
  | c :: n, d :: h => (c =? d)%N && starts_with n h
  end.

(** [haystack.includes(needle)] *)
Fixpoint includes (needle haystack : jsstring) : bool :=
  starts_with needle haystack ||
  match haystack with
  | [] => false
  | _ :: rest => includes needle rest
  end.

(** [Math.ceil(a / b)] for a positive [b]. *)
Definition ceil_div (a b : Z) : Z := - ((- a) / b).

Definition ms_per_day : Z := 1000 * 60 * 60 * 24.

Definition status_enum : list jsstring :=
  [js "pending"; js "confirmed"; js "cancelled"; js "completed"].

(** The validators of [startDate], [endDate] and [status]: plain
    functions, whose errors Mongoose records as soon as it reaches the
    path. *)
Definition Reservation_sync_errors (now startDate endDate : Date)
    (status : jsstring) : list (jsstring * jsstring) :=
  (if now <? startDate then []
   else [(js "startDate", js "Start date must be in the future")]) ++
  (if startDate <? endDate then []
   else [(js "endDate", js "End date must be after start date")]) ++
  (if bool_decide (status ∈ status_enum) then []
   else [(js "status",
          js "`" ++ status ++
          js "` is not a valid enum value for path `status`.")]).

(** The validator of [userId], an [async] function: its error is recorded
    when its query has answered, after those of the plain validators. *)
Definition Reservation_user_errors (db : DB) (userId : ObjectId)
    : list (jsstring * jsstring) :=
  if bool_decide (is_Some (model_findById no_options userId (users db)))
  then [] else [(js "userId", js "Invalid user reference")].

(** The validator of [carId], [async] as well. *)
Definition Reservation_car_errors (db : DB) (carId : ObjectId)
    : list (jsstring * jsstring) :=
  if bool_decide (is_Some (cars db !! carId)) then []
  else [(js "carId", js "Invalid car reference")].

(** The schema validators of a reservation; the result lists the failing
    paths with their messages, in the order in which Mongoose records
    them. *)
Definition Reservation_validators (now : Date) (db : DB) (r : Reservation.doc)
    : list (jsstring * jsstring) :=
  Reservation_sync_errors now (Reservation.startDate r) (Reservation.endDate r)
    (Reservation.status r) ++
  Reservation_car_errors db (Reservation.carId r) ++
  Reservation_user_errors db (Reservation.userId r).

Fixpoint join_errors (errs : list (jsstring * jsstring)) : jsstring :=
  match errs with
  | [] => []
  | [(p, m)] => p ++ js ": " ++ m
  | (p, m) :: rest => p ++ js ": " ++ m ++ js ", " ++ join_errors rest
  end.

(** Mongoose's [ValidationError]: the message is ["<Model> validation
    failed"] for a document, ["Validation failed"] for an update, then the
    failing paths. *)
Definition ValidationError (failed : jsstring)
    (errs : list (jsstring * jsstring)) : Error :=
  mkError "ValidationError" (failed ++ js ": " ++ join_errors errs) None.

(** [this.totalPrice = n]: the cast of the [Number] path refuses [NaN],
    and the path stays unset. *)
Definition set_totalPrice (n : PrimFloat.float) : option PrimFloat.float :=
  if PrimFloat.is_nan n then None else Some n.

(** First [pre('save')] hook:
<<
  const car = await mongoose.model('Car').findById(this.carId);
  const days = Math.ceil((this.endDate - this.startDate) / (1000 * 60 * 60 * 24));
  this.totalPrice = days * car.priceByDay;
>>
    The product is the one of two [Number]s. *)
Definition pre_save_price (db : DB) (r : Reservation.doc)
    : Error + Reservation.doc :=
  match cars db !! Reservation.carId r with
  | None =>
      inl (mkError "TypeError"
             "Cannot read properties of null (reading 'priceByDay')" None)
  | Some car =>
      let days :=
        ceil_div (Reservation.endDate r - Reservation.startDate r) ms_per_day in
      inr (Reservation.mk (Reservation.carId r) (Reservation.userId r)
             (Reservation.startDate r) (Reservation.endDate r)
             (Reservation.status r)
             (set_totalPrice
                (PrimFloat.mul (Number_of_Z days) (Car.priceByDay car))))
  end.

(** The query of the second hook:
<<
  { carId: this.carId,
    $nor: [ { endDate: { $lte: this.startDate } },
            { startDate: { $gte: this.endDate } } ] }
>> *)
Definition overlap_filter (this : Reservation.doc)
    (_ : ObjectId) (x : Reservation.doc) : bool :=
  bool_decide (Reservation.carId x = Reservation.carId this) &&
  negb ((Reservation.endDate x <=? Reservation.startDate this) ||
        (Reservation.startDate x >=? Reservation.endDate this)).

(** Second [pre('save')] hook:
<<
  const overlapping = await mongoose.model('Reservation').find({ ... });
  if (overlapping.length > 0) {
    throw new Error('Car already reserved for these dates');
  }
>> *)
Definition pre_save_overlap (db : DB) (this : Reservation.doc)
    : Error + unit :=
  let overlapping := coll_find (overlap_filter this) (reservations db) in
  if bool_decide (overlapping = ∅) then inr tt
  else inl (plain_error "Car already reserved for these dates").

(** [reservation.save()] of the document with [_id] [i]: validation, the
    two hooks in the order of their registration, then the write. *)
Definition Reservation_save (now : Date) (i : ObjectId) (r : Reservation.doc)
    (db : DB) : Error + (Reservation.doc * DB) :=
  match Reservation_validators now db r with
  | (_ :: _) as errs => inl (ValidationError "Reservation validation failed" errs)
  | [] =>
      match pre_save_price db r with
      | inl e => inl e
      | inr r1 =>
          match pre_save_overlap db r1 with
          | inl e => inl e
          | inr _ =>
              inr (r1, set_reservations db (<[i := r1]> (reservations db)))
          end
      end
  end.

(** reservationController.js, [handleErrors]: the test of the message
    comes first. *)
Definition reservation_handleErrors {A} (error : Error)
    (defaultMessage : jsstring) : Response A :=
  if includes "already reserved" (err_message error)
  then mkRes 409 (ErrorJson (err_message error))
  else if bool_decide (err_name error = "ValidationError")
  then mkRes 400 (ErrorJson (err_message error))
  else mkRes 500 (ErrorJson defaultMessage).

(** The body of [POST /reservations]; no route check precedes the
    controller.  [body_carId] is [req.body.carId] ([None]: absent or
    [null]); the dates are [new Date(req.body.startDate)] and
    [new Date(req.body.endDate)]: a valid date, or [Invalid Date]
    ([None]), as for a field that is absent or no date. *)
Record ReservationBody := mkBody {
  body_carId : option raw_id;
  body_startDate : option Date;
  body_endDate : option Date
}.

(** A body whose [carId] is an ObjectId and whose dates are valid. *)
Definition booking (carId : ObjectId) (startDate endDate : Date)
    : ReservationBody :=
  mkBody (Some (Id carId)) (Some startDate) (Some endDate).

(** The document that [createReservation] builds from such a body. *)
Definition new_reservation (carId user : ObjectId) (startDate endDate : Date)
    : Reservation.doc :=
  Reservation.mk carId user startDate endDate "pending" None.

(** The message of the [CastError] of an [Invalid Date] at [path]. *)
Definition date_cast_message (path : jsstring) : jsstring :=
  js "Cast to date failed for value " ++ [34%N] ++ js "Invalid Date" ++
  [34%N] ++ js " (type Date) at path " ++ [34%N] ++ path ++ [34%N] ++
  js " because of " ++ [34%N] ++ js "AssertionError" ++ [34%N].

(** The errors of [reservation.save()] for a document that was built with
    a path left unset.  The cast errors come first, recorded when the
    document is built, in the order of the fields: a path whose cast
    failed is unset and is not validated further.  Then the plain
    validators in the order of the paths ([required] of an absent [carId];
    [v > new Date()] on [startDate]; [v > this.startDate] on [endDate],
    which fails when [startDate] is unset), then the [async] ones. *)
Definition Reservation_unset_errors (now : Date) (db : DB) (user : ObjectId)
    (carId : option raw_id) (startDate endDate : option Date)
    : list (jsstring * jsstring) :=
  match carId with
  | Some (NotAnId cast_message) => [(js "carId", cast_message)]
  | _ => []
  end ++
  match startDate with
  | None => [(js "startDate", date_cast_message "startDate")]
  | _ => []
  end ++
  match endDate with
  | None => [(js "endDate", date_cast_message "endDate")]
  | _ => []
  end ++
  match carId with
  | None => [(js "carId", js "Car reference is required")]
  | _ => []
  end ++
  match startDate with
  | Some s =>
      if now <? s then []
      else [(js "startDate", js "Start date must be in the future")]
  | None => []
  end ++
  match endDate with
  | Some e =>
      if match startDate with Some s => s <? e | None => false end then []
      else [(js "endDate", js "End date must be after start date")]
  | None => []
  end ++
  match carId with
  | Some (Id c) => Reservation_car_errors db c
  | _ => []
  end ++
  Reservation_user_errors db user.

(** reservationController.js, [createReservation]; [user] is [req.user.id].
<<
  const { carId, startDate, endDate } = req.body;
  const reservation = new Reservation({
    carId, userId, startDate: new Date(startDate), endDate: new Date(endDate) });
  await reservation.save();
  res.status(201).json(await reservation.populate(['carId', 'userId']));
>>
    The driver draws an [_id] that no stored reservation has.  When a
    path could not be set, [save] fails in validation. *)
Definition createReservation (now : Date) (user : ObjectId)
    (body : ReservationBody) (db : DB) : Response Reservation.doc * DB :=
  match body_carId body, body_startDate body, body_endDate body with
  | Some (Id carId), Some startDate, Some endDate =>
      let reservation := new_reservation carId user startDate endDate in
      let i := fresh (dom (reservations db)) in
      match Reservation_save now i reservation db with
      | inl err =>
          (reservation_handleErrors err "Failed to create reservation", db)
      | inr (r, db') => (mkRes 201 (Json r), db')
      end
  | carId, startDate, endDate =>
      (reservation_handleErrors
         (ValidationError "Reservation validation failed"
            (Reservation_unset_errors now db user carId startDate endDate))
         "Failed to create reservation", db)
  end.

Definition set_status (r : Reservation.doc) (s : jsstring) : Reservation.doc :=
  Reservation.mk (Reservation.carId r) (Reservation.userId r)
    (Reservation.startDate r) (Reservation.endDate r) s
    (Reservation.totalPrice r).

(** reservationController.js, [updateReservationStatus]:
<<
  const { status } = req.body;
  const reservation = await Reservation.findByIdAndUpdate(
    req.params.id, { status }, { new: true });
  if (!reservation) return res.status(404).json({ error: 'Reservation not found' });
  res.json(reservation);
>>
    No [runValidators], no document middleware.  The route checks
    nothing: [id] is [req.params.id] as it comes, and the query throws the
    [CastError] of a value that is no ObjectId.  [status] is a string. *)
Definition updateReservationStatus (id : raw_id) (status : jsstring) (db : DB)
    : Response Reservation.doc * DB :=
  match id with
  | NotAnId cast_message =>
      (reservation_handleErrors (CastError cast_message)
         "Failed to update reservation", db)
  | Id i =>
      match reservations db !! i with
      | None => (mkRes 404 (ErrorJson "Reservation not found"), db)
      | Some r =>
          let r' := set_status r status in
          (mkRes 200 (Json r'),
           set_reservations db (<[i := r']> (reservations db)))
      end
  end.

(** The body of [PUT /cars/:id], an update document that the controller
    hands to Mongoose as it is.  Of its content the controller reads
    [locationId] only ([upd_locationId]: the id, when the field is given;
    the route admits ObjectIds only).  What
    [Car.findByIdAndUpdate(id, updates, { new: true, runValidators: true })]
    makes of it is not modelled but given with the request:
    [upd_rejected] is the error thrown before the write, when casting the
    update or one of the update validators fails; [upd_write] is the
    outcome of the write on the car found, the updated document or the
    error of the server (a duplicate key for one). *)
Record CarUpdates := mkCarUpdates {
  upd_locationId : option ObjectId;
  upd_rejected : option Error;
  upd_write : Car.doc -> Error + Car.doc
}.

(** The update document [{ priceByDay: p }].  The path is
<<
  priceByDay: { type: Number, required: [true, 'Daily price is required'],
                min: [1, 'Daily price must be at least 1'] }
>>
    and [runValidators] runs [min] on it: a price below 1 is refused with
    the validation error of an update; the cast of the path refuses [NaN]
    before.  A price that passes is written to the car found. *)
Definition set_priceByDay (p : PrimFloat.float) : CarUpdates :=
  if PrimFloat.is_nan p
  then mkCarUpdates None
         (Some (mkError "CastError"
                  (js "Cast to Number failed for value " ++ [34%N] ++
                   js "NaN" ++ [34%N] ++ js " (type number) at path " ++
                   [34%N] ++ js "priceByDay" ++ [34%N])
                  None))
         (fun c => inr c)
  else if PrimFloat.leb (Number_of_Z 1) p
  then mkCarUpdates None None (fun c => inr (Car.mk (Car.locationId c) p))
  else mkCarUpdates None
         (Some (ValidationError "Validation failed"
                  [(js "priceByDay", js "Daily price must be at least 1")]))
         (fun c => inr c).

(** carController.js, [updateCar]:
<<
  const updates = req.body;
  if (updates.locationId) {
    const location = await Location.findById(updates.locationId);
    if (!location) return res.status(400).json({ error: 'Invalid location' });
  }
  const updatedCar = await Car.findByIdAndUpdate(
    req.params.id, updates, { new: true, runValidators: true });
  if (!updatedCar) return res.status(404).json({ error: 'Car not found' });
  res.json(updatedCar);
>>
    with [handleErrors] in the [catch]. *)
Definition updateCar (i : ObjectId) (updates : CarUpdates) (db : DB)
    : Response Car.doc * DB :=
  let location_ok :=
    match upd_locationId updates with
    | None => true
    | Some l => bool_decide (is_Some (model_findById no_options l (locations db)))
    end in
  if negb location_ok then (mkRes 400 (ErrorJson "Invalid location"), db)
  else
    match upd_rejected updates with
    | Some err =>
        (handleErrors (fun _ => js "Registration number already exists") err
           "Failed to update car", db)
    | None =>
        match cars db !! i with
        | None => (mkRes 404 (ErrorJson "Car not found"), db)
        | Some c =>
            match upd_write updates c with
            | inl err =>
                (handleErrors
                   (fun _ => js "Registration number already exists") err
                   "Failed to update car", db)
            | inr c' => (mkRes 200 (Json c'), set_cars db (<[i := c']> (cars db)))
            end
        end
    end.

(** ** Setters and validators on strings *)

(** [\d] *)
Definition is_digit (c : code_unit) : bool := ((48 <=? c) && (c <=? 57))%N.
Definition is_upper (c : code_unit) : bool := ((65 <=? c) && (c <=? 90))%N.
Definition is_lower (c : code_unit) : bool := ((97 <=? c) && (c <=? 122))%N.
(** [\w] *)
Definition is_word (c : code_unit) : bool :=
  is_digit c || is_upper c || is_lower c || (c =? 95)%N.
(** [\s], and what [trim] removes: the white space and the line
    terminators of ECMAScript, that is tab, line feed, vertical tab, form
    feed, carriage return, space, U+00A0, U+1680, U+2000 to U+200A, U+2028,
    U+2029, U+202F, U+205F, U+3000 and U+FEFF. *)
Definition is_space (c : code_unit) : bool :=
  ((9 <=? c) && (c <=? 13))%N || (c =? 32)%N || (c =? 160)%N ||
  (c =? 5760)%N || ((8192 <=? c) && (c <=? 8202))%N ||
  (c =? 8232)%N || (c =? 8233)%N || (c =? 8239)%N || (c =? 8287)%N ||
  (c =? 12288)%N || (c =? 65279)%N.
Definition is_plus (c : code_unit) : bool := (c =? 43)%N.
Definition is_ascii (c : code_unit) : bool := (c <? 128)%N.

(** The case mappings on an ASCII character. *)
Definition ascii_upper (c : code_unit) : code_unit :=
  if is_lower c then (c - 32)%N else c.
Definition ascii_lower (c : code_unit) : code_unit :=
  if is_upper c then (c + 32)%N else c.

(** [String.prototype.toUpperCase] and [String.prototype.toLowerCase] of
    the runtime.  They follow the case mappings of the Unicode version
    that the runtime carries; what is known of them here is what they do
    to a string of ASCII characters: they map it character by
    character. *)
Record Runtime := mkRuntime {
  toUpperCase : jsstring -> jsstring;
  toLowerCase : jsstring -> jsstring;
  toUpperCase_ascii s :
    forallb is_ascii s = true -> toUpperCase s = map ascii_upper s;
  toLowerCase_ascii s :
    forallb is_ascii s = true -> toLowerCase s = map ascii_lower s
}.

(** The runtime that maps the ASCII letters only; on ASCII strings every
    runtime agrees with it. *)
Definition ascii_runtime : Runtime :=
  mkRuntime (map ascii_upper) (map ascii_lower)
    (fun _ _ => eq_refl) (fun _ _ => eq_refl).

(** The longest prefix of characters in the class, and what follows it. *)
Fixpoint span (class : code_unit -> bool) (s : jsstring)
    : jsstring * jsstring :=
  match s with
  | [] => ([], [])
  | c :: rest =>
      if class c
      then let (tok, after) := span class rest in (c :: tok, after)
      else ([], s)
  end.

(** [txt => txt.charAt(0).toUpperCase() + txt.substr(1).toLowerCase()] *)
Definition capitalize (rt : Runtime) (txt : jsstring) : jsstring :=
  match txt with
  | [] => []
  | c :: rest => toUpperCase rt [c] ++ toLowerCase rt rest
  end.

(** [value.replace(/\w\S*/g, capitalize)]: at a word character the match
    runs to the next white space and is replaced by the call-back's result;
    any other character is copied and the search goes on after it.  One
    unit of fuel is spent at each character the search starts from. *)
Fixpoint replace_words (rt : Runtime) (fuel : nat) (value : jsstring)
    : jsstring :=
  match fuel with
  | O => value
  | S fuel' =>
      match value with
      | [] => []
      | c :: rest =>
          if is_word c
          then let (tail, after) := span (fun x => negb (is_space x)) rest in
               capitalize rt (c :: tail) ++ replace_words rt fuel' after
          else c :: replace_words rt fuel' rest
      end
  end.

Fixpoint trimStart (s : jsstring) : jsstring :=
  match s with
  | [] => []
  | c :: rest => if is_space c then trimStart rest else s
  end.

(** [String.prototype.trim] *)
Definition trim (s : jsstring) : jsstring :=
  rev (trimStart (rev (trimStart s))).

(** The setters of [name] in citySchema and stateSchema.  Mongoose runs
    the setters of a path last-registered first: the [set] option (after
    [trim] in the schema definition) before the one of [trim: true]. *)
Definition name_set (rt : Runtime) (value : jsstring) : jsstring :=
  trim (replace_words rt (length value) value).

(** [v.replace(/[^\d+]/g, '')]: every character outside the class of
    digits and ['+'] is replaced by the empty string. *)
Definition phone_number_set (v : jsstring) : jsstring :=
  flat_map (fun c => if negb (is_digit c || is_plus c) then [] else [c]) v.

(** [/^\+\d{7,15}$/.test(v)] *)
Definition phone_number_validator (v : jsstring) : bool :=
  match v with
  | c :: digits =>
      is_plus c && forallb is_digit digits &&
      (7 <=? length digits)%nat && (length digits <=? 15)%nat
  | [] => false
  end.

(** The value stored for a raw phone number, if the validator accepts it. *)
Definition phone_number_stored (raw : jsstring) : option jsstring :=
  let v := phone_number_set raw in
  if phone_number_validator v then Some v else None.

(** ** The city model and controller *)

(** Validators of the path [name]: required, maxlength, minlength; the
    length of a string is its number of code units. *)
Definition City_name_validator (name : jsstring)
    : list (jsstring * jsstring) :=
  if bool_decide (name = []) then [(js "name", js "City name is required")]
  else if (100 <? length name)%nat
  then [(js "name", js "City name cannot exceed 100 characters")]
  else if (length name <? 2)%nat
  then [(js "name", js "City name must be at least 2 characters")]
  else [].

(** The unique index [{ stateId: 1, name: 1 }]: the documents that hold
    the key of [c]. *)
Definition City_index_conflicts (c : City.doc) (db : DB)
    : gmap ObjectId City.doc :=
  coll_find (fun _ x => bool_decide (City.stateId x = City.stateId c) &&
                        bool_decide (City.name x = City.name c)) (cities db).

(** [city.save()] of a new document: validation, the [pre('save')] hook
<<
  const stateExists = await mongoose.model('State').exists({ _id: this.stateId });
  if (!stateExists) { throw new Error('Referenced state does not exist'); }
>>
    and the insert, which the unique index may refuse with code 11000. *)
Definition City_save (i : ObjectId) (c : City.doc) (db : DB) : Error + DB :=
  let errs :=
    City_name_validator (City.name c) ++
    (if bool_decide (is_Some (states db !! City.stateId c)) then []
     else [(js "stateId", js "Invalid state reference")]) in
  match errs with
  | _ :: _ => inl (ValidationError "City validation failed" errs)
  | [] =>
      if negb (bool_decide (is_Some (states db !! City.stateId c)))
      then inl (plain_error "Referenced state does not exist")
      else if bool_decide (City_index_conflicts c db = ∅)
      then inr (set_cities db (<[i := c]> (cities db)))
      else inl (mkError "MongoServerError" "E11000 duplicate key error"
                  (Some 11000))
  end.

(** cityController.js, [createCity]:
<<
  const stateExists = await State.exists({ _id: stateId });
  if (!stateExists) return res.status(400).json({ error: 'Invalid state' });
  const city = new City({ name, stateId });
  await city.save();
>> *)
Definition createCity (rt : Runtime) (name : jsstring) (stateId : ObjectId)
    (db : DB) : Response City.doc * DB :=
  if negb (bool_decide (is_Some (states db !! stateId)))
  then (mkRes 400 (ErrorJson "Invalid state"), db)
  else
    let city := City.mk (name_set rt name) stateId in
    let i := fresh (dom (cities db)) in
    match City_save i city db with
    | inl err =>
        (handleErrors (fun _ => js "City already exists in this state") err
           "Failed to create city", db)
    | inr db' => (mkRes 201 (Json city), db')
    end.

(** ** The API as a transition system *)

Inductive request :=
| CreateReservation (now : Date) (user : ObjectId) (body : ReservationBody)
| UpdateReservationStatus (id : raw_id) (status : jsstring)
| UpdateCar (i : ObjectId) (updates : CarUpdates)
| DeleteCar (i : ObjectId)
| DeleteLocation (i : ObjectId)
| SoftDeleteLocation (now : Date) (i : ObjectId)
| DeleteState (i : ObjectId)
| CreateCity (name : jsstring) (stateId : ObjectId).

(** The database after a request has been served. *)
Definition handle (rt : Runtime) (rq : request) (db : DB) : DB :=
  match rq with
  | CreateReservation now user body => (createReservation now user body db).2
  | UpdateReservationStatus id status => (updateReservationStatus id status db).2
  | UpdateCar i updates => (updateCar i updates db).2
  | DeleteCar i => (deleteCar i db).2
  | DeleteLocation i => (deleteLocation i db).2
  | SoftDeleteLocation now i => (softDeleteLocation now i db).2
  | DeleteState i => (deleteState i db).2
  | CreateCity name stateId => (createCity rt name stateId db).2
  end.

Definition run (rt : Runtime) (rqs : list request) (db : DB) : DB :=
  fold_left (fun d rq => handle rt rq d) rqs db.

(** Two documents agree on everything but [status]. *)
Definition same_booking (r r' : Reservation.doc) : Prop :=
  Reservation.carId r' = Reservation.carId r ∧
  Reservation.userId r' = Reservation.userId r ∧
  Reservation.startDate r' = Reservation.startDate r ∧
  Reservation.endDate r' = Reservation.endDate r ∧
  Reservation.totalPrice r' = Reservation.totalPrice r.

(** The reservation [k] is stored after each request of the sequence. *)
Fixpoint kept (rt : Runtime) (k : ObjectId) (rqs : list request) (db : DB)
    : Prop :=
  match rqs with
  | [] => True
  | rq :: rest =>
      is_Some (reservations (handle rt rq db) !! k) ∧
      kept rt k rest (handle rt rq db)
  end.

(** ** Readings of the specification, for comparison with the code *)

(** Two half-open intervals [[s1,e1)] and [[s2,e2)] overlap. *)
Definition overlap (s1 e1 s2 e2 : Date) : Prop := s1 < e2 ∧ s2 < e1.


(** The maximal runs of white space and of other characters of a string,
    in order: the white-space-delimited tokens and what separates them. *)
Fixpoint pieces (s : jsstring) : list jsstring :=
  match s with
  | [] => []
  | c :: rest =>
      match pieces rest with
      | (d :: p) :: ps =>
          if eqb (is_space c) (is_space d)
          then (c :: d :: p) :: ps
          else [c] :: (d :: p) :: ps
      | _ => [[c]]
      end
  end.

Definition tokenwise (f : jsstring -> jsstring) (s : jsstring) : jsstring :=
  concat (map f (pieces s)).




(** What the setter does to a token: the characters before its first word
    character stay, the rest is capitalized. *)
Definition capitalize_from_word (rt : Runtime) (tok : jsstring) : jsstring :=
  let (before, from) := span (fun c => negb (is_word c)) tok in
  before ++ capitalize rt from.

(** Phone normalization as the specification words it: every character
    but the digits and a leading ['+'] is removed. *)
Definition spec_phone_normalize (raw : jsstring) : jsstring :=
  match raw with
  | [] => []
  | c :: rest =>
      (if is_plus c || is_digit c then [c] else []) ++ List.filter is_digit rest
  end.

(** ** Sample data *)

Definition day : Z := ms_per_day.

Definition empty_db : DB := mkDB ∅ ∅ ∅ ∅ ∅ ∅.

(** One state, one city, one location, one car at 100 a day, one user. *)
Definition fleet (location_deleted : option Date) : DB :=
  mkDB {[ 1%positive := State.mk "California" ]}
       {[ 1%positive := City.mk "San Jose" 1 ]}
       {[ 1%positive :=
            Location.mk "Downtown" "123 Main St" "+15551234567" 1 1
              location_deleted ]}
       {[ 1%positive := Car.mk 1 (Number_of_Z 100) ]}
       ∅
       {[ 1%positive := User.mk "Test User" "test@example.com" None ]}.

(** Two states and no city yet. *)
Definition two_states : DB :=
  mkDB {[ 1%positive := State.mk "California"; 2%positive := State.mk "Nevada" ]}
       ∅ ∅ ∅ ∅ ∅.

(** The fleet with one stored reservation of the car. *)
Definition booked (location_deleted : option Date) (r : Reservation.doc) : DB :=
  set_reservations (fleet location_deleted) {[ 1%positive := r ]}.

(** Days 1 to 4 (time 0 is now), priced at creation. *)
Definition three_days (status : jsstring) : Reservation.doc :=
  Reservation.mk 1 1 (1 * day) (4 * day) status (Some (Number_of_Z 300)).

(** The message of the [CastError] that Mongoose builds when the string
    [value] is given for [carId]: the value is quoted in it. *)
Definition carId_cast_message (value : jsstring) : jsstring :=
  js "Cast to ObjectId failed for value " ++ [34%N] ++ value ++ [34%N] ++
  js " (type string) at path " ++ [34%N] ++ js "carId" ++ [34%N] ++
  js " because of " ++ [34%N] ++ js "BSONError" ++ [34%N].

(** ** More of the models: document and bulk deletes *)

Definition set_users (db : DB) (c : gmap ObjectId User.doc) : DB :=
  mkDB (states db) (cities db) (locations db) (cars db) (reservations db) c.

(** [car.deleteOne()] on a loaded document, with
    [carSchema.pre('deleteOne', { document: true })]:
<<
  await Reservation.deleteMany({ carId: this._id }).maxTimeMS(30000);
>> *)
Definition Car_document_deleteOne (i : ObjectId) (db : DB) : DB :=
  let db1 :=
    Reservation_deleteMany
      (fun _ r => bool_decide (Reservation.carId r = i)) db in
  set_cars db1 (delete i (cars db1)).

(** [city.deleteOne()] on a loaded document, with
    [citySchema.pre('deleteOne', { document: true })]:
<<
  await Location.deleteMany({ cityId: this._id }).maxTimeMS(30000);
>> *)
Definition City_document_deleteOne (i : ObjectId) (db : DB) : DB :=
  let db1 :=
    Location_deleteMany
      (mkConds None (fun _ l => bool_decide (Location.cityId l = i))) db in
  set_cities db1 (delete i (cities db1)).

(** [user.deleteOne()] on a loaded document, with
    [userSchema.pre('deleteOne', { document: true })]:
<<
  await mongoose.model('Location').deleteMany({ userId: this._id });
>> *)
Definition User_document_deleteOne (i : ObjectId) (db : DB) : DB :=
  let db1 :=
    Location_deleteMany
      (mkConds None (fun _ l => bool_decide (Location.userId l = i))) db in
  set_users db1 (delete i (users db1)).

(** [State.deleteMany(filter)] with [stateSchema.pre('deleteMany')]:
<<
  const states = await this.model.find(this.getFilter());
  await City.deleteMany({ stateId: { $in: states.map(s => s._id) } });
>> *)
Definition State_deleteMany (p : ObjectId -> State.doc -> bool) (db : DB)
    : DB :=
  let found := coll_find p (states db) in
  let db1 := City_deleteMany (fun _ c => id_in (City.stateId c) found) db in
  set_states db1 (coll_deleteMany p (states db1)).

(** [City.findByIdAndDelete(id)]: the city schema has hooks for
    ['deleteOne'] (document) and ['deleteMany'] only. *)
Definition City_findByIdAndDelete (i : ObjectId) (db : DB)
    : option City.doc * DB :=
  match cities db !! i with
  | None => (None, db)
  | Some c => (Some c, set_cities db (delete i (cities db)))
  end.

(** cityController.js, [deleteCity] *)
Definition deleteCity (i : ObjectId) (db : DB) : Response City.doc * DB :=
  match City_findByIdAndDelete i db with
  | (None, db') => (mkRes 404 (ErrorJson "City not found"), db')
  | (Some _, db') => (mkRes 204 NoBody, db')
  end.

(** [User.findByIdAndDelete(id)]: the [/^find/] hook of the user schema
    runs, its ['deleteOne'] document hook does not. *)
Definition User_findByIdAndDelete (i : ObjectId) (db : DB)
    : option User.doc * DB :=
  match model_findById no_options i (users db) with
  | None => (None, db)
  | Some u => (Some u, set_users db (delete i (users db)))
  end.

(** userController.js, [deleteUser] *)
Definition deleteUser (i : ObjectId) (db : DB) : Response User.doc * DB :=
  match User_findByIdAndDelete i db with
  | (None, db') => (mkRes 404 (ErrorJson "User not found"), db')
  | (Some _, db') => (mkRes 204 NoBody, db')
  end.

(** userController.js, [getUsers]: as [getLocations], without other
    conditions:
<<
  if (deleted === 'true') { query.deleted = { $ne: null }; }
  else if (deleted === 'false') { query.deleted = null; }
  const users = await User.find(query)
    .setOptions({ withDeleted: deleted === 'true' })
>> *)
Definition getUsers (deleted : option bool) (db : DB)
    : gmap ObjectId User.doc :=
  let query :=
    match deleted with
    | Some true => mkConds (Some DeletedNeNull) (fun _ _ => true)
    | Some false => mkConds (Some DeletedNull) (fun _ _ => true)
    | None => mkConds None (fun _ _ => true)
    end in
  model_find (mkOpts (bool_decide (deleted = Some true))) query (users db).

(** middleware/auth.js, [protect].  [decoded] is the [id] of the payload
    of the bearer token, [None] when the header carries no token or
    [jwt.verify] throws.
<<
  const user = await User.findById(decoded.id).select('-password');
  if (!user) throw new Error('User not found');
  req.user = user;
  next();
>>
    The result is [req.user] (the document with its [_id]) as handed to
    the next handler, or the 401 answer, whose [details] are left out. *)
Definition protect (decoded : option ObjectId) (db : DB)
    : Response unit + (ObjectId * User.doc) :=
  match decoded with
  | None => inl (mkRes 401 (ErrorJson "Authentication failed"))
  | Some i =>
      match model_findById no_options i (users db) with
      | None => inl (mkRes 401 (ErrorJson "Authentication failed"))
      | Some user => inr (i, user)
      end
  end.

(** reservationController.js, [getUserReservations]:
    [Reservation.find({ userId: req.user.id })]. *)
Definition getUserReservations (user : ObjectId) (db : DB)
    : gmap ObjectId Reservation.doc :=
  coll_find (fun _ r => bool_decide (Reservation.userId r = user))
    (reservations db).

(** routes/reservations.js, [POST /reservations]: [protect], then
    [createReservation] for [req.user]. *)
Definition postReservation (now : Date) (decoded : option ObjectId)
    (body : ReservationBody) (db : DB)
    : (Response unit + Response Reservation.doc) * DB :=
  match protect decoded db with
  | inl res => (inl res, db)
  | inr (user, _) =>
      let out := createReservation now user body db in (inr out.1, out.2)
  end.

(** ** The location model and [createLocation] *)

(** The body of [POST /locations]; the route admits strings and
    ObjectIds only. *)
Record LocationBody := mkLocationBody {
  lb_name : jsstring;
  lb_address : jsstring;
  lb_phone_number : jsstring;
  lb_cityId : ObjectId;
  lb_userId : ObjectId
}.

(** [new Location({ name, address, phone_number, cityId, userId })]: the
    setters of [trim: true] and of [phone_number] run, [deleted] takes its
    default. *)
Definition Location_new (body : LocationBody) : Location.doc :=
  Location.mk (trim (lb_name body)) (trim (lb_address body))
    (phone_number_set (lb_phone_number body))
    (lb_cityId body) (lb_userId body) None.

(** The schema validators of a location: those of the strings, then the
    [async] ones of the references; the length of a string is its number
    of code units. *)
Definition Location_validators (db : DB) (l : Location.doc)
    : list (jsstring * jsstring) :=
  (if bool_decide (Location.name l = [])
   then [(js "name", js "Location name is required")]
   else if (100 <? length (Location.name l))%nat
   then [(js "name", js "Name cannot exceed 100 characters")]
   else if (length (Location.name l) <? 2)%nat
   then [(js "name", js "Name must be at least 2 characters")]
   else []) ++
  (if bool_decide (Location.address l = [])
   then [(js "address", js "Address is required")]
   else if (200 <? length (Location.address l))%nat
   then [(js "address", js "Address cannot exceed 200 characters")]
   else []) ++
  (if bool_decide (Location.phone_number l = [])
   then [(js "phone_number", js "Phone number is required")]
   else if phone_number_validator (Location.phone_number l) then []
   else [(js "phone_number",
          Location.phone_number l ++ js " is not a valid phone number!")]) ++
  (if bool_decide (is_Some (cities db !! Location.cityId l)) then []
   else [(js "cityId", js "Invalid city reference")]) ++
  (if bool_decide (is_Some (model_findById no_options (Location.userId l)
                              (users db)))
   then [] else [(js "userId", js "Invalid user reference")]).

(** [location.save()] of a new document: validation, then the
    [pre('save')] hook
<<
  if (!city) throw new Error('Referenced city does not exist');
  if (!user) throw new Error('Referenced user does not exist');
>>
    then the insert. *)
Definition Location_save (i : ObjectId) (l : Location.doc) (db : DB)
    : Error + DB :=
  match Location_validators db l with
  | (_ :: _) as errs => inl (ValidationError "Location validation failed" errs)
  | [] =>
      if negb (bool_decide (is_Some (cities db !! Location.cityId l)))
      then inl (plain_error "Referenced city does not exist")
      else if negb (bool_decide (is_Some
                      (model_findById no_options (Location.userId l) (users db))))
      then inl (plain_error "Referenced user does not exist")
      else inr (set_locations db (<[i := l]> (locations db)))
  end.

(** locationController.js, [createLocation]:
<<
  const [city, user] = await Promise.all([
    City.findById(cityId), User.findById(userId) ]);
  if (!city) return res.status(400).json({ error: 'Invalid city' });
  if (!user) return res.status(400).json({ error: 'Invalid user' });
  const location = new Location({ name, address, phone_number, cityId, userId });
  await location.save();
  const populatedLocation = await Location.findById(location._id) ...
  res.status(201).json(populatedLocation);
>> *)
Definition createLocation (body : LocationBody) (db : DB)
    : Response Location.doc * DB :=
  if negb (bool_decide (is_Some (cities db !! lb_cityId body)))
  then (mkRes 400 (ErrorJson "Invalid city"), db)
  else if negb (bool_decide (is_Some
                  (model_findById no_options (lb_userId body) (users db))))
  then (mkRes 400 (ErrorJson "Invalid user"), db)
  else
    let location := Location_new body in
    let i := fresh (dom (locations db)) in
    match Location_save i location db with
    | inl err =>
        (handleErrors (fun _ => js "already exists") err
           "Failed to create location", db)
        (* the 409 text is built from [error.keyPattern]; the location
           schema has no unique index, so no error carries code 11000 *)
    | inr db' =>
        match model_findById no_options i (locations db') with
        | Some populated => (mkRes 201 (Json populated), db')
        | None => (mkRes 201 NoBody, db')
        end
    end.

(** ** More setters, hooks and helpers *)

(** The [uppercase: true] setter of [registrationNumber]: [v.toUpperCase()]. *)
Definition registrationNumber_set (rt : Runtime) (v : jsstring) : jsstring :=
  toUpperCase rt v.

(** [/^[A-Z0-9]{6,12}$/.test(v)] *)
Definition registrationNumber_validator (v : jsstring) : bool :=
  forallb (fun c => is_upper c || is_digit c) v &&
  (6 <=? length v)%nat && (length v <=? 12)%nat.

(** The registration number stored for a raw value, if the validator
    accepts it. *)
Definition registrationNumber_stored (rt : Runtime) (raw : jsstring)
    : option jsstring :=
  let v := registrationNumber_set rt raw in
  if registrationNumber_validator v then Some v else None.

(** [stateSchema.pre('findOneAndUpdate')]:
<<
  if (update.name) {
    update.name = update.name.replace(/\w\S*/g, txt =>
      txt.charAt(0).toUpperCase() + txt.substr(1).toLowerCase());
  }
>>
    An absent or empty name is falsy and left alone. *)
Definition State_pre_findOneAndUpdate (rt : Runtime)
    (update_name : option jsstring) : option jsstring :=
  match update_name with
  | None => None
  | Some name =>
      if bool_decide (name = []) then Some name
      else Some (replace_words rt (length name) name)
  end.

(** On ASCII strings: the replacement of [replace_words] as one pass over
    the characters; [inside] tells whether the character continues a
    match. *)
Fixpoint replace_words_pass (inside : bool) (s : jsstring) : jsstring :=
  match s with
  | [] => []
  | c :: rest =>
      if inside
      then if is_space c then c :: replace_words_pass false rest
           else ascii_lower c :: replace_words_pass true rest
      else if is_word c then ascii_upper c :: replace_words_pass true rest
           else c :: replace_words_pass false rest
  end.

(** An ASCII string with its letters lowercased. *)
Definition lower (s : jsstring) : jsstring := map ascii_lower s.

(** stateController.js, [getStates]: the page of the matching states, given
    in sort order, and [meta.pages].
<<
  const pageNumber = parseInt(page);
  const limitNumber = Math.min(parseInt(limit), 100);
  const skip = (pageNumber - 1) * limitNumber;
  ... .sort(sortOrder).skip(skip).limit(limitNumber)
  pages: Math.ceil(total / limitNumber)
>>
    The route admits [page >= 1] and [1 <= limit <= 100] only. *)
Definition limitNumber (limit : Z) : Z := Z.min limit 100.

Definition getStates_data {A : Type} (sorted : list A) (page limit : Z)
    : list A :=
  let skip := (page - 1) * limitNumber limit in
  take (Z.to_nat (limitNumber limit)) (drop (Z.to_nat skip) sorted).

Definition getStates_pages {A : Type} (sorted : list A) (limit : Z) : Z :=
  ceil_div (Z.of_nat (length sorted)) (limitNumber limit).

(** ** Sequences of requests, with the controllers of this part *)

(** A request to one of the controllers that write: those of [request],
    and [deleteCity], [deleteUser] and [createLocation]. *)
Inductive api_request :=
| Request (rq : request)
| DeleteCity (i : ObjectId)
| DeleteUser (i : ObjectId)
| CreateLocation (body : LocationBody).

(** The database after a request has been served. *)
Definition api_handle (rt : Runtime) (rq : api_request) (db : DB) : DB :=
  match rq with
  | Request rq0 => handle rt rq0 db
  | DeleteCity i => (deleteCity i db).2
  | DeleteUser i => (deleteUser i db).2
  | CreateLocation body => (createLocation body db).2
  end.

Definition api_run (rt : Runtime) (rqs : list api_request) (db : DB) : DB :=
  fold_left (fun d rq => api_handle rt rq d) rqs db.

(** ** Invariants of the store *)

(** No two stored reservations of one car overlap. *)
Definition no_double_booking (db : DB) : Prop :=
  ∀ k1 k2 r1 r2,
    k1 ≠ k2 ->
    reservations db !! k1 = Some r1 ->
    reservations db !! k2 = Some r2 ->
    Reservation.carId r1 = Reservation.carId r2 ->
    ¬ overlap (Reservation.startDate r1) (Reservation.endDate r1)
              (Reservation.startDate r2) (Reservation.endDate r2).

(** Every stored reservation ends after it starts. *)
Definition reservations_well_formed (db : DB) : Prop :=
  ∀ k r, reservations db !! k = Some r ->
    Reservation.startDate r < Reservation.endDate r.

(** Every stored city belongs to a stored state, and no two cities of one
    state have the same name. *)
Definition cities_consistent (db : DB) : Prop :=
  (∀ k c, cities db !! k = Some c -> is_Some (states db !! City.stateId c)) ∧
  (∀ k1 k2 c1 c2,
     cities db !! k1 = Some c1 -> cities db !! k2 = Some c2 ->
     City.stateId c1 = City.stateId c2 -> City.name c1 = City.name c2 ->
     k1 = k2).

(** * Properties *)

(** ** Collections *)

Section CollectionFacts.
Context {D : Type}.
Implicit Types (p : ObjectId -> D -> bool) (c : gmap ObjectId D).

Lemma coll_find_lookup p c k d :
  coll_find p c !! k = Some d <-> c !! k = Some d ∧ p k d = true.
Proof. unfold coll_find. by rewrite map_lookup_filter_Some. Qed.

Lemma coll_deleteMany_lookup p c k d :
  coll_deleteMany p c !! k = Some d <-> c !! k = Some d ∧ p k d = false.
Proof. unfold coll_deleteMany. by rewrite map_lookup_filter_Some. Qed.

Lemma coll_deleteMany_subseteq p c : coll_deleteMany p c ⊆ c.
Proof. apply map_filter_subseteq. Qed.

Lemma id_in_true (i : ObjectId) (found : gmap ObjectId D) :
  id_in i found = true <-> is_Some (found !! i).
Proof. unfold id_in. by rewrite bool_decide_eq_true. Qed.

Lemma coll_find_empty p c :
  coll_find p c = ∅ <-> ∀ k d, c !! k = Some d -> p k d = false.
Proof.
  rewrite map_empty. split.
  - intros Hn k d Hk. destruct (p k d) eqn:E; [|done].
    specialize (Hn k). rewrite (proj2 (coll_find_lookup p c k d)) in Hn; done.
  - intros Hall k. destruct (coll_find p c !! k) as [d|] eqn:E; [|done].
    apply coll_find_lookup in E as [Hk Hp]. rewrite (Hall k d Hk) in Hp. done.
Qed.
End CollectionFacts.

(** ** The soft-delete filter *)

Section SoftDeleteFacts.
Context {D : Type} `{SoftDeletable D}.
Implicit Types (c : gmap ObjectId D) (q : conditions D) (o : options).

Lemma model_find_lookup o q c k d :
  model_find o q c !! k = Some d <->
  c !! k = Some d ∧ matches (pre_find o q) k d = true.
Proof. unfold model_find. apply coll_find_lookup. Qed.

(** Without option and without condition on [deleted]: live documents only. *)
Lemma find_default rest c k d :
  model_find no_options (mkConds None rest) c !! k = Some d <->
  c !! k = Some d ∧ rest k d = true ∧ deleted_of d = None.
Proof.
  rewrite model_find_lookup. unfold matches, pre_find. simpl.
  rewrite andb_true_iff. destruct (deleted_of d); simpl; intuition congruence.
Qed.

(** With [withDeleted]: no exclusion. *)
Lemma find_withDeleted q c k d :
  model_find (mkOpts true) q c !! k = Some d <->
  c !! k = Some d ∧ matches q k d = true.
Proof. by rewrite model_find_lookup. Qed.

(** With a condition on [deleted] in the filter: that condition alone
    decides, whatever the options. *)
Lemma find_explicit o dc rest c k d :
  model_find o (mkConds (Some dc) rest) c !! k = Some d <->
  c !! k = Some d ∧ rest k d = true ∧
  match_deleted (Some dc) (deleted_of d) = true.
Proof.
  rewrite model_find_lookup. unfold matches, pre_find. simpl.
  destruct o as [[]], dc; simpl; rewrite andb_true_iff; intuition congruence.
Qed.

Lemma findById_lookup o i c d :
  model_findById o i c = Some d <->
  c !! i = Some d ∧ (withDeleted o = true ∨ deleted_of d = None).
Proof.
  unfold model_findById. rewrite model_find_lookup.
  unfold matches, pre_find. simpl.
  destruct o as [[]]; simpl; rewrite andb_true_iff, bool_decide_eq_true;
    destruct (deleted_of d); simpl; intuition congruence.
Qed.
End SoftDeleteFacts.

(** C6. Every find-style read on a soft-deletable model (Location, User)
    leaves out the documents whose [deleted] marker is set when the caller
    gives neither the [withDeleted] option nor a condition on [deleted];
    with the option no document is left out; with a condition on [deleted]
    in the filter that condition alone decides; a lookup by id returns a
    document exactly when the list query with the same options does; so a
    soft-deleted document is absent from a default find and present when
    deleted documents are asked for. *)
Theorem soft_delete_visibility {D : Type} `{SoftDeletable D}
    (c : gmap ObjectId D) (rest : ObjectId -> D -> bool)
    (k : ObjectId) (d : D) :
  (model_find no_options (mkConds None rest) c !! k = Some d <->
     c !! k = Some d ∧ rest k d = true ∧ deleted_of d = None) ∧
  (model_find (mkOpts true) (mkConds None rest) c !! k = Some d <->
     c !! k = Some d ∧ rest k d = true) ∧
  (∀ o dc,
     model_find o (mkConds (Some dc) rest) c !! k = Some d <->
     c !! k = Some d ∧ rest k d = true ∧
     match_deleted (Some dc) (deleted_of d) = true) ∧
  (∀ o,
     model_findById o k c = Some d <->
     model_find o (mkConds None (fun _ _ => true)) c !! k = Some d) ∧
  (c !! k = Some d -> rest k d = true -> deleted_of d ≠ None ->
     model_find no_options (mkConds None rest) c !! k = None ∧
     model_findById no_options k c = None ∧
     model_find (mkOpts true) (mkConds None rest) c !! k = Some d ∧
     model_findById (mkOpts true) k c = Some d ∧
     model_find no_options (mkConds (Some DeletedNeNull) rest) c !! k = Some d).
Proof.
  split; [apply find_default|].
  split.
  { rewrite find_withDeleted. unfold matches. simpl.
    rewrite andb_true_r. reflexivity. }
  split; [intros o dc; apply find_explicit|].
  split.
  { intros o. rewrite findById_lookup.
    destruct o as [[]].
    - rewrite find_withDeleted. unfold matches. simpl. tauto.
    - rewrite find_default. simpl. intuition congruence. }
  intros Hk Hrest Hdel.
  split.
  { destruct (model_find no_options (mkConds None rest) c !! k) as [x|] eqn:E;
      [|done].
    apply find_default in E as (Hx & _ & Hn). congruence. }
  split.
  { destruct (model_findById no_options k c) as [x|] eqn:E; [|done].
    apply findById_lookup in E as (Hx & [Ho|Hn]); [done|congruence]. }
  split.
  { apply find_withDeleted. unfold matches. simpl.
    rewrite Hrest. done. }
  split.
  { apply findById_lookup. auto. }
  apply find_explicit. repeat split; try done.
  simpl. destruct (deleted_of d); done.
Qed.

(** The same on the location controller: after [softDeleteLocation] the
    location is missing from the default list and from the lookup by id,
    and listed under [?deleted=true]. *)
Lemma softDeleteLocation_visibility (now : Date) (i : ObjectId) (db : DB)
    (l : Location.doc) :
  model_findById no_options i (locations db) = Some l ->
  let db' := (softDeleteLocation now i db).2 in
  getLocations None (fun _ _ => true) db' !! i = None ∧
  res_status (getLocationById i db') = 404 ∧
  is_Some (getLocations (Some true) (fun _ _ => true) db' !! i).
Proof.
  intros Hl. unfold softDeleteLocation. rewrite Hl. simpl.
  set (l' := Location.mk _ _ _ _ _ _).
  split.
  { unfold getLocations. simpl.
    destruct (model_find _ _ _ !! i) as [x|] eqn:E; [|done].
    apply find_default in E as (Hx & _ & Hn).
    rewrite lookup_insert_eq in Hx. injection Hx as <-. done. }
  split.
  { unfold getLocationById. cbn [locations set_locations].
    destruct (model_findById _ _ (<[_:=_]> _)) as [x|] eqn:E; [|done].
    apply findById_lookup in E as (Hx & [Ho|Hn]); [done|].
    rewrite lookup_insert_eq in Hx. injection Hx as <-. done. }
  exists l'. unfold getLocations. simpl. apply find_explicit.
  rewrite lookup_insert_eq. done.
Qed.

(** ** Cascade deletion *)

Lemma id_in_found {D : Type} (p : ObjectId -> D -> bool)
    (c : gmap ObjectId D) (k : ObjectId) (d : D) :
  c !! k = Some d -> p k d = true -> id_in k (coll_find p c) = true.
Proof.
  intros Hk Hp. apply id_in_true. exists d. by apply coll_find_lookup.
Qed.

Lemma id_in_false_not_found {D : Type} (p : ObjectId -> D -> bool)
    (c : gmap ObjectId D) (k : ObjectId) (d : D) :
  id_in k (coll_find p c) = false -> c !! k = Some d -> p k d = false.
Proof.
  intros Hin Hk. destruct (p k d) eqn:E; [|done].
  rewrite (id_in_found p c k d Hk E) in Hin. done.
Qed.

(** What [Car.deleteMany] leaves: the cars outside the filter, and the
    reservations of no car inside it. *)
Lemma Car_deleteMany_spec (p : ObjectId -> Car.doc -> bool) (db : DB) :
  let db' := Car_deleteMany p db in
  (∀ k c, cars db' !! k = Some c -> cars db !! k = Some c ∧ p k c = false) ∧
  (∀ k r, reservations db' !! k = Some r ->
     reservations db !! k = Some r ∧
     ∀ c, cars db !! Reservation.carId r = Some c ->
          p (Reservation.carId r) c = false) ∧
  locations db' = locations db ∧ cities db' = cities db ∧
  states db' = states db ∧ users db' = users db.
Proof.
  unfold Car_deleteMany, Reservation_deleteMany.
  cbn [cars reservations locations cities states users set_cars set_reservations].
  repeat split; try done.
  - by apply coll_deleteMany_lookup in H as [? ?].
  - by apply coll_deleteMany_lookup in H as [? ?].
  - by apply coll_deleteMany_lookup in H as [? ?].
  - intros c Hc. apply coll_deleteMany_lookup in H as [_ Hin].
    eapply id_in_false_not_found; eauto.
Qed.

(** The sibling path [location.deleteOne()] does cascade: no car of the
    location survives, nor a reservation of such a car. *)
Lemma Location_document_deleteOne_cascade (i : ObjectId) (db : DB) :
  let db' := Location_document_deleteOne i db in
  locations db' !! i = None ∧
  (∀ k c, cars db' !! k = Some c -> Car.locationId c ≠ i) ∧
  (∀ k r c, reservations db' !! k = Some r ->
     cars db !! Reservation.carId r = Some c -> Car.locationId c ≠ i).
Proof.
  unfold Location_document_deleteOne.
  destruct (Car_deleteMany_spec
              (fun _ c => bool_decide (Car.locationId c = i)) db)
    as (Hcars & Hres & _).
  cbn [cars reservations locations set_locations].
  split; [apply lookup_delete_eq|]. split.
  - intros k c Hk. apply Hcars in Hk as [_ Hp].
    by apply bool_decide_eq_false in Hp.
  - intros k r c Hk Hc. apply Hres in Hk as [_ Hp].
    specialize (Hp c Hc). by apply bool_decide_eq_false in Hp.
Qed.

(** C3. Hard-deleting a location through [deleteLocation] is meant to take
    its cars and their reservations with it.  On the store with one live
    location, one car at it and one reservation of the car, the controller
    answers 204 and removes the location, and the car and the reservation
    are still there; in general [deleteLocation] never changes the cars or
    the reservations. *)
Theorem deleteLocation_leaves_cars_and_reservations :
  let db := booked None (three_days "pending") in
  let out := deleteLocation 1 db in
  (res_status out.1 = 204 ∧
   locations out.2 !! 1%positive = None ∧
   cars out.2 !! 1%positive = Some (Car.mk 1 (Number_of_Z 100)) ∧
   reservations out.2 !! 1%positive = Some (three_days "pending")) ∧
  (∀ i d, cars (deleteLocation i d).2 = cars d ∧
          reservations (deleteLocation i d).2 = reservations d).
Proof.
  split.
  - vm_compute. repeat split; reflexivity.
  - intros i d. unfold deleteLocation, Location_findByIdAndDelete.
    destruct (model_findById no_options i (locations d)); done.
Qed.

(** What [Location.deleteMany] leaves.  The cars are selected through the
    hooked [find], so only the cars of the live locations inside the
    filter are sure to go. *)
Lemma Location_deleteMany_spec (q : conditions Location.doc) (db : DB) :
  let db' := Location_deleteMany q db in
  (∀ k l, locations db' !! k = Some l ->
     locations db !! k = Some l ∧ matches q k l = false) ∧
  (∀ k c, cars db' !! k = Some c ->
     cars db !! k = Some c ∧
     ∀ l, locations db !! Car.locationId c = Some l ->
          matches (pre_find no_options q) (Car.locationId c) l = false) ∧
  (∀ k r, reservations db' !! k = Some r ->
     reservations db !! k = Some r ∧
     ∀ c l, cars db !! Reservation.carId r = Some c ->
            locations db !! Car.locationId c = Some l ->
            matches (pre_find no_options q) (Car.locationId c) l = false) ∧
  cities db' = cities db ∧ states db' = states db ∧ users db' = users db.
Proof.
  unfold Location_deleteMany.
  set (found := model_find no_options q (locations db)).
  destruct (Car_deleteMany_spec
              (fun _ c => id_in (Car.locationId c) found) db)
    as (Hcars & Hres & Hloc & Hcit & Hst & Hus).
  cbn [cars reservations locations cities states users set_locations].
  split.
  { intros k l Hk. unfold model_deleteMany_write in Hk.
    apply coll_deleteMany_lookup in Hk. by rewrite Hloc in Hk. }
  split.
  { intros k c Hk. apply Hcars in Hk as [Hk Hp]. split; [done|].
    intros l Hl. eapply id_in_false_not_found; eauto. }
  split; [|done].
  intros k r Hk. apply Hres in Hk as [Hk Hp]. split; [done|].
  intros c l Hc Hl. specialize (Hp c Hc).
  eapply id_in_false_not_found; eauto.
Qed.

Lemma City_deleteMany_spec (p : ObjectId -> City.doc -> bool) (db : DB) :
  let db' := City_deleteMany p db in
  let q := mkConds None
             (fun (_ : ObjectId) l =>
                id_in (Location.cityId l) (coll_find p (cities db))) in
  (∀ k c, cities db' !! k = Some c -> cities db !! k = Some c ∧ p k c = false) ∧
  (∀ k l, locations db' !! k = Some l ->
     locations db !! k = Some l ∧ matches q k l = false) ∧
  (∀ k c, cars db' !! k = Some c ->
     cars db !! k = Some c ∧
     ∀ l, locations db !! Car.locationId c = Some l ->
          matches (pre_find no_options q) (Car.locationId c) l = false) ∧
  (∀ k r, reservations db' !! k = Some r ->
     reservations db !! k = Some r ∧
     ∀ c l, cars db !! Reservation.carId r = Some c ->
            locations db !! Car.locationId c = Some l ->
            matches (pre_find no_options q) (Car.locationId c) l = false) ∧
  states db' = states db ∧ users db' = users db.
Proof.
  unfold City_deleteMany.
  set (q := mkConds None _).
  destruct (Location_deleteMany_spec q db)
    as (Hloc & Hcars & Hres & Hcit & Hst & Hus).
  cbn [cars reservations locations cities states users set_cities].
  split; [|done].
  intros k c Hk. apply coll_deleteMany_lookup in Hk. by rewrite Hcit in Hk.
Qed.

(** A location under a city of the filter matches the condition the city
    hook hands down; a live one also matches after the [/^find/] hook. *)
Lemma under_city_matches (p : ObjectId -> City.doc -> bool) (db : DB)
    (k : ObjectId) (l : Location.doc) (ci : City.doc) :
  cities db !! Location.cityId l = Some ci ->
  p (Location.cityId l) ci = true ->
  let q := mkConds None
             (fun (_ : ObjectId) l =>
                id_in (Location.cityId l) (coll_find p (cities db))) in
  matches q k l = true ∧
  (Location.deleted l = None -> matches (pre_find no_options q) k l = true).
Proof.
  intros Hci Hp. unfold matches, pre_find. simpl.
  rewrite (id_in_found p (cities db) _ ci Hci Hp). split; [done|].
  intros Hlive. unfold deleted_of, Location_soft. by rewrite Hlive.
Qed.

(** When no location is soft-deleted, [deleteState] clears the whole
    subtree of the state. *)
Lemma deleteState_cascade_live (i : ObjectId) (db : DB) (s : State.doc) :
  states db !! i = Some s ->
  (∀ k l, locations db !! k = Some l -> Location.deleted l = None) ->
  let out := deleteState i db in
  res_status out.1 = 204 ∧
  states out.2 !! i = None ∧
  (∀ k c, cities out.2 !! k = Some c -> City.stateId c ≠ i) ∧
  (∀ k l ci, locations out.2 !! k = Some l ->
     cities db !! Location.cityId l = Some ci -> City.stateId ci ≠ i) ∧
  (∀ k c l ci, cars out.2 !! k = Some c ->
     locations db !! Car.locationId c = Some l ->
     cities db !! Location.cityId l = Some ci -> City.stateId ci ≠ i) ∧
  (∀ k r c l ci, reservations out.2 !! k = Some r ->
     cars db !! Reservation.carId r = Some c ->
     locations db !! Car.locationId c = Some l ->
     cities db !! Location.cityId l = Some ci -> City.stateId ci ≠ i).
Proof.
  intros Hs Hlive. unfold deleteState, State_findByIdAndDelete. rewrite Hs.
  set (p := fun (_ : ObjectId) c => bool_decide (City.stateId c = i)).
  destruct (City_deleteMany_spec p db) as (Hcit & Hloc & Hcars & Hres & Hst & _).
  rewrite Hst, Hs.
  cbn [fst snd res_status states cities locations cars reservations set_states].
  split; [done|]. split; [apply lookup_delete_eq|].
  assert (Hp : ∀ k ci, City.stateId ci = i -> p k ci = true).
  { intros k ci E. unfold p. by apply bool_decide_eq_true. }
  split.
  { intros k c Hk E. apply Hcit in Hk as [_ Hk].
    rewrite (Hp k c E) in Hk. done. }
  split.
  { intros k l ci Hk Hci E. apply Hloc in Hk as [_ Hm].
    destruct (under_city_matches p db k l ci Hci (Hp _ ci E)) as [Hq _].
    rewrite Hq in Hm. done. }
  split.
  { intros k c l ci Hk Hl Hci E. apply Hcars in Hk as [_ Hm].
    specialize (Hm l Hl).
    destruct (under_city_matches p db (Car.locationId c) l ci Hci (Hp _ ci E))
      as [_ Hq].
    rewrite (Hq (Hlive _ l Hl)) in Hm. done. }
  intros k r c l ci Hk Hc Hl Hci E. apply Hres in Hk as [_ Hm].
  specialize (Hm c l Hc Hl).
  destruct (under_city_matches p db (Car.locationId c) l ci Hci (Hp _ ci E))
    as [_ Hq].
  rewrite (Hq (Hlive _ l Hl)) in Hm. done.
Qed.

(** C4. Deleting a state through [deleteState] is meant to leave no city,
    location, car or reservation beneath it.  With one city, one
    soft-deleted location, one car and one reservation under the state,
    the controller answers 204 and removes the state, the city and the
    location, and the car and its reservation are still there; with the
    same location live, all five collections end up empty. *)
Theorem deleteState_misses_cars_of_soft_deleted_location :
  let db := booked (Some 0) (three_days "pending") in
  let out := deleteState 1 db in
  (res_status out.1 = 204 ∧
   states out.2 = ∅ ∧ cities out.2 = ∅ ∧ locations out.2 = ∅ ∧
   cars out.2 !! 1%positive = Some (Car.mk 1 (Number_of_Z 100)) ∧
   reservations out.2 !! 1%positive = Some (three_days "pending")) ∧
  let live := (deleteState 1 (booked None (three_days "pending"))).2 in
  states live = ∅ ∧ cities live = ∅ ∧ locations live = ∅ ∧
  cars live = ∅ ∧ reservations live = ∅.
Proof.
  split; vm_compute; repeat split; reflexivity.
Qed.

(** ** The reservation scheduler *)

Lemma ceil_div_bounds (a b : Z) :
  0 < b -> (ceil_div a b - 1) * b < a ∧ a <= ceil_div a b * b.
Proof.
  intros Hb. unfold ceil_div.
  pose proof (Z.div_mod (- a) b ltac:(lia)) as Hdm.
  pose proof (Z.mod_pos_bound (- a) b Hb) as Hm.
  nia.
Qed.

Lemma overlap_filter_true (this x : Reservation.doc) (k : ObjectId) :
  overlap_filter this k x = true <->
  Reservation.carId x = Reservation.carId this ∧
  overlap (Reservation.startDate this) (Reservation.endDate this)
          (Reservation.startDate x) (Reservation.endDate x).
Proof.
  unfold overlap_filter, overlap.
  rewrite andb_true_iff, bool_decide_eq_true, negb_true_iff, orb_false_iff.
  rewrite Z.leb_gt, Z.geb_leb, Z.leb_gt. tauto.
Qed.

Lemma pre_save_overlap_passes (db : DB) (this : Reservation.doc) :
  pre_save_overlap db this = inr tt <->
  ∀ k x, reservations db !! k = Some x -> overlap_filter this k x = false.
Proof.
  unfold pre_save_overlap. rewrite <- coll_find_empty.
  case_bool_decide; split; intros; done.
Qed.

Lemma pre_save_overlap_throws (db : DB) (this : Reservation.doc) :
  pre_save_overlap db this =
    inl (plain_error "Car already reserved for these dates") <->
  ∃ k x, reservations db !! k = Some x ∧ overlap_filter this k x = true.
Proof.
  unfold pre_save_overlap. case_bool_decide as E; split.
  - done.
  - intros (k & x & Hk & Hx).
    rewrite coll_find_empty in E. rewrite (E k x Hk) in Hx. done.
  - intros _.
    destruct (map_choose _ E) as (k & x & Hkx).
    apply coll_find_lookup in Hkx. eauto.
  - done.
Qed.

Lemma pre_save_overlap_cases (db : DB) (this : Reservation.doc) :
  pre_save_overlap db this = inr tt ∨
  pre_save_overlap db this =
    inl (plain_error "Car already reserved for these dates").
Proof. unfold pre_save_overlap. case_bool_decide; auto. Qed.

(** Validation passes exactly when each validator does. *)
Lemma validators_pass (now : Date) (db : DB) (r : Reservation.doc) :
  Reservation_validators now db r = [] <->
  is_Some (cars db !! Reservation.carId r) ∧
  is_Some (model_findById no_options (Reservation.userId r) (users db)) ∧
  now < Reservation.startDate r ∧
  Reservation.startDate r < Reservation.endDate r ∧
  Reservation.status r ∈ status_enum.
Proof.
  unfold Reservation_validators, Reservation_sync_errors,
    Reservation_car_errors, Reservation_user_errors.
  repeat case_bool_decide;
    destruct (Z.ltb_spec now (Reservation.startDate r));
    destruct (Z.ltb_spec (Reservation.startDate r) (Reservation.endDate r));
    simpl; split; try done; intros (? & ? & ? & ? & ?); try done; lia.
Qed.

(** *** The test of [handleErrors] on the message of a validation error *)

(** A string that holds a character which the needle does not hold is
    searched on either side of that character. *)
Lemma starts_with_app_char (n a b : jsstring) (c : code_unit) :
  forallb (fun x => negb (x =? c)%N) n = true ->
  starts_with n (a ++ c :: b) = starts_with n a.
Proof.
  revert a. induction n as [|x n IH]; intros a Hn; [by destruct a|].
  simpl in Hn. apply andb_true_iff in Hn as [Hx Hn].
  destruct a as [|y a]; simpl.
  - apply negb_true_iff in Hx. by rewrite Hx.
  - by rewrite IH.
Qed.

Lemma includes_app_char (n a b : jsstring) (c : code_unit) :
  forallb (fun x => negb (x =? c)%N) n = true ->
  includes n (a ++ c :: b) = includes n a || includes n b.
Proof.
  intros Hn. induction a as [|y a IH].
  - pose proof (starts_with_app_char n [] b c Hn) as H. simpl in *.
    rewrite H. by destruct n.
  - change (includes n ((y :: a) ++ c :: b))
      with (starts_with n ((y :: a) ++ c :: b) || includes n (a ++ c :: b)).
    rewrite (starts_with_app_char n (y :: a) b c Hn), IH.
    simpl. by rewrite orb_assoc.
Qed.

Lemma includes_colon (a b : jsstring) :
  includes "already reserved" (a ++ js ": " ++ b) =
  includes "already reserved" a || includes "already reserved" b.
Proof.
  change (js ": " ++ b) with (58%N :: 32%N :: b).
  by rewrite includes_app_char.
Qed.

Lemma includes_comma (a b : jsstring) :
  includes "already reserved" (a ++ js ", " ++ b) =
  includes "already reserved" a || includes "already reserved" b.
Proof.
  change (js ", " ++ b) with (44%N :: 32%N :: b).
  by rewrite includes_app_char.
Qed.

Lemma includes_join_errors (errs : list (jsstring * jsstring)) :
  includes "already reserved" (join_errors errs) =
  existsb (fun pm => includes "already reserved" pm.1 ||
                     includes "already reserved" pm.2) errs.
Proof.
  induction errs as [|[p m] [|pm rest] IH].
  - done.
  - change (join_errors [(p, m)]) with (p ++ js ": " ++ m).
    rewrite includes_colon. simpl. by rewrite orb_false_r.
  - change (join_errors ((p, m) :: pm :: rest))
      with (p ++ js ": " ++ m ++ js ", " ++ join_errors (pm :: rest)).
    rewrite includes_colon, includes_comma, IH. simpl.
    by rewrite orb_assoc.
Qed.

(** The message of a validation error reads "already reserved" exactly
    when the text before the paths or one of the paths or messages
    does. *)
Lemma includes_ValidationError (failed : jsstring)
    (errs : list (jsstring * jsstring)) :
  includes "already reserved" (err_message (ValidationError failed errs)) =
  includes "already reserved" failed ||
  existsb (fun pm => includes "already reserved" pm.1 ||
                     includes "already reserved" pm.2) errs.
Proof.
  change (err_message (ValidationError failed errs))
    with (failed ++ js ": " ++ join_errors errs).
  by rewrite includes_colon, includes_join_errors.
Qed.

(** The messages of the validators of the dates, of the status of a new
    reservation and of the user never read "already reserved". *)
Lemma other_paths_not_conflict (now : Date) (db : DB) (user : ObjectId)
    (startDate endDate : Date) :
  existsb (fun pm => includes "already reserved" pm.1 ||
                     includes "already reserved" pm.2)
    (Reservation_sync_errors now startDate endDate "pending" ++
     Reservation_user_errors db user) = false.
Proof.
  unfold Reservation_sync_errors, Reservation_user_errors.
  destruct (now <? startDate); destruct (startDate <? endDate);
    destruct (bool_decide (is_Some (model_findById no_options user (users db))));
    vm_compute; reflexivity.
Qed.

(** The message of a validation error of a new reservation whose [carId]
    is an ObjectId never reads "already reserved". *)
Lemma validation_message_not_conflict (now : Date) (db : DB)
    (r : Reservation.doc) :
  Reservation.status r = "pending" ->
  includes "already reserved"
    (err_message (ValidationError "Reservation validation failed"
                    (Reservation_validators now db r))) = false.
Proof.
  intros Hs.
  unfold Reservation_validators, Reservation_sync_errors,
    Reservation_car_errors, Reservation_user_errors. rewrite Hs.
  destruct (bool_decide (is_Some (cars db !! Reservation.carId r)));
    destruct (bool_decide (is_Some (model_findById no_options
                                      (Reservation.userId r) (users db))));
    destruct (now <? Reservation.startDate r);
    destruct (Reservation.startDate r <? Reservation.endDate r);
    vm_compute; reflexivity.
Qed.

(** When a path could not be set, the message reads "already reserved"
    exactly when the cast error of [carId] does. *)
Lemma unset_message_conflict (now : Date) (db : DB) (user : ObjectId)
    (carId : option raw_id) (startDate endDate : option Date) :
  includes "already reserved"
    (err_message
       (ValidationError "Reservation validation failed"
          (Reservation_unset_errors now db user carId startDate endDate))) =
  match carId with
  | Some (NotAnId msg) => includes "already reserved" msg
  | _ => false
  end.
Proof.
  rewrite includes_ValidationError. unfold Reservation_unset_errors.
  rewrite existsb_app.
  match goal with
  | |- _ || (_ || existsb ?f ?rest) = _ =>
      assert (Hrest : existsb f rest = false)
  end.
  { unfold Reservation_car_errors, Reservation_user_errors.
    destruct carId as [[c|msg]|], startDate as [s|], endDate as [e|];
      repeat match goal with
             | |- context [if ?b then _ else _] => destruct b
             end; vm_compute; reflexivity. }
  rewrite Hrest.
  change (includes "already reserved" "Reservation validation failed")
    with false.
  destruct carId as [[c|msg]|]; [done| |done].
  cbn [existsb fst snd orb].
  change (includes "already reserved" "carId") with false.
  by rewrite !orb_false_r.
Qed.

(** The three outcomes of [reservation.save()]. *)
Lemma Reservation_save_cases (now : Date) (i : ObjectId)
    (r : Reservation.doc) (db : DB) :
  (Reservation_validators now db r ≠ [] ∧
   Reservation_save now i r db =
     inl (ValidationError "Reservation validation failed" (Reservation_validators now db r))) ∨
  (∃ car r1,
     Reservation_validators now db r = [] ∧
     cars db !! Reservation.carId r = Some car ∧
     pre_save_price db r = inr r1 ∧
     ((pre_save_overlap db r1 =
         inl (plain_error "Car already reserved for these dates") ∧
       Reservation_save now i r db =
         inl (plain_error "Car already reserved for these dates")) ∨
      (pre_save_overlap db r1 = inr tt ∧
       Reservation_save now i r db =
         inr (r1, set_reservations db (<[i := r1]> (reservations db)))))).
Proof.
  unfold Reservation_save.
  destruct (Reservation_validators now db r) as [|e errs] eqn:Ev.
  - right. apply validators_pass in Ev as ([car Hcar] & _).
    unfold pre_save_price. rewrite Hcar.
    eexists car, _. repeat split; try done.
    match goal with |- context [pre_save_overlap db ?x] =>
      destruct (pre_save_overlap_cases db x) as [E|E]; rewrite E end.
    + right. split; reflexivity.
    + left. split; reflexivity.
  - left. split; [discriminate|reflexivity].
Qed.

(** The price hook sets [totalPrice] to the product of the number of days
    and the price of the car, and leaves the other fields. *)
Lemma pre_save_price_fields (db : DB) (r r1 : Reservation.doc) :
  pre_save_price db r = inr r1 ->
  Reservation.carId r1 = Reservation.carId r ∧
  Reservation.userId r1 = Reservation.userId r ∧
  Reservation.startDate r1 = Reservation.startDate r ∧
  Reservation.endDate r1 = Reservation.endDate r ∧
  Reservation.status r1 = Reservation.status r ∧
  ∃ car, cars db !! Reservation.carId r = Some car ∧
         Reservation.totalPrice r1 =
           set_totalPrice
             (PrimFloat.mul
                (Number_of_Z
                   (ceil_div (Reservation.endDate r - Reservation.startDate r)
                      ms_per_day))
                (Car.priceByDay car)).
Proof.
  unfold pre_save_price.
  destruct (cars db !! Reservation.carId r) as [car|]; [|done].
  intros [= <-]. simpl. eauto 10.
Qed.

(** The answers of [createReservation], case by case. *)
Lemma createReservation_cases (now : Date) (user : ObjectId)
    (body : ReservationBody) (db : DB) :
  let out := createReservation now user body db in
  (∃ c s e, body = booking c s e ∧
        Reservation_validators now db (new_reservation c user s e) ≠ [] ∧
        res_status out.1 = 400 ∧ out.2 = db) ∨
  (∃ c s e r1, body = booking c s e ∧
           Reservation_validators now db (new_reservation c user s e) = [] ∧
           pre_save_price db (new_reservation c user s e) = inr r1 ∧
           ((pre_save_overlap db r1 =
               inl (plain_error "Car already reserved for these dates") ∧
             res_status out.1 = 409 ∧ out.2 = db) ∨
            (pre_save_overlap db r1 = inr tt ∧
             out.1 = mkRes 201 (Json r1) ∧
             out.2 = set_reservations db
                       (<[fresh (dom (reservations db)) := r1]>
                          (reservations db))))) ∨
  ((∀ c s e, body ≠ booking c s e) ∧
   res_status out.1 =
     (if match body_carId body with
         | Some (NotAnId msg) => includes "already reserved" msg
         | _ => false
         end then 409 else 400) ∧
   out.2 = db).
Proof.
  intros out.
  assert (Hunset : ∀ carId startDate endDate,
            let error :=
              ValidationError "Reservation validation failed"
                (Reservation_unset_errors now db user carId startDate endDate)
            in
            res_status
              (reservation_handleErrors (A := Reservation.doc) error
                 "Failed to create reservation") =
            (if match carId with
                | Some (NotAnId msg) => includes "already reserved" msg
                | _ => false
                end then 409 else 400)).
  { intros carId startDate endDate error. unfold reservation_handleErrors.
    unfold error at 1. rewrite unset_message_conflict.
    by destruct (match carId with Some (NotAnId _) => _ | _ => _ end). }
  unfold out, createReservation.
  destruct body as [[[c|msg]|] [s|] [e|]]; cbn [body_carId body_startDate
    body_endDate];
    try (right; right; split; [by intros c' s' e'|];
         split; [apply Hunset|done]).
  destruct (Reservation_save_cases now (fresh (dom (reservations db)))
              (new_reservation c user s e) db)
    as [[Hv Hs]|(car & r1 & Hv & Hcar & Hp & [[Ho Hs]|[Ho Hs]])];
    rewrite Hs.
  - left. exists c, s, e. split; [done|]. split; [done|]. split; [|done].
    unfold reservation_handleErrors.
    rewrite validation_message_not_conflict by done. done.
  - right; left. exists c, s, e, r1. do 3 (split; [done|]). left. done.
  - right; left. exists c, s, e, r1. do 3 (split; [done|]). right. done.
Qed.

(** What the later proofs need of it: the request is refused and nothing
    changes, or one reservation is stored. *)
Lemma createReservation_outcomes (now : Date) (user : ObjectId)
    (body : ReservationBody) (db : DB) :
  let out := createReservation now user body db in
  ((res_status out.1 = 400 ∨ res_status out.1 = 409) ∧ out.2 = db) ∨
  (∃ c s e r1, body = booking c s e ∧
           Reservation_validators now db (new_reservation c user s e) = [] ∧
           pre_save_price db (new_reservation c user s e) = inr r1 ∧
           pre_save_overlap db r1 = inr tt ∧
           out.1 = mkRes 201 (Json r1) ∧
           out.2 = set_reservations db
                     (<[fresh (dom (reservations db)) := r1]>
                        (reservations db))).
Proof.
  intros out.
  destruct (createReservation_cases now user body db)
    as [(c & s & e & _ & _ & Hs & Hdb)
       |[(c & s & e & r1 & Hc & Hv & Hp & [(_ & Hs & Hdb)|(Ho & Hs & Hdb)])
        |(_ & Hs & Hdb)]]; fold out in Hs, Hdb.
  - left. auto.
  - left. auto.
  - right. exists c, s, e, r1. done.
  - left. split; [|done].
    destruct (match body_carId body with Some (NotAnId _) => _ | _ => _ end);
      auto.
Qed.

(** C1 (amended). [createReservation] answers 409 exactly in two cases.
    The first: the [carId] of the request is an ObjectId, its dates are
    valid dates, the request passes validation and its half-open interval
    overlaps the interval of some stored reservation of the same car,
    whatever the status of that reservation, a cancelled one included;
    [s1,e1) and [s2,e2) overlap when s1 < e2 and s2 < e1.  The second:
    the [carId] is no ObjectId and the message of its cast error, which
    quotes the value given, reads "already reserved", because
    [handleErrors] tests the message before the name of the error.  It
    answers 201 exactly when the [carId] is an ObjectId, the dates are
    valid, the request passes validation and every stored reservation of
    the car ends at or before the new start or starts at or after the new
    end, so touching intervals are accepted.  Whenever the answer is not
    201 the database is unchanged. *)
Theorem createReservation_conflict (now : Date) (user : ObjectId)
    (body : ReservationBody) (db : DB) :
  let out := createReservation now user body db in
  let valid (c : ObjectId) (s e : Date) :=
    Reservation_validators now db (Reservation.mk c user s e "pending" None)
    = [] in
  (res_status out.1 = 409 <->
     (∃ c s e, body = mkBody (Some (Id c)) (Some s) (Some e) ∧ valid c s e ∧
        ∃ k x, reservations db !! k = Some x ∧
               Reservation.carId x = c ∧
               overlap s e (Reservation.startDate x) (Reservation.endDate x)) ∨
     (∃ msg, body_carId body = Some (NotAnId msg) ∧
             includes "already reserved" msg = true)) ∧
  (res_status out.1 = 201 <->
     ∃ c s e, body = mkBody (Some (Id c)) (Some s) (Some e) ∧ valid c s e ∧
       ∀ k x, reservations db !! k = Some x ->
              Reservation.carId x = c ->
              Reservation.endDate x <= s ∨ e <= Reservation.startDate x) ∧
  (res_status out.1 ≠ 201 -> out.2 = db).
Proof.
  intros out valid.
  assert (Hov : ∀ c s e r1 k x,
            pre_save_price db (new_reservation c user s e) = inr r1 ->
            (overlap_filter r1 k x = true <->
             Reservation.carId x = c ∧
             overlap s e (Reservation.startDate x) (Reservation.endDate x))).
  { intros c s e r1 k x Hp. rewrite overlap_filter_true.
    apply pre_save_price_fields in Hp as (-> & _ & -> & -> & _). done. }
  destruct (createReservation_cases now user body db)
    as [(c & s & e & Hc & Hv & Hs & Hdb)
       |[(c & s & e & r1 & Hc & Hv & Hp & [(Ho & Hs & Hdb)|(Ho & Hs & Hdb)])
        |(Hc & Hs & Hdb)]];
    fold out in Hs, Hdb; rewrite Hs.
  - subst body. split; [split; [done|]|].
    { intros [(c' & s' & e' & [= <- <- <-] & Hv' & _)|(msg & ? & _)]; done. }
    split; [|done]. split; [done|].
    intros (c' & s' & e' & [= <- <- <-] & Hv' & _). done.
  - subst body.
    apply pre_save_overlap_throws in Ho as (k & x & Hk & Hx).
    apply (Hov c s e r1 k x Hp) in Hx as [Hcx Hx].
    split; [split; [|done]; intros _; left; exists c, s, e; eauto 10|].
    split; [|done]. split; [done|].
    intros (c' & s' & e' & [= <- <- <-] & _ & Hfree).
    destruct (Hfree k x Hk Hcx); unfold overlap in Hx; lia.
  - subst body. simpl.
    assert (Hfree : ∀ k x, reservations db !! k = Some x ->
              Reservation.carId x = c ->
              Reservation.endDate x <= s ∨ e <= Reservation.startDate x).
    { intros k x Hk Hcx.
      pose proof (proj1 (pre_save_overlap_passes db r1) Ho k x Hk) as Hf.
      destruct (decide (overlap s e
                  (Reservation.startDate x) (Reservation.endDate x)))
        as [Hx|Hx].
      - rewrite (proj2 (Hov c s e r1 k x Hp)) in Hf; done.
      - unfold overlap in Hx. lia. }
    split; [split; [done|]|].
    { intros [(c' & s' & e' & [= <- <- <-] & _ & k & x & Hk & Hcx & Hx)
             |(msg & ? & _)]; [|done].
      destruct (Hfree k x Hk Hcx); unfold overlap in Hx; lia. }
    split; [|done]. split; [|done]. intros _. by exists c, s, e.
  - assert (Hnot : ∀ c s e P,
              ¬ (body = mkBody (Some (Id c)) (Some s) (Some e) ∧ P)).
    { intros c s e P [Hb _]. by apply (Hc c s e). }
    destruct (body_carId body) as [[c|msg]|] eqn:Hcar.
    + split; [split; [done|]|].
      { intros [(c' & s' & e' & H)|(msg & ? & _)]; [|done].
        by apply Hnot in H. }
      split; [|done]. split; [done|].
      intros (c' & s' & e' & H). by apply Hnot in H.
    + destruct (includes "already reserved" msg) eqn:Hm.
      * split; [split; [|done]; intros _; right; by exists msg|].
        split; [|done]. split; [done|].
        intros (c' & s' & e' & H). by apply Hnot in H.
      * split; [split; [done|]|].
        { intros [(c' & s' & e' & H)|(msg' & [= <-] & Hm')];
            [by apply Hnot in H|congruence]. }
        split; [|done]. split; [done|].
        intros (c' & s' & e' & H). by apply Hnot in H.
    + split; [split; [done|]|].
      { intros [(c' & s' & e' & H)|(msg & ? & _)]; [|done].
        by apply Hnot in H. }
      split; [|done]. split; [done|].
      intros (c' & s' & e' & H). by apply Hnot in H.
Qed.

(** A request for days 2 to 3 of a car whose only stored reservation, days
    1 to 4, is cancelled: against the claim, the answer is 409. *)
Lemma createReservation_cancelled_still_blocks :
  let db := booked None (three_days "cancelled") in
  let out := createReservation 0 1 (booking 1 (2 * day) (3 * day)) db in
  res_status out.1 = 409 ∧ out.2 = db ∧
  reservations db = {[ 1%positive := three_days "cancelled" ]} ∧
  Reservation.status (three_days "cancelled") = "cancelled".
Proof. vm_compute. repeat split; reflexivity. Qed.

(** A request whose [carId] is the string "already reserved", to a store
    without any reservation: validation fails and the answer is 409; with
    the string "abc" it is 400. *)
Lemma createReservation_cast_error_conflict :
  let body value :=
    mkBody (Some (NotAnId (carId_cast_message value)))
      (Some (1 * day)) (Some (4 * day)) in
  reservations (fleet None) = ∅ ∧
  res_status (createReservation 0 1 (body "already reserved") (fleet None)).1
    = 409 ∧
  res_status (createReservation 0 1 (body "abc") (fleet None)).1 = 400.
Proof. vm_compute. repeat split; reflexivity. Qed.

(** A request whose start is no date: the cast fails when the document
    is built, validation fails on the paths [startDate] and [endDate],
    and the answer is 400. *)
Lemma createReservation_invalid_date :
  createReservation 0 1 (mkBody (Some (Id 1)) None (Some (4 * day)))
    (fleet None)
  = (mkRes 400
       (ErrorJson
          (js "Reservation validation failed: startDate: " ++
           date_cast_message "startDate" ++
           js ", endDate: End date must be after start date")),
     fleet None).
Proof. vm_compute. reflexivity. Qed.

(** The scenario of the specification: days 1 to 4 at 100 a day cost 300;
    days 2 to 3 are then refused; days 4 to 6, touching, are accepted. *)
Lemma createReservation_scenario :
  let first := createReservation 0 1 (booking 1 (1 * day) (4 * day)) (fleet None) in
  first.1 = mkRes 201 (Json (three_days "pending")) ∧
  res_status (createReservation 0 1 (booking 1 (2 * day) (3 * day)) first.2).1 = 409 ∧
  res_status (createReservation 0 1 (booking 1 (4 * day) (6 * day)) first.2).1 = 201.
Proof. vm_compute. repeat split; reflexivity. Qed.

(** ** Status updates *)



(** An id that is no ObjectId: the query throws, and the answer is 500
    with the default message. *)
Lemma updateReservationStatus_malformed_id :
  let db := booked None (three_days "pending") in
  updateReservationStatus
    (NotAnId "Cast to ObjectId failed for value (type string) at path _id")
    "confirmed" db
  = (mkRes 500 (ErrorJson "Failed to update reservation"), db).
Proof. vm_compute. reflexivity. Qed.

(** C9. A status update through [updateReservationStatus] changes the
    status of the targeted reservation and nothing else: its car, user,
    dates and total price stay, every other reservation and every other
    collection stays; no save hook runs: the answer is 200 although the
    overlap hook, had it run, would have thrown on any reservation whose
    end is after its start. *)
Theorem updateReservationStatus_frame (i : ObjectId) (status : jsstring)
    (db : DB) (r : Reservation.doc) :
  reservations db !! i = Some r ->
  let out := updateReservationStatus (Id i) status db in
  res_status out.1 = 200 ∧
  (∃ r', reservations out.2 !! i = Some r' ∧ same_booking r r' ∧
         Reservation.status r' = status ∧
         (Reservation.startDate r < Reservation.endDate r ->
          pre_save_overlap db r' =
            inl (plain_error "Car already reserved for these dates"))) ∧
  (∀ j, j ≠ i -> reservations out.2 !! j = reservations db !! j) ∧
  cars out.2 = cars db ∧ users out.2 = users db ∧
  locations out.2 = locations db ∧ cities out.2 = cities db ∧
  states out.2 = states db.
Proof.
  intros Hr. unfold updateReservationStatus. rewrite Hr.
  cbn [fst snd res_status reservations cars users locations cities states
       set_reservations].
  split; [done|]. split.
  { exists (set_status r status). rewrite lookup_insert_eq.
    split; [done|]. split; [by repeat split|]. split; [done|].
    intros Hlt. apply pre_save_overlap_throws. exists i, r.
    split; [done|]. apply overlap_filter_true. unfold overlap. simpl.
    split; [done|lia]. }
  split; [|done].
  intros j Hj. by rewrite lookup_insert_ne.
Qed.

Lemma updateReservationStatus_frame_witness :
  let out := updateReservationStatus (Id 1) "confirmed"
               (booked None (three_days "pending")) in
  res_status out.1 = 200 ∧
  reservations out.2 !! 1%positive = Some (three_days "confirmed").
Proof.
  destruct (updateReservationStatus_frame 1 "confirmed"
              (booked None (three_days "pending")) (three_days "pending")
              eq_refl) as (Hs & _).
  split; [exact Hs|]. vm_compute. reflexivity.
Defined.

(** ** Saving a stored reservation again *)

(** Saving a stored reservation that passes validation: the overlap hook
    finds the reservation itself and throws. *)
Lemma resave_self_overlap (now : Date) (db : DB) (i : ObjectId)
    (r : Reservation.doc) :
  reservations db !! i = Some r ->
  Reservation_validators now db r = [] ->
  ∃ r1, pre_save_price db r = inr r1 ∧
        coll_find (overlap_filter r1) (reservations db) !! i = Some r ∧
        Reservation_save now i r db =
          inl (plain_error "Car already reserved for these dates").
Proof.
  intros Hr Hv.
  pose proof (proj1 (validators_pass now db r) Hv) as (_ & _ & _ & Hlt & _).
  destruct (Reservation_save_cases now i r db)
    as [[Hne _]|(car & r1 & _ & _ & Hp & Hcases)]; [done|].
  exists r1. split; [done|].
  assert (Hself : overlap_filter r1 i r = true).
  { apply overlap_filter_true.
    apply pre_save_price_fields in Hp as (-> & _ & -> & -> & _).
    unfold overlap. split; [done|lia]. }
  split; [by apply coll_find_lookup|].
  destruct Hcases as [[_ Hs]|[Ho _]]; [done|].
  rewrite (proj1 (pre_save_overlap_passes db r1) Ho i r Hr) in Hself. done.
Qed.

(** C10 (amended). The overlap check of the save path does not leave out
    the reservation being saved: for every stored reservation that still
    passes the schema validators at the time of the save (car and user
    found, start date in the future, end after start, status in the
    enumeration), saving it again finds the reservation itself among the
    overlapping ones and fails with the error "Car already reserved for
    these dates", even when no field has changed. *)
Theorem resave_finds_itself (now : Date) (db : DB) (i : ObjectId)
    (r : Reservation.doc) :
  reservations db !! i = Some r ->
  Reservation_validators now db r = [] ->
  ∃ r1 e, pre_save_price db r = inr r1 ∧
          coll_find (overlap_filter r1) (reservations db) !! i = Some r ∧
          Reservation_save now i r db = inl e ∧
          includes "already reserved" (err_message e) = true.
Proof.
  intros Hr Hv.
  destruct (resave_self_overlap now db i r Hr Hv) as (r1 & Hp & Hf & Hs).
  exists r1, (plain_error "Car already reserved for these dates").
  repeat split; done.
Qed.

Lemma resave_finds_itself_witness :
  ∃ e, Reservation_save 0 1 (three_days "pending")
         (booked None (three_days "pending")) = inl e ∧
       includes "already reserved" (err_message e) = true.
Proof.
  destruct (resave_finds_itself 0 (booked None (three_days "pending")) 1
              (three_days "pending") eq_refl eq_refl)
    as (r1 & e & _ & _ & Hs & Hm).
  exists e. split; [exact Hs|exact Hm].
Defined.

(** Against the claim as stated: once the start date has passed (here at
    day 2 for a reservation of days 1 to 4), saving the stored reservation
    again fails in validation, with another error and answer. *)
Lemma resave_past_start_fails_validation :
  let db := booked None (three_days "pending") in
  let e := ValidationError "Reservation validation failed"
             [(js "startDate", js "Start date must be in the future")] in
  reservations db !! 1%positive = Some (three_days "pending") ∧
  Reservation_save (2 * day) 1 (three_days "pending") db = inl e ∧
  err_name e = "ValidationError" ∧
  includes "already reserved" (err_message e) = false.
Proof. vm_compute. repeat split; reflexivity. Qed.

(** A stored reservation is never saved again with success. *)
Lemma resave_never_succeeds (now : Date) (db : DB) (i : ObjectId)
    (r : Reservation.doc) :
  reservations db !! i = Some r ->
  ∃ e, Reservation_save now i r db = inl e.
Proof.
  intros Hr.
  destruct (Reservation_validators now db r) as [|e errs] eqn:Hv.
  - destruct (resave_self_overlap now db i r Hr Hv) as (_ & _ & _ & Hs).
    eauto.
  - unfold Reservation_save. rewrite Hv. eauto.
Qed.

(** ** The total price *)

Lemma same_booking_refl (r : Reservation.doc) : same_booking r r.
Proof. by repeat split. Qed.

Lemma same_booking_trans (r1 r2 r3 : Reservation.doc) :
  same_booking r1 r2 -> same_booking r2 r3 -> same_booking r1 r3.
Proof.
  unfold same_booking. intros (? & ? & ? & ? & ?) (? & ? & ? & ? & ?).
  repeat split; congruence.
Qed.

Lemma deleteState_reservations (i k : ObjectId) (db : DB)
    (r : Reservation.doc) :
  reservations (deleteState i db).2 !! k = Some r ->
  reservations db !! k = Some r.
Proof.
  unfold deleteState, State_findByIdAndDelete.
  destruct (states db !! i) as [s|] eqn:Hs; [|done].
  set (p := fun (_ : ObjectId) c => bool_decide (City.stateId c = i)).
  destruct (City_deleteMany_spec p db) as (_ & _ & _ & Hres & Hst & _).
  rewrite Hst, Hs. cbn [snd reservations set_states].
  intros Hk. by apply Hres in Hk as [? _].
Qed.

Lemma City_save_db (i : ObjectId) (c : City.doc) (db db' : DB) :
  City_save i c db = inr db' -> db' = set_cities db (<[i := c]> (cities db)).
Proof.
  unfold City_save. intros E. repeat case_match; by simplify_eq.
Qed.

Lemma createCity_db (rt : Runtime) (name : jsstring) (stateId : ObjectId)
    (db : DB) :
  (createCity rt name stateId db).2 = db ∨
  (createCity rt name stateId db).2 =
    set_cities db
      (<[fresh (dom (cities db)) := City.mk (name_set rt name) stateId]>
         (cities db)).
Proof.
  unfold createCity. destruct (negb _); [by left|].
  destruct (City_save _ _ db) as [e|db'] eqn:E; [by left|].
  right. by apply City_save_db in E.
Qed.

(** No request changes the car, user, dates or total price of a stored
    reservation. *)
Lemma handle_keeps_booking (rt : Runtime) (rq : request) (db : DB)
    (k : ObjectId) (r r' : Reservation.doc) :
  reservations db !! k = Some r ->
  reservations (handle rt rq db) !! k = Some r' ->
  same_booking r r'.
Proof.
  intros Hr.
  assert (Hsame : reservations db !! k = Some r' -> same_booking r r').
  { rewrite Hr. intros [= <-]. apply same_booking_refl. }
  destruct rq as [now user body|id status|i updates|i|i|now i|i|name stateId];
    cbn [handle].
  - destruct (createReservation_outcomes now user body db)
      as [(_ & ->)|(c & s & e & r1 & _ & _ & _ & _ & _ & ->)]; [done|].
    cbn [reservations set_reservations].
    rewrite lookup_insert_ne; [done|].
    intros <-. apply (is_fresh (dom (reservations db))).
    apply elem_of_dom. eauto.
  - unfold updateReservationStatus. destruct id as [i|msg]; [|done].
    destruct (reservations db !! i) as [r0|] eqn:Hi; [|done].
    cbn [snd reservations set_reservations].
    destruct (decide (i = k)) as [->|Hne].
    + rewrite lookup_insert_eq. intros [= <-].
      rewrite Hr in Hi. injection Hi as <-. by repeat split.
    + by rewrite lookup_insert_ne.
  - unfold updateCar. repeat case_match; done.
  - unfold deleteCar, Car_findByIdAndDelete. destruct (cars db !! i); done.
  - unfold deleteLocation, Location_findByIdAndDelete.
    destruct (model_findById no_options i (locations db)); done.
  - unfold softDeleteLocation.
    destruct (model_findById no_options i (locations db)); done.
  - intros Hk. apply Hsame. by apply deleteState_reservations in Hk.
  - by destruct (createCity_db rt name stateId db) as [-> | ->].
Qed.

Lemma run_keeps_booking (rt : Runtime) (rqs : list request) (db : DB)
    (k : ObjectId) (r : Reservation.doc) :
  reservations db !! k = Some r ->
  kept rt k rqs db ->
  ∃ r', reservations (run rt rqs db) !! k = Some r' ∧ same_booking r r'.
Proof.
  revert db r. induction rqs as [|rq rest IH]; intros db r Hr Hkept.
  - exists r. split; [done|apply same_booking_refl].
  - destruct Hkept as [[r1 Hr1] Hrest]. cbn [run fold_left].
    destruct (IH (handle rt rq db) r1 Hr1 Hrest) as (r' & Hr' & Hs).
    exists r'. split; [done|].
    eapply same_booking_trans; [|done].
    by eapply handle_keeps_booking.
Qed.

(** C5. The reservation that [createReservation] answers with 201 is
    stored with [totalPrice] = days * [priceByDay], the product of two
    JavaScript numbers, where [priceByDay] is the price of the car at that
    moment and days is the ceiling of the length of the interval in days
    of 86400000 milliseconds; 100 a day for 3 days gives 300, and a day
    and a millisecond count as two days.  No later request changes the
    total price of a reservation as long as it is stored, a change of the
    car's price included. *)
Theorem totalPrice_is_a_snapshot :
  (∀ now user body db r,
     (createReservation now user body db).1 = mkRes 201 (Json r) ->
     ∃ c startDate endDate car days,
       body = mkBody (Some (Id c)) (Some startDate) (Some endDate) ∧
       cars db !! c = Some car ∧
       (days - 1) * 86400000 < endDate - startDate ∧
       endDate - startDate <= days * 86400000 ∧
       Reservation.totalPrice r =
         set_totalPrice
           (PrimFloat.mul (Number_of_Z days) (Car.priceByDay car)) ∧
       reservations (createReservation now user body db).2
         !! fresh (dom (reservations db)) = Some r) ∧
  (∀ rt rq db k r r',
     reservations db !! k = Some r ->
     reservations (handle rt rq db) !! k = Some r' ->
     Reservation.totalPrice r' = Reservation.totalPrice r) ∧
  (∀ rt rqs db k r,
     reservations db !! k = Some r -> kept rt k rqs db ->
     ∃ r', reservations (run rt rqs db) !! k = Some r' ∧
           Reservation.totalPrice r' = Reservation.totalPrice r) ∧
  (let created :=
     createReservation 0 1 (booking 1 86400000 345600000) (fleet None) in
   Reservation.totalPrice <$> reservations created.2 !! 1%positive
     = Some (Some (Number_of_Z 300)) ∧
   Reservation.totalPrice <$>
     reservations
       (createReservation 0 1 (booking 1 86400000 172800001) (fleet None)).2
       !! 1%positive
     = Some (Some (Number_of_Z 200)) ∧
   ∀ rt,
     let later :=
       run rt [UpdateCar 1 (set_priceByDay (Number_of_Z 250));
               UpdateReservationStatus (Id 1) "confirmed"] created.2 in
     Car.priceByDay <$> cars later !! 1%positive = Some (Number_of_Z 250) ∧
     Reservation.totalPrice <$> reservations later !! 1%positive
       = Some (Some (Number_of_Z 300))).
Proof.
  split.
  { intros now user body db r Hout.
    destruct (createReservation_outcomes now user body db)
      as [([Hs|Hs] & _)|(c & s & e & r1 & Hc & _ & Hp & _ & Hs & Hdb)].
    - rewrite Hout in Hs. done.
    - rewrite Hout in Hs. done.
    - rewrite Hout in Hs. injection Hs as ->. rewrite Hdb.
      apply pre_save_price_fields in Hp as (_ & _ & _ & _ & _ & car & Hcar & Ht).
      simpl in Hcar, Ht.
      destruct (ceil_div_bounds (e - s) ms_per_day) as [Hlo Hhi]; [done|].
      exists c, s, e, car, (ceil_div (e - s) ms_per_day).
      cbn [reservations set_reservations]. rewrite lookup_insert_eq.
      change ms_per_day with 86400000 in Hlo, Hhi. done. }
  split.
  { intros rt rq db k r r' Hr Hr'.
    by destruct (handle_keeps_booking rt rq db k r r' Hr Hr')
      as (_ & _ & _ & _ & ?). }
  split.
  { intros rt rqs db k r Hr Hk.
    destruct (run_keeps_booking rt rqs db k r Hr Hk)
      as (r' & Hr' & (_ & _ & _ & _ & ?)).
    eauto. }
  split; [vm_compute; reflexivity|].
  split; [vm_compute; reflexivity|].
  intros rt. vm_compute. split; reflexivity.
Qed.

(** The product is the one of binary64 numbers: at 9007199254740991
    (2^53 - 1) a day, three days cost 6755399441055743 * 2^2, that is
    27021597764222972 and not 27021597764222973; at 99.99 a day they cost
    5277128047743467 * 2^-44, a little less than 299.97. *)
Lemma totalPrice_is_rounded :
  let priced (p : PrimFloat.float) : DB :=
    set_cars (fleet None) {[ 1%positive := Car.mk 1 p ]} in
  let total (p : PrimFloat.float) : option SpecFloat.spec_float :=
    r ← reservations
           (createReservation 0 1 (booking 1 86400000 345600000) (priced p)).2
           !! 1%positive;
    FloatOps.Prim2SF <$> Reservation.totalPrice r in
  total (Number_of_Z 9007199254740991)
    = Some (SpecFloat.S754_finite false 6755399441055743 2) ∧
  total (PrimFloat.div (Number_of_Z 9999) (Number_of_Z 100))
    = Some (SpecFloat.S754_finite false 5277128047743467 (-44)).
Proof. vm_compute. split; reflexivity. Qed.

(** A product that is no number is not stored: the cast of the path
    refuses [NaN], whatever the number of days. *)
Lemma totalPrice_unset_for_nan :
  let priced (p : PrimFloat.float) : DB :=
    set_cars (fleet None) {[ 1%positive := Car.mk 1 p ]} in
  Reservation.totalPrice <$>
    reservations
      (createReservation 0 1 (booking 1 86400000 345600000)
         (priced PrimFloat.nan)).2 !! 1%positive
  = Some None.
Proof. vm_compute. reflexivity. Qed.

(** ** Phone numbers *)

Lemma phone_number_set_filter (raw : jsstring) :
  phone_number_set raw =
  List.filter (fun c => is_digit c || is_plus c) raw.
Proof.
  unfold phone_number_set.
  induction raw as [|c l IH]; [done|].
  simpl. destruct (is_digit c || is_plus c); simpl; by rewrite IH.
Qed.

Lemma filter_no_plus (l : jsstring) :
  Forall (fun c => is_plus c = false) l ->
  List.filter (fun c => is_digit c || is_plus c) l = List.filter is_digit l.
Proof.
  induction 1 as [|c l Hc _ IH]; [done|].
  simpl. rewrite Hc, orb_false_r, IH. done.
Qed.

(** The character ['+'] is the code unit 43. *)
Lemma is_plus_char (c : code_unit) : is_plus c = true <-> [c] = js "+".
Proof.
  unfold is_plus. rewrite N.eqb_eq. split.
  - by intros ->.
  - by intros [= ->].
Qed.

(** The pattern [^\+\d{7,15}$], spelled out. *)
Lemma phone_number_validator_spec (v : jsstring) :
  phone_number_validator v = true <->
  ∃ digits, v = js "+" ++ digits ∧
            Forall (fun d => is_digit d = true) digits ∧
            (7 <= length digits <= 15)%nat.
Proof.
  unfold phone_number_validator.
  destruct v as [|c digits].
  { split; [done|]. intros (ds & Hd & _). done. }
  rewrite !andb_true_iff, is_plus_char, forallb_forall, !Nat.leb_le.
  split.
  - intros [[[[= ->] Hall] H7] H15]. exists digits. split; [done|].
    split; [|lia]. apply Forall_forall.
    intros x Hx. apply Hall. by apply list_elem_of_In.
  - intros (ds & [= -> <-] & Hall & Hl). repeat split; try lia.
    intros x Hx. rewrite Forall_forall in Hall.
    apply Hall. by apply list_elem_of_In.
Qed.

(** C8 (amended). The setter of [phone_number] removes every character
    except the digits and ['+'], and keeps every ['+'], wherever it
    stands; when no ['+'] stands after the first character of the input
    this is the normalization that keeps a leading ['+'] only.  The
    normalized value is accepted exactly when it matches
    [^\+\d{7,15}$]: a ['+'] followed by 7 to 15 digits and nothing else. *)
Theorem phone_number_normalization (raw : jsstring) :
  phone_number_set raw =
    List.filter (fun c => is_digit c || is_plus c) raw ∧
  (∀ c rest, raw = c :: rest ->
     Forall (fun x => is_plus x = false) rest ->
     phone_number_set raw = spec_phone_normalize raw) ∧
  (∀ v, phone_number_stored raw = Some v <->
     v = phone_number_set raw ∧
     ∃ digits, v = js "+" ++ digits ∧
               Forall (fun d => is_digit d = true) digits ∧
               (7 <= length digits <= 15)%nat).
Proof.
  split; [apply phone_number_set_filter|]. split.
  { intros c rest Hraw Hrest.
    rewrite phone_number_set_filter. unfold spec_phone_normalize.
    rewrite Hraw. simpl.
    rewrite (filter_no_plus rest Hrest), (orb_comm (is_digit c)).
    destruct (is_plus c || is_digit c); done. }
  intros v. unfold phone_number_stored.
  rewrite <- phone_number_validator_spec.
  destruct (phone_number_validator (phone_number_set raw)) eqn:E.
  - split; [intros [= <-]; done|]. intros [-> _]. done.
  - split; [done|]. intros [-> Hv]. congruence.
Qed.

(** Against the claim: a ['+'] that is not leading is kept, so the value
    is refused, where the normalization of the claim would have produced a
    value that the pattern accepts. *)
Lemma phone_inner_plus_is_kept :
  phone_number_set "+1555+1234567" = "+1555+1234567" ∧
  spec_phone_normalize "+1555+1234567" = "+15551234567" ∧
  phone_number_validator (spec_phone_normalize "+1555+1234567") = true ∧
  phone_number_stored "+1555+1234567" = None.
Proof. vm_compute. repeat split; reflexivity. Qed.

(** ** Names *)

Lemma is_word_iff (c : code_unit) :
  is_word c = true <->
  (48 <= c <= 57 ∨ 65 <= c <= 90 ∨ 97 <= c <= 122 ∨ c = 95)%N.
Proof.
  unfold is_word, is_digit, is_upper, is_lower.
  rewrite !orb_true_iff, !andb_true_iff, !N.leb_le, N.eqb_eq. tauto.
Qed.

Lemma is_space_iff (c : code_unit) :
  is_space c = true <->
  (9 <= c <= 13 ∨ c = 32 ∨ c = 160 ∨ c = 5760 ∨ 8192 <= c <= 8202 ∨
   c = 8232 ∨ c = 8233 ∨ c = 8239 ∨ c = 8287 ∨ c = 12288 ∨ c = 65279)%N.
Proof.
  unfold is_space.
  rewrite !orb_true_iff, !andb_true_iff, !N.leb_le, !N.eqb_eq. tauto.
Qed.

Lemma word_not_space (c : code_unit) : is_word c = true -> is_space c = false.
Proof.
  rewrite is_word_iff. intros Hc. apply not_true_is_false.
  rewrite is_space_iff. lia.
Qed.



Lemma span_spec (class : code_unit -> bool) (s tok after : jsstring) :
  span class s = (tok, after) ->
  s = tok ++ after ∧ Forall (fun c => class c = true) tok ∧
  (after = [] ∨ ∃ d r, after = d :: r ∧ class d = false).
Proof.
  revert tok after. induction s as [|c s IH]; intros tok after; simpl.
  - intros [= <- <-]. auto.
  - destruct (class c) eqn:Hc.
    + destruct (span class s) as [t a]. intros [= <- <-].
      destruct (IH t a eq_refl) as (-> & Hall & Hafter). auto.
    + intros [= <- <-]. split; [done|]. split; [constructor|]. eauto.
Qed.

Lemma pieces_cons (c : code_unit) (s : jsstring) :
  pieces (c :: s) =
  match pieces s with
  | (d :: p) :: ps =>
      if eqb (is_space c) (is_space d)
      then (c :: d :: p) :: ps
      else [c] :: (d :: p) :: ps
  | _ => [[c]]
  end.
Proof. reflexivity. Qed.

Lemma pieces_cons_head (c : code_unit) (s : jsstring) :
  ∃ p ps, pieces (c :: s) = (c :: p) :: ps.
Proof.
  rewrite pieces_cons. destruct (pieces s) as [|[|d p] ps]; eauto.
  destruct (eqb (is_space c) (is_space d)); eauto.
Qed.

(** The pieces of a string, one after the other, are the string. *)
Lemma pieces_concat (s : jsstring) : concat (pieces s) = s.
Proof.
  induction s as [|c s IH]; [done|].
  rewrite pieces_cons. destruct s as [|d s]; [done|].
  destruct (pieces_cons_head d s) as (p & ps & Hp). rewrite Hp in *.
  destruct (eqb (is_space c) (is_space d)); simpl in *; by rewrite <- IH.
Qed.

(** A token followed by white space or by nothing is a piece of its own. *)
Lemma pieces_token (tok after : jsstring) :
  tok ≠ [] ->
  Forall (fun c => negb (is_space c) = true) tok ->
  (after = [] ∨ ∃ d r, after = d :: r ∧ negb (is_space d) = false) ->
  pieces (tok ++ after) = tok :: pieces after.
Proof.
  intros Hne Hall Hafter.
  induction Hall as [|c tok Hc Hall IH]; [done|].
  apply negb_true_iff in Hc.
  destruct tok as [|c' tok].
  - cbn [app]. destruct Hafter as [->|(d & r & -> & Hd)]; [done|].
    apply negb_false_iff in Hd.
    destruct (pieces_cons_head d r) as (p & ps & Hp).
    rewrite pieces_cons, Hp, Hc, Hd. done.
  - change ((c :: c' :: tok) ++ after) with (c :: (c' :: tok) ++ after).
    rewrite pieces_cons, IH by done.
    apply Forall_inv in Hall. apply negb_true_iff in Hall.
    rewrite Hc, Hall. done.
Qed.

Section Names.
Context (rt : Runtime).

Lemma capitalize_from_word_nonword (c : code_unit) (tok : jsstring) :
  is_word c = false ->
  capitalize_from_word rt (c :: tok) = c :: capitalize_from_word rt tok.
Proof.
  intros Hc. unfold capitalize_from_word. simpl. rewrite Hc. simpl.
  destruct (span _ tok). done.
Qed.

(** On a token that starts with a word character the setter's call-back
    is title case. *)
Lemma capitalize_from_word_word (c : code_unit) (tok : jsstring) :
  is_word c = true ->
  capitalize_from_word rt (c :: tok) = capitalize rt (c :: tok).
Proof. intros Hc. unfold capitalize_from_word. simpl. by rewrite Hc. Qed.

Lemma tokenwise_cons_nonword (c : code_unit) (s : jsstring) :
  is_word c = false ->
  tokenwise (capitalize_from_word rt) (c :: s) =
  c :: tokenwise (capitalize_from_word rt) s.
Proof.
  intros Hc. unfold tokenwise. destruct s as [|d s].
  - simpl. unfold capitalize_from_word. simpl. by rewrite Hc.
  - destruct (pieces_cons_head d s) as (p & ps & Hp).
    rewrite pieces_cons, Hp.
    destruct (eqb (is_space c) (is_space d)); cbn [map concat];
      rewrite capitalize_from_word_nonword by done; done.
Qed.

Lemma tokenwise_word (c : code_unit) (tail after : jsstring) :
  is_word c = true ->
  Forall (fun x => negb (is_space x) = true) tail ->
  (after = [] ∨ ∃ d r, after = d :: r ∧ negb (is_space d) = false) ->
  tokenwise (capitalize_from_word rt) ((c :: tail) ++ after) =
  capitalize rt (c :: tail) ++ tokenwise (capitalize_from_word rt) after.
Proof.
  intros Hc Htail Hafter. unfold tokenwise.
  rewrite pieces_token; [|done| |done].
  - cbn [map concat]. by rewrite capitalize_from_word_word.
  - constructor; [|done]. by rewrite (word_not_space c Hc).
Qed.

(** The regular-expression replacement, token by token. *)
Lemma replace_words_tokenwise (fuel : nat) (s : jsstring) :
  (length s <= fuel)%nat ->
  replace_words rt fuel s = tokenwise (capitalize_from_word rt) s.
Proof.
  revert s. induction fuel as [|fuel IH]; intros s Hlen.
  - destruct s; [done|]. simpl in Hlen. lia.
  - destruct s as [|c rest]; [done|]. simpl in Hlen. cbn [replace_words].
    destruct (is_word c) eqn:Hc.
    + destruct (span (fun x => negb (is_space x)) rest) as [tail after] eqn:Hs.
      apply span_spec in Hs as (-> & Htail & Hafter).
      rewrite length_app in Hlen. rewrite IH by lia.
      symmetry. by apply (tokenwise_word c tail after).
    + rewrite IH by lia. symmetry. by apply tokenwise_cons_nonword.
Qed.

End Names.

(** [trim] removes white space at both ends and nothing else. *)
Lemma trimStart_spec (s : jsstring) :
  ∃ ws, s = ws ++ trimStart s ∧ Forall (fun c => is_space c = true) ws ∧
        (∀ c t, trimStart s = c :: t -> is_space c = false).
Proof.
  induction s as [|c s (ws & Hs & Hws & Hhead)].
  - exists []. done.
  - simpl. destruct (is_space c) eqn:Hc.
    + exists (c :: ws). split; [by rewrite Hs at 1|]. split; [by constructor|done].
    + exists []. split; [done|]. split; [constructor|].
      intros ? ? [= <- <-]. done.
Qed.

Lemma trim_spec (s : jsstring) :
  ∃ ws1 ws2,
    s = ws1 ++ trim s ++ ws2 ∧
    Forall (fun c => is_space c = true) ws1 ∧
    Forall (fun c => is_space c = true) ws2 ∧
    (∀ c t, trim s = c :: t -> is_space c = false) ∧
    (∀ c t, trim s = t ++ [c] -> is_space c = false).
Proof.
  unfold trim.
  destruct (trimStart_spec s) as (ws1 & Hs & Hws1 & Hhead).
  destruct (trimStart_spec (rev (trimStart s))) as (ws2 & Hr & Hws2 & Hlast).
  set (u := trimStart (rev (trimStart s))) in *.
  assert (Ht : trimStart s = rev u ++ rev ws2).
  { rewrite <- rev_app_distr, <- Hr, rev_involutive. done. }
  exists ws1, (rev ws2).
  split; [by rewrite <- Ht|]. split; [done|].
  split; [by apply Forall_rev|]. split.
  - intros c t Hu. apply (Hhead c (t ++ rev ws2)). rewrite Ht, Hu. done.
  - intros c t Hu. apply (Hlast c (rev t)).
    rewrite <- (rev_involutive u), Hu, rev_app_distr. done.
Qed.

(** *** ASCII strings: every runtime agrees with [ascii_runtime] *)

Lemma forallb_concat {A} (p : A -> bool) (l : list (list A)) :
  forallb p (concat l) = forallb (forallb p) l.
Proof.
  induction l as [|x l IH]; [done|]. simpl. by rewrite forallb_app, IH.
Qed.

Lemma trim_ascii (s : jsstring) :
  forallb is_ascii s = true -> forallb is_ascii (trim s) = true.
Proof.
  destruct (trim_spec s) as (ws1 & ws2 & Hs & _). rewrite Hs at 1.
  rewrite !forallb_app, !andb_true_iff. tauto.
Qed.

Lemma tokenwise_ascii (f g : jsstring -> jsstring) (s : jsstring) :
  (∀ tok, forallb is_ascii tok = true -> f tok = g tok) ->
  forallb is_ascii s = true ->
  tokenwise f s = tokenwise g s.
Proof.
  intros Hfg. unfold tokenwise. rewrite <- (pieces_concat s) at 1.
  rewrite forallb_concat. induction (pieces s) as [|tok l IH]; [done|].
  simpl. rewrite andb_true_iff. intros [Htok Hl].
  by rewrite (Hfg tok Htok), IH.
Qed.

Section AsciiNames.
Context (rt : Runtime).

Lemma capitalize_ascii (txt : jsstring) :
  forallb is_ascii txt = true ->
  capitalize rt txt = capitalize ascii_runtime txt.
Proof.
  destruct txt as [|c rest]; [done|]. simpl.
  rewrite andb_true_iff. intros [Hc Hrest].
  rewrite toUpperCase_ascii, toLowerCase_ascii; [done|done|].
  simpl. by rewrite Hc.
Qed.

Lemma capitalize_from_word_ascii (tok : jsstring) :
  forallb is_ascii tok = true ->
  capitalize_from_word rt tok = capitalize_from_word ascii_runtime tok.
Proof.
  intros Htok. unfold capitalize_from_word.
  destruct (span (fun c => negb (is_word c)) tok) as [before from] eqn:Hs.
  apply span_spec in Hs as (-> & _).
  rewrite forallb_app, andb_true_iff in Htok. destruct Htok as [_ Hfrom].
  by rewrite (capitalize_ascii from Hfrom).
Qed.


(** On an ASCII name the setters give what they give with the case
    mappings of ASCII. *)
Lemma name_set_ascii (raw : jsstring) :
  forallb is_ascii raw = true ->
  name_set rt raw = name_set ascii_runtime raw.
Proof.
  intros Hraw. unfold name_set.
  rewrite !replace_words_tokenwise by done. f_equal.
  apply tokenwise_ascii; [|done]. apply capitalize_from_word_ascii.
Qed.




End AsciiNames.

Lemma City_index_conflicts_nonempty (c : City.doc) (db : DB) :
  City_index_conflicts c db ≠ ∅ <->
  ∃ k x, cities db !! k = Some x ∧ City.stateId x = City.stateId c ∧
         City.name x = City.name c.
Proof.
  unfold City_index_conflicts. split.
  - intros Hne. destruct (map_choose _ Hne) as (k & x & Hkx).
    apply coll_find_lookup in Hkx as [Hk Hp].
    apply andb_true_iff in Hp as [H1 H2].
    apply bool_decide_eq_true in H1, H2. eauto.
  - intros (k & x & Hk & H1 & H2) Hempty.
    rewrite coll_find_empty in Hempty. specialize (Hempty k x Hk).
    rewrite !bool_decide_true in Hempty; done.
Qed.

(** The answers of [createCity] for an existing state and a name that
    passes the validators. *)
Lemma createCity_cases (rt : Runtime) (name : jsstring) (stateId : ObjectId)
    (db : DB) :
  is_Some (states db !! stateId) ->
  City_name_validator (name_set rt name) = [] ->
  let city := City.mk (name_set rt name) stateId in
  let out := createCity rt name stateId db in
  (City_index_conflicts city db ≠ ∅ ∧ res_status out.1 = 409 ∧ out.2 = db) ∨
  (City_index_conflicts city db = ∅ ∧ out.1 = mkRes 201 (Json city) ∧
   out.2 = set_cities db (<[fresh (dom (cities db)) := city]> (cities db))).
Proof.
  intros Hst Hname. unfold createCity, City_save. cbn [City.stateId City.name].
  rewrite Hname, (bool_decide_true _ Hst). cbn [negb app].
  case_bool_decide as Hc; [right|left]; done.
Qed.



(** * Further properties of the models and controllers *)

(** ** Document and bulk deletes *)

Lemma not_found_iff {D : Type} (p : ObjectId -> D -> bool)
    (c : gmap ObjectId D) (k : ObjectId) :
  id_in k (coll_find p c) = false <->
  ¬ ∃ d, c !! k = Some d ∧ p k d = true.
Proof.
  rewrite <- not_true_iff_false, id_in_true. apply not_iff_compat. split.
  - intros [d Hd]. apply coll_find_lookup in Hd. eauto.
  - intros (d & Hk & Hp). exists d. by apply coll_find_lookup.
Qed.

(** What [Car.deleteMany] leaves, exactly. *)
Lemma Car_deleteMany_iff (p : ObjectId -> Car.doc -> bool) (db : DB) :
  let db' := Car_deleteMany p db in
  (∀ k c, cars db' !! k = Some c <-> cars db !! k = Some c ∧ p k c = false) ∧
  (∀ k r, reservations db' !! k = Some r <->
     reservations db !! k = Some r ∧
     ¬ ∃ c, cars db !! Reservation.carId r = Some c ∧
            p (Reservation.carId r) c = true) ∧
  locations db' = locations db ∧ cities db' = cities db ∧
  states db' = states db ∧ users db' = users db.
Proof.
  unfold Car_deleteMany, Reservation_deleteMany.
  cbn [cars reservations locations cities states users set_cars
       set_reservations].
  split; [intros k c; apply coll_deleteMany_lookup|].
  split; [|done].
  intros k r. rewrite coll_deleteMany_lookup, not_found_iff. done.
Qed.

(** X1. [Car.deleteMany(filter)] removes exactly the cars that match the
    filter and exactly the reservations whose [carId] is one of them: a
    reservation of another car, or of a car that is not stored, stays;
    states, cities, locations and users are not touched. *)
Theorem Car_deleteMany_exact (p : ObjectId -> Car.doc -> bool) (db : DB) :
  let db' := Car_deleteMany p db in
  (∀ k c, cars db' !! k = Some c <-> cars db !! k = Some c ∧ p k c = false) ∧
  (∀ k r, reservations db' !! k = Some r <->
     reservations db !! k = Some r ∧
     ¬ ∃ c, cars db !! Reservation.carId r = Some c ∧
            p (Reservation.carId r) c = true) ∧
  locations db' = locations db ∧ cities db' = cities db ∧
  states db' = states db ∧ users db' = users db.
Proof. exact (Car_deleteMany_iff p db). Qed.

(** X2. [car.deleteOne()] on a loaded car removes the car and exactly the
    reservations that refer to it; every other car and reservation
    stays. *)
Theorem Car_document_deleteOne_exact (i : ObjectId) (db : DB) :
  let db' := Car_document_deleteOne i db in
  cars db' !! i = None ∧
  (∀ k, k ≠ i -> cars db' !! k = cars db !! k) ∧
  (∀ k r, reservations db' !! k = Some r <->
     reservations db !! k = Some r ∧ Reservation.carId r ≠ i).
Proof.
  unfold Car_document_deleteOne, Reservation_deleteMany.
  cbn [cars reservations set_cars set_reservations].
  split; [apply lookup_delete_eq|].
  split; [intros k Hk; by apply lookup_delete_ne|].
  intros k r. rewrite coll_deleteMany_lookup, bool_decide_eq_false. done.
Qed.

(** What [Location.deleteMany] leaves, exactly. *)
Lemma Location_deleteMany_exact (q : conditions Location.doc) (db : DB) :
  let db' := Location_deleteMany q db in
  let gone k l := matches (pre_find no_options q) k l = true in
  (∀ k l, locations db' !! k = Some l <->
     locations db !! k = Some l ∧ matches q k l = false) ∧
  (∀ k c, cars db' !! k = Some c <->
     cars db !! k = Some c ∧
     ¬ ∃ l, locations db !! Car.locationId c = Some l ∧
            gone (Car.locationId c) l) ∧
  (∀ k r, reservations db' !! k = Some r <->
     reservations db !! k = Some r ∧
     ¬ ∃ c l, cars db !! Reservation.carId r = Some c ∧
              locations db !! Car.locationId c = Some l ∧
              gone (Car.locationId c) l) ∧
  cities db' = cities db ∧ states db' = states db ∧ users db' = users db.
Proof.
  unfold Location_deleteMany.
  set (found := model_find no_options q (locations db)).
  destruct (Car_deleteMany_iff
              (fun _ c => id_in (Car.locationId c) found) db)
    as (Hcars & Hres & Hloc & Hcit & Hst & Hus).
  assert (Hfound : ∀ c, id_in (Car.locationId c) found = true <->
            ∃ l, locations db !! Car.locationId c = Some l ∧
                 matches (pre_find no_options q) (Car.locationId c) l = true).
  { intros c. unfold found, model_find. rewrite id_in_true. split.
    - intros [l Hl]. apply coll_find_lookup in Hl. eauto.
    - intros (l & Hl & Hm). exists l. by apply coll_find_lookup. }
  cbn [cars reservations locations cities states users set_locations].
  split.
  { intros k l. unfold model_deleteMany_write.
    rewrite coll_deleteMany_lookup, Hloc. done. }
  split.
  { intros k c. rewrite Hcars, <- Hfound, not_true_iff_false. done. }
  split; [|done].
  intros k r. rewrite Hres. apply and_iff_compat_l, not_iff_compat. split.
  - intros (c & Hc & Hin). apply Hfound in Hin as (l & Hl & Hm). eauto.
  - intros (c & l & Hc & Hl & Hm). exists c. split; [done|].
    apply Hfound. eauto.
Qed.

(** X3. [location.deleteOne()] on a loaded location cascades whether the
    location is soft-deleted or not: the location goes, a car stays
    exactly when it is at another location, a reservation stays exactly
    when its car is not a stored car of this location; the other
    locations are untouched. *)
Theorem Location_document_deleteOne_exact (i : ObjectId) (db : DB) :
  let db' := Location_document_deleteOne i db in
  locations db' !! i = None ∧
  (∀ k, k ≠ i -> locations db' !! k = locations db !! k) ∧
  (∀ k c, cars db' !! k = Some c <->
     cars db !! k = Some c ∧ Car.locationId c ≠ i) ∧
  (∀ k r, reservations db' !! k = Some r <->
     reservations db !! k = Some r ∧
     ¬ ∃ c, cars db !! Reservation.carId r = Some c ∧ Car.locationId c = i).
Proof.
  unfold Location_document_deleteOne.
  destruct (Car_deleteMany_iff
              (fun _ c => bool_decide (Car.locationId c = i)) db)
    as (Hcars & Hres & Hloc & _).
  cbn [cars reservations locations set_locations].
  split; [apply lookup_delete_eq|].
  split; [intros k Hk; rewrite lookup_delete_ne, Hloc; done|].
  split.
  { intros k c. rewrite Hcars, bool_decide_eq_false. done. }
  intros k r. rewrite Hres. apply and_iff_compat_l, not_iff_compat.
  split; intros (c & Hc & Hi); exists c; split; try done.
  - by apply bool_decide_eq_true in Hi.
  - by apply bool_decide_eq_true.
Qed.

(** X4. [city.deleteOne()] on a loaded city removes the city and every
    location of the city, soft-deleted ones included; of the cars, it
    removes those at a live location of the city and leaves those at a
    soft-deleted location of the city, like those elsewhere; a
    reservation goes exactly when its car is one of the removed cars. *)
Theorem City_document_deleteOne_exact (i : ObjectId) (db : DB) :
  let db' := City_document_deleteOne i db in
  let live_here (l : Location.doc) :=
    Location.cityId l = i ∧ Location.deleted l = None in
  cities db' !! i = None ∧
  (∀ k, k ≠ i -> cities db' !! k = cities db !! k) ∧
  (∀ k l, locations db' !! k = Some l <->
     locations db !! k = Some l ∧ Location.cityId l ≠ i) ∧
  (∀ k c, cars db' !! k = Some c <->
     cars db !! k = Some c ∧
     ¬ ∃ l, locations db !! Car.locationId c = Some l ∧ live_here l) ∧
  (∀ k r, reservations db' !! k = Some r <->
     reservations db !! k = Some r ∧
     ¬ ∃ c l, cars db !! Reservation.carId r = Some c ∧
              locations db !! Car.locationId c = Some l ∧ live_here l).
Proof.
  unfold City_document_deleteOne.
  set (q := mkConds None _).
  destruct (Location_deleteMany_exact q db)
    as (Hloc & Hcars & Hres & Hcit & _).
  assert (Hgone : ∀ k l, matches (pre_find no_options q) k l = true <->
            Location.cityId l = i ∧ Location.deleted l = None).
  { intros k l. unfold matches, pre_find, q, deleted_of, Location_soft.
    simpl. rewrite andb_true_iff, bool_decide_eq_true.
    destruct (Location.deleted l); simpl; intuition congruence. }
  assert (Hq : ∀ k l, matches q k l = false <-> Location.cityId l ≠ i).
  { intros k l. unfold matches, q. simpl.
    rewrite andb_true_r, bool_decide_eq_false. done. }
  cbn [cars reservations locations cities set_cities].
  split; [apply lookup_delete_eq|].
  split; [intros k Hk; rewrite lookup_delete_ne, Hcit; done|].
  split; [intros k l; rewrite Hloc, Hq; done|].
  split.
  { intros k c. rewrite Hcars. apply and_iff_compat_l, not_iff_compat.
    split; intros (l & Hl & Hg); exists l.
    - apply (proj1 (Hgone _ l)) in Hg. done.
    - apply (proj2 (Hgone (Car.locationId c) l)) in Hg. done. }
  intros k r. rewrite Hres. apply and_iff_compat_l, not_iff_compat.
  split; intros (c & l & Hc & Hl & Hg); exists c, l.
  - apply (proj1 (Hgone _ l)) in Hg. done.
  - apply (proj2 (Hgone (Car.locationId c) l)) in Hg. done.
Qed.

(** What [City.deleteMany] leaves, exactly. *)
Lemma City_deleteMany_exact (p : ObjectId -> City.doc -> bool) (db : DB) :
  let db' := City_deleteMany p db in
  let city_gone (l : Location.doc) :=
    ∃ ci, cities db !! Location.cityId l = Some ci ∧
          p (Location.cityId l) ci = true in
  (∀ k c, cities db' !! k = Some c <-> cities db !! k = Some c ∧ p k c = false) ∧
  (∀ k l, locations db' !! k = Some l <->
     locations db !! k = Some l ∧ ¬ city_gone l) ∧
  (∀ k c, cars db' !! k = Some c <->
     cars db !! k = Some c ∧
     ¬ ∃ l, locations db !! Car.locationId c = Some l ∧
            city_gone l ∧ Location.deleted l = None) ∧
  (∀ k r, reservations db' !! k = Some r <->
     reservations db !! k = Some r ∧
     ¬ ∃ c l, cars db !! Reservation.carId r = Some c ∧
              locations db !! Car.locationId c = Some l ∧
              city_gone l ∧ Location.deleted l = None) ∧
  states db' = states db ∧ users db' = users db.
Proof.
  unfold City_deleteMany.
  set (q := mkConds None _).
  destruct (Location_deleteMany_exact q db)
    as (Hloc & Hcars & Hres & Hcit & Hst & Hus).
  assert (Hin : ∀ l, id_in (Location.cityId l) (coll_find p (cities db)) = true
            <-> ∃ ci, cities db !! Location.cityId l = Some ci ∧
                      p (Location.cityId l) ci = true).
  { intros l. rewrite id_in_true. split.
    - intros [ci Hci]. apply coll_find_lookup in Hci. eauto.
    - intros (ci & Hci & Hp). exists ci. by apply coll_find_lookup. }
  assert (Hq : ∀ k l, matches q k l = false <->
            ¬ ∃ ci, cities db !! Location.cityId l = Some ci ∧
                    p (Location.cityId l) ci = true).
  { intros k l. unfold matches, q. simpl.
    rewrite andb_true_r, <- Hin, not_true_iff_false. done. }
  assert (Hgone : ∀ k l, matches (pre_find no_options q) k l = true <->
            (∃ ci, cities db !! Location.cityId l = Some ci ∧
                   p (Location.cityId l) ci = true) ∧
            Location.deleted l = None).
  { intros k l. unfold matches, pre_find, q, deleted_of, Location_soft.
    simpl. rewrite andb_true_iff, Hin.
    destruct (Location.deleted l); simpl; intuition congruence. }
  cbn [cars reservations locations cities states users set_cities].
  split; [intros k c; rewrite coll_deleteMany_lookup, Hcit; done|].
  split; [intros k l; rewrite Hloc, Hq; done|].
  split.
  { intros k c. rewrite Hcars. apply and_iff_compat_l, not_iff_compat.
    split; intros (l & Hl & Hg); exists l.
    - apply (proj1 (Hgone _ l)) in Hg. done.
    - split; [done|]. apply (Hgone (Car.locationId c) l). done. }
  split; [|done].
  intros k r. rewrite Hres. apply and_iff_compat_l, not_iff_compat.
  split; intros (c & l & Hc & Hl & Hg); exists c, l.
  - apply (proj1 (Hgone _ l)) in Hg. done.
  - split; [done|]. split; [done|]. apply (Hgone (Car.locationId c) l). done.
Qed.

(** X5. [State.deleteMany(filter)] removes exactly the states that match
    the filter, exactly the cities of those states, and exactly the
    locations of those cities, soft-deleted ones included; users are not
    touched.  A state, city or location outside the filter's subtree is
    never removed. *)
Theorem State_deleteMany_exact (p : ObjectId -> State.doc -> bool) (db : DB) :
  let db' := State_deleteMany p db in
  let state_gone (c : City.doc) :=
    ∃ s, states db !! City.stateId c = Some s ∧ p (City.stateId c) s = true in
  (∀ k s, states db' !! k = Some s <-> states db !! k = Some s ∧ p k s = false) ∧
  (∀ k c, cities db' !! k = Some c <-> cities db !! k = Some c ∧ ¬ state_gone c) ∧
  (∀ k l, locations db' !! k = Some l <->
     locations db !! k = Some l ∧
     ¬ ∃ c, cities db !! Location.cityId l = Some c ∧ state_gone c) ∧
  users db' = users db.
Proof.
  unfold State_deleteMany.
  set (pc := fun (_ : ObjectId) c => id_in (City.stateId c) _).
  destruct (City_deleteMany_exact pc db) as (Hcit & Hloc & _ & _ & Hst & Hus).
  assert (Hpc : ∀ k c, pc k c = true <->
            ∃ s, states db !! City.stateId c = Some s ∧
                 p (City.stateId c) s = true).
  { intros k c. unfold pc. rewrite id_in_true. split.
    - intros [s Hs]. apply coll_find_lookup in Hs. eauto.
    - intros (s & Hs & Hp). exists s. by apply coll_find_lookup. }
  cbn [states cities locations users set_states].
  split; [intros k s; rewrite coll_deleteMany_lookup, Hst; done|].
  split.
  { intros k c. rewrite Hcit, <- Hpc, not_true_iff_false. done. }
  split; [|done].
  intros k l. rewrite Hloc. apply and_iff_compat_l, not_iff_compat.
  split; intros (c & Hc & Hg); exists c; (split; [done|]).
  - by apply (Hpc (Location.cityId l) c).
  - by apply (Hpc (Location.cityId l) c).
Qed.

(** X6. [user.deleteOne()] on a loaded user removes the user and every
    location the user owns, soft-deleted ones included; of the cars, those
    at a live location of the user go and those at a soft-deleted location
    of the user stay; cities and states are not touched. *)
Theorem User_document_deleteOne_exact (i : ObjectId) (db : DB) :
  let db' := User_document_deleteOne i db in
  users db' !! i = None ∧
  (∀ k, k ≠ i -> users db' !! k = users db !! k) ∧
  (∀ k l, locations db' !! k = Some l <->
     locations db !! k = Some l ∧ Location.userId l ≠ i) ∧
  (∀ k c, cars db' !! k = Some c <->
     cars db !! k = Some c ∧
     ¬ ∃ l, locations db !! Car.locationId c = Some l ∧
            Location.userId l = i ∧ Location.deleted l = None) ∧
  cities db' = cities db ∧ states db' = states db.
Proof.
  unfold User_document_deleteOne.
  set (q := mkConds None _).
  destruct (Location_deleteMany_exact q db)
    as (Hloc & Hcars & _ & Hcit & Hst & Hus).
  assert (Hgone : ∀ k l, matches (pre_find no_options q) k l = true <->
            Location.userId l = i ∧ Location.deleted l = None).
  { intros k l. unfold matches, pre_find, q, deleted_of, Location_soft.
    simpl. rewrite andb_true_iff, bool_decide_eq_true.
    destruct (Location.deleted l); simpl; intuition congruence. }
  assert (Hq : ∀ k l, matches q k l = false <-> Location.userId l ≠ i).
  { intros k l. unfold matches, q. simpl.
    rewrite andb_true_r, bool_decide_eq_false. done. }
  cbn [cars locations cities states users set_users].
  split; [apply lookup_delete_eq|].
  split; [intros k Hk; rewrite lookup_delete_ne, Hus; done|].
  split; [intros k l; rewrite Hloc, Hq; done|].
  split; [|done].
  intros k c. rewrite Hcars. apply and_iff_compat_l, not_iff_compat.
  split; intros (l & Hl & Hg); exists l.
  - apply (proj1 (Hgone _ l)) in Hg. done.
  - apply (proj2 (Hgone (Car.locationId c) l)) in Hg. done.
Qed.

(** ** Delete controllers *)

(** X7. [deleteState] answers 204 for a stored state and 500 ("Failed to
    delete state") for an id that is not stored, because the hook throws
    'Document not found' before the controller can test the result; then
    nothing is changed.  The controller's 404 answer is never given. *)
Theorem deleteState_missing_is_500 (i : ObjectId) (db : DB) :
  (is_Some (states db !! i) -> res_status (deleteState i db).1 = 204) ∧
  (states db !! i = None ->
     deleteState i db = (mkRes 500 (ErrorJson "Failed to delete state"), db)) ∧
  res_status (deleteState i db).1 ≠ 404.
Proof.
  unfold deleteState, State_findByIdAndDelete.
  destruct (states db !! i) as [s|] eqn:Hs.
  - set (p := fun (_ : ObjectId) c => bool_decide (City.stateId c = i)).
    destruct (City_deleteMany_spec p db) as (_ & _ & _ & _ & Hst & _).
    rewrite Hst, Hs. simpl. split; [done|]. split; done.
  - split; [by intros [? ?]|]. split; done.
Qed.

(** X8. For a stored state [deleteState] removes exactly: the state; the
    cities of the state; the locations of those cities, soft-deleted or
    not; the cars at the live ones among these locations; the
    reservations of these cars.  Every other state, city, location, car
    and reservation, and every user, stays as it is. *)
Theorem deleteState_removes_exactly (i : ObjectId) (db : DB) (s : State.doc) :
  states db !! i = Some s ->
  let db' := (deleteState i db).2 in
  let under (l : Location.doc) :=
    ∃ ci, cities db !! Location.cityId l = Some ci ∧ City.stateId ci = i in
  states db' = delete i (states db) ∧
  users db' = users db ∧
  (∀ k c, cities db' !! k = Some c <->
     cities db !! k = Some c ∧ City.stateId c ≠ i) ∧
  (∀ k l, locations db' !! k = Some l <->
     locations db !! k = Some l ∧ ¬ under l) ∧
  (∀ k c, cars db' !! k = Some c <->
     cars db !! k = Some c ∧
     ¬ ∃ l, locations db !! Car.locationId c = Some l ∧
            under l ∧ Location.deleted l = None) ∧
  (∀ k r, reservations db' !! k = Some r <->
     reservations db !! k = Some r ∧
     ¬ ∃ c l, cars db !! Reservation.carId r = Some c ∧
              locations db !! Car.locationId c = Some l ∧
              under l ∧ Location.deleted l = None).
Proof.
  intros Hs. unfold deleteState, State_findByIdAndDelete. rewrite Hs.
  set (p := fun (_ : ObjectId) c => bool_decide (City.stateId c = i)).
  destruct (City_deleteMany_exact p db)
    as (Hcit & Hloc & Hcars & Hres & Hst & Hus).
  rewrite Hst, Hs.
  cbn [snd states cities locations cars reservations users set_states].
  assert (Hp : ∀ k c, p k c = true <-> City.stateId c = i).
  { intros k c. unfold p. apply bool_decide_eq_true. }
  assert (Hunder : ∀ l,
            (∃ ci, cities db !! Location.cityId l = Some ci ∧
                   p (Location.cityId l) ci = true) <->
            (∃ ci, cities db !! Location.cityId l = Some ci ∧
                   City.stateId ci = i)).
  { intros l. split; intros (ci & Hci & Hx); exists ci; split; try done;
      by apply (Hp (Location.cityId l) ci). }
  split; [done|]. split; [done|].
  split.
  { intros k c. rewrite Hcit. unfold p. by rewrite bool_decide_eq_false. }
  split.
  { intros k l. rewrite Hloc, Hunder. done. }
  split.
  { intros k c. rewrite Hcars. apply and_iff_compat_l, not_iff_compat.
    split; intros (l & Hl & Hu & Hd); exists l; (split; [done|]);
      (split; [by apply Hunder|done]). }
  intros k r. rewrite Hres. apply and_iff_compat_l, not_iff_compat.
  split; intros (c & l & Hc & Hl & Hu & Hd); exists c, l;
    (split; [done|]); (split; [done|]); (split; [by apply Hunder|done]).
Qed.

Lemma deleteState_removes_exactly_witness :
  let db' := (deleteState 1 (booked None (three_days "pending"))).2 in
  states db' = delete 1%positive (states (booked None (three_days "pending"))) ∧
  users db' = users (booked None (three_days "pending")).
Proof.
  destruct (deleteState_removes_exactly 1 (booked None (three_days "pending"))
              (State.mk "California") eq_refl) as (Hst & Hus & _).
  split; [exact Hst|exact Hus].
Defined.

(** X9. [deleteCity] and [deleteCar] answer 204 for a stored id and remove
    that one record, and 404 for any other id; in both cases every other
    record of every collection stays: the locations of the city and the
    reservations of the car are not removed. *)
Theorem deleteCity_deleteCar_remove_one_record (i : ObjectId) (db : DB) :
  (let out := deleteCity i db in
   res_status out.1 =
     match cities db !! i with Some _ => 204 | None => 404 end ∧
   cities out.2 = delete i (cities db) ∧
   locations out.2 = locations db ∧ cars out.2 = cars db ∧
   reservations out.2 = reservations db ∧ states out.2 = states db ∧
   users out.2 = users db) ∧
  (let out := deleteCar i db in
   res_status out.1 =
     match cars db !! i with Some _ => 204 | None => 404 end ∧
   cars out.2 = delete i (cars db) ∧
   reservations out.2 = reservations db ∧ locations out.2 = locations db ∧
   cities out.2 = cities db ∧ states out.2 = states db ∧
   users out.2 = users db).
Proof.
  split.
  - unfold deleteCity, City_findByIdAndDelete.
    destruct (cities db !! i) as [c|] eqn:Hc; simpl; repeat split; try done.
    by rewrite delete_id.
  - unfold deleteCar, Car_findByIdAndDelete.
    destruct (cars db !! i) as [c|] eqn:Hc; simpl; repeat split; try done.
    by rewrite delete_id.
Qed.

(** ** Soft-deleted locations and users *)

(** X10. Once [softDeleteLocation] has been asked for a location, the
    controllers no longer reach it: a second soft delete answers 404 and
    keeps the first deletion date, the hard delete [deleteLocation]
    answers 404 and removes nothing, and the lookup by id answers 404.
    The soft delete itself touches no car, no reservation and no other
    location. *)
Theorem softDeleteLocation_is_final (now1 now2 : Date) (i : ObjectId)
    (db : DB) :
  let db1 := (softDeleteLocation now1 i db).2 in
  softDeleteLocation now2 i db1 =
    (mkRes 404 (ErrorJson "Location not found"), db1) ∧
  deleteLocation i db1 = (mkRes 404 (ErrorJson "Location not found"), db1) ∧
  getLocationById i db1 = mkRes 404 (ErrorJson "Location not found") ∧
  cars db1 = cars db ∧ reservations db1 = reservations db ∧
  (∀ k, k ≠ i -> locations db1 !! k = locations db !! k).
Proof.
  intros db1.
  assert (Hhidden : model_findById no_options i (locations db1) = None).
  { unfold db1, softDeleteLocation.
    destruct (model_findById no_options i (locations db)) as [l|] eqn:Hl;
      [|done].
    cbn [snd locations set_locations].
    destruct (model_findById _ _ (<[_:=_]> _)) as [x|] eqn:E; [|done].
    apply findById_lookup in E as (Hx & [Ho|Hn]); [done|].
    rewrite lookup_insert_eq in Hx. injection Hx as <-. done. }
  unfold softDeleteLocation at 1. unfold deleteLocation,
    Location_findByIdAndDelete, getLocationById. rewrite Hhidden.
  repeat split; try done; unfold db1, softDeleteLocation;
    destruct (model_findById no_options i (locations db)); try done.
  intros k Hk. cbn [snd locations set_locations]. by rewrite lookup_insert_ne.
Qed.

(** The three lists of a soft-deletable collection: what the [deleted]
    parameter of the list controllers selects. *)
Lemma deleted_parameter_lists {D : Type} `{SoftDeletable D}
    (rest : ObjectId -> D -> bool) (c : gmap ObjectId D)
    (k : ObjectId) (d : D) :
  (model_find (mkOpts true) (mkConds (Some DeletedNeNull) rest) c !! k = Some d
     <-> c !! k = Some d ∧ rest k d = true ∧ deleted_of d ≠ None) ∧
  (model_find (mkOpts false) (mkConds (Some DeletedNull) rest) c !! k = Some d
     <-> c !! k = Some d ∧ rest k d = true ∧ deleted_of d = None) ∧
  (model_find (mkOpts false) (mkConds None rest) c !! k = Some d
     <-> c !! k = Some d ∧ rest k d = true ∧ deleted_of d = None).
Proof.
  rewrite !find_explicit, find_default.
  destruct (deleted_of d); simpl; intuition congruence.
Qed.

(** X11. The list controllers [getLocations] and [getUsers] split the
    collection by the [deleted] parameter: [?deleted=true] lists exactly
    the soft-deleted documents that meet the other conditions,
    [?deleted=false] exactly the live ones, and without the parameter the
    list is the one of [?deleted=false]; so every stored document that
    meets the other conditions is in exactly one of the two lists, and no
    list shows a document that is not stored. *)
Theorem list_controllers_split_by_deleted (db : DB) :
  (∀ rest k l,
     (getLocations (Some true) rest db !! k = Some l <->
        locations db !! k = Some l ∧ rest k l = true ∧
        Location.deleted l ≠ None) ∧
     (getLocations (Some false) rest db !! k = Some l <->
        locations db !! k = Some l ∧ rest k l = true ∧
        Location.deleted l = None) ∧
     getLocations None rest db = getLocations (Some false) rest db) ∧
  (∀ k u,
     (getUsers (Some true) db !! k = Some u <->
        users db !! k = Some u ∧ User.deleted u ≠ None) ∧
     (getUsers (Some false) db !! k = Some u <->
        users db !! k = Some u ∧ User.deleted u = None) ∧
     getUsers None db = getUsers (Some false) db).
Proof.
  split.
  - intros rest k l.
    destruct (deleted_parameter_lists rest (locations db) k l) as (Ht & Hf & _).
    split; [exact Ht|]. split; [exact Hf|].
    apply map_eq. intros j. apply option_eq. intros x.
    destruct (deleted_parameter_lists rest (locations db) j x) as (_ & H1 & H2).
    unfold getLocations. simpl. rewrite H1. exact H2.
  - intros k u.
    destruct (deleted_parameter_lists (fun _ _ => true) (users db) k u)
      as (Ht & Hf & _).
    split; [unfold getUsers; simpl; rewrite Ht; tauto|].
    split; [unfold getUsers; simpl; rewrite Hf; tauto|].
    apply map_eq. intros j. apply option_eq. intros x.
    destruct (deleted_parameter_lists (fun _ _ => true) (users db) j x)
      as (_ & H1 & H2).
    unfold getUsers. simpl. rewrite H1. exact H2.
Qed.

(** X12. [protect] lets a request through exactly when the token decodes
    to the id of a stored user who is not soft-deleted, and hands that
    user on; otherwise the answer is 401, and [POST /reservations] then
    stores nothing.  A soft-deleted user is also out of reach of
    [deleteUser], which answers 404 and removes nothing. *)
Theorem protect_admits_live_users_only (decoded : option ObjectId) (db : DB) :
  (∀ i u, protect decoded db = inr (i, u) <->
     decoded = Some i ∧ users db !! i = Some u ∧ User.deleted u = None) ∧
  (∀ res, protect decoded db = inl res ->
     res_status res = 401 ∧
     ∀ now body, postReservation now decoded body db = (inl res, db)) ∧
  (∀ i u, users db !! i = Some u -> User.deleted u ≠ None ->
     protect (Some i) db = inl (mkRes 401 (ErrorJson "Authentication failed")) ∧
     deleteUser i db = (mkRes 404 (ErrorJson "User not found"), db)).
Proof.
  assert (Hfind : ∀ i u, model_findById no_options i (users db) = Some u <->
            users db !! i = Some u ∧ User.deleted u = None).
  { intros i u. rewrite findById_lookup. simpl.
    unfold deleted_of, User_soft. intuition congruence. }
  split.
  { intros i u. unfold protect. destruct decoded as [j|].
    - destruct (model_findById no_options j (users db)) as [x|] eqn:E.
      + apply Hfind in E as [Hx Hd]. split.
        * intros [= -> ->]. done.
        * intros ([= ->] & Hu & _). congruence.
      + split; [done|]. intros ([= ->] & Hu & Hd).
        rewrite (proj2 (Hfind i u)) in E; done.
    - split; [done|]. intros [? _]. done. }
  split.
  { intros res Hres. split.
    - unfold protect in Hres. destruct decoded as [j|].
      + destruct (model_findById no_options j (users db)); [done|].
        by injection Hres as <-.
      + by injection Hres as <-.
    - intros now body. unfold postReservation. by rewrite Hres. }
  intros i u Hu Hd.
  assert (Hnone : model_findById no_options i (users db) = None).
  { destruct (model_findById no_options i (users db)) as [x|] eqn:E; [|done].
    apply Hfind in E as [Hx Hn]. congruence. }
  unfold protect, deleteUser, User_findByIdAndDelete. rewrite Hnone. done.
Qed.

(** ** Creating and listing reservations *)

Lemma user_findById (i : ObjectId) (db : DB) :
  is_Some (model_findById no_options i (users db)) <->
  ∃ u, users db !! i = Some u ∧ User.deleted u = None.
Proof.
  split.
  - intros [u Hu]. apply findById_lookup in Hu as (Hu & [Ho|Hd]); [done|].
    eauto.
  - intros (u & Hu & Hd). exists u. apply findById_lookup. auto.
Qed.

(** X13. [createReservation] answers 400 exactly when validation fails
    and the message of the error does not read "already reserved".
    Validation fails when the [carId] is absent, is no ObjectId or is the
    id of no stored car, when a date is no valid date, when the user is
    not stored or is soft-deleted, when the start is not after the current
    time, or when the end is not after the start; the message reads
    "already reserved" only when the [carId] is no ObjectId and its cast
    error, which quotes the value, does.  The only answers are 201, 400
    and 409, and only 201 changes the database. *)
Theorem createReservation_validation (now : Date) (user : ObjectId)
    (body : ReservationBody) (db : DB) :
  let out := createReservation now user body db in
  (res_status out.1 = 400 <->
     ¬ (∃ c s e, body = mkBody (Some (Id c)) (Some s) (Some e) ∧
          is_Some (cars db !! c) ∧
          (∃ u, users db !! user = Some u ∧ User.deleted u = None) ∧
          now < s ∧ s < e) ∧
     ¬ (∃ msg, body_carId body = Some (NotAnId msg) ∧
               includes "already reserved" msg = true)) ∧
  (res_status out.1 = 201 ∨ res_status out.1 = 400 ∨ res_status out.1 = 409) ∧
  (res_status out.1 ≠ 201 -> out.2 = db).
Proof.
  intros out.
  assert (Hv : ∀ c s e,
            Reservation_validators now db (new_reservation c user s e) = [] <->
            is_Some (cars db !! c) ∧
            (∃ u, users db !! user = Some u ∧ User.deleted u = None) ∧
            now < s ∧ s < e).
  { intros c s e. rewrite validators_pass, user_findById. simpl.
    assert (js "pending" ∈ status_enum) by (unfold status_enum; set_solver).
    tauto. }
  destruct (createReservation_cases now user body db)
    as [(c & s & e & Hc & Hne & Hs & Hdb)
       |[(c & s & e & r1 & Hc & He & _ & [(_ & Hs & Hdb)|(_ & Hs & Hdb)])
        |(Hc & Hs & Hdb)]];
    fold out in Hs, Hdb; rewrite Hs.
  - subst body. split; [|split; [auto|done]].
    split; [|done]. intros _. split.
    + intros (c' & s' & e' & [= <- <- <-] & Hrest). by apply Hne, Hv.
    + intros (msg & ? & _). done.
  - subst body. split; [|split; [auto|done]].
    split; [done|]. intros [Hn _]. destruct Hn.
    exists c, s, e. split; [done|]. by apply Hv.
  - subst body. simpl. split; [|split; [auto|done]].
    split; [done|]. intros [Hn _]. destruct Hn.
    exists c, s, e. split; [done|]. by apply Hv.
  - destruct (body_carId body) as [[c|msg]|] eqn:Hcar.
    + split; [|split; [auto|done]].
      split; [|done]. intros _. split.
      * intros (c' & s' & e' & Hb & _). by apply (Hc c' s' e').
      * intros (msg & ? & _). done.
    + destruct (includes "already reserved" msg) eqn:Hm.
      * split; [|split; [auto|done]].
        split; [done|]. intros [_ Hn]. destruct Hn. by exists msg.
      * split; [|split; [auto|done]].
        split; [|done]. intros _. split.
        -- intros (c' & s' & e' & Hb & _). by apply (Hc c' s' e').
        -- intros (msg' & [= <-] & Hm'). congruence.
    + split; [|split; [auto|done]].
      split; [|done]. intros _. split.
      * intros (c' & s' & e' & Hb & _). by apply (Hc c' s' e').
      * intros (msg & ? & _). done.
Qed.

(** X14. When [createReservation] answers 201, the answer is the stored
    document: it is inserted under an id that was free, for the
    authenticated user and the requested car and dates, with status
    "pending"; every reservation stored before is unchanged and so is
    every other collection. *)
Theorem createReservation_inserts_one (now : Date) (user : ObjectId)
    (body : ReservationBody) (db : DB) (r : Reservation.doc) :
  (createReservation now user body db).1 = mkRes 201 (Json r) ->
  let db' := (createReservation now user body db).2 in
  let i := fresh (dom (reservations db)) in
  reservations db !! i = None ∧
  reservations db' = <[i := r]> (reservations db) ∧
  body = mkBody (Some (Id (Reservation.carId r)))
           (Some (Reservation.startDate r)) (Some (Reservation.endDate r)) ∧
  Reservation.userId r = user ∧
  Reservation.status r = "pending" ∧
  cars db' = cars db ∧ users db' = users db ∧ locations db' = locations db ∧
  cities db' = cities db ∧ states db' = states db.
Proof.
  intros Hout db' i.
  assert (Hfree : reservations db !! i = None).
  { apply not_elem_of_dom, is_fresh. }
  destruct (createReservation_outcomes now user body db)
    as [([Hs|Hs] & _)|(c & s & e & r1 & Hbody & _ & Hp & _ & Hs & Hdb)];
    rewrite Hout in Hs; try done.
  injection Hs as ->. unfold db'. rewrite Hdb.
  apply pre_save_price_fields in Hp as (Hc & Hu & Hsd & Hed & Hst & _).
  simpl in Hc, Hu, Hsd, Hed, Hst. rewrite Hbody, Hc, Hsd, Hed. done.
Qed.

Lemma createReservation_inserts_one_witness :
  reservations (createReservation 0 1 (booking 1 (1 * day) (4 * day))
                  (fleet None)).2
  = <[fresh (dom (reservations (fleet None))) := three_days "pending"]>
      (reservations (fleet None)).
Proof.
  destruct (createReservation_inserts_one 0 1 (booking 1 (1 * day) (4 * day))
              (fleet None) (three_days "pending") eq_refl) as (_ & H & _).
  exact H.
Defined.

(** X15. [getUserReservations] lists exactly the stored reservations whose
    [userId] is the user; a reservation that [createReservation] has just
    stored is on the list of its user, and the lists of all other users
    are as before. *)
Theorem getUserReservations_lists_own (user : ObjectId) (db : DB) :
  (∀ k r, getUserReservations user db !! k = Some r <->
     reservations db !! k = Some r ∧ Reservation.userId r = user) ∧
  (∀ now body r,
     (createReservation now user body db).1 = mkRes 201 (Json r) ->
     let db' := (createReservation now user body db).2 in
     getUserReservations user db' !! fresh (dom (reservations db)) = Some r ∧
     ∀ other, other ≠ user ->
       getUserReservations other db' = getUserReservations other db).
Proof.
  assert (Hlist : ∀ u d k r, getUserReservations u d !! k = Some r <->
            reservations d !! k = Some r ∧ Reservation.userId r = u).
  { intros u d k r. unfold getUserReservations.
    rewrite coll_find_lookup, bool_decide_eq_true. done. }
  split; [apply Hlist|].
  intros now body r Hout db'.
  assert (Hfree : reservations db !! fresh (dom (reservations db)) = None).
  { apply not_elem_of_dom, is_fresh. }
  destruct (createReservation_outcomes now user body db)
    as [([Hs|Hs] & _)|(c & s & e & r1 & _ & _ & Hp & _ & Hs & Hdb)];
    rewrite Hout in Hs; try done.
  injection Hs as ->. unfold db'. rewrite Hdb.
  apply pre_save_price_fields in Hp as (_ & Hu & _). simpl in Hu.
  split.
  - apply Hlist. cbn [reservations set_reservations].
    by rewrite lookup_insert_eq.
  - intros other Hne. apply map_eq. intros k. apply option_eq. intros x.
    rewrite !Hlist. cbn [reservations set_reservations].
    destruct (decide (k = fresh (dom (reservations db)))) as [->|Hk].
    + rewrite lookup_insert_eq, Hfree. split.
      * intros [[= <-] Hx]. congruence.
      * intros [? _]. done.
    + by rewrite lookup_insert_ne.
Qed.

(** ** Invariants of the reservations *)

Lemma overlap_sym (s1 e1 s2 e2 : Date) :
  overlap s1 e1 s2 e2 <-> overlap s2 e2 s1 e1.
Proof. unfold overlap. tauto. Qed.

(** Where a reservation stored after a request comes from: it was stored
    before, with the same car, user, dates and price, or it is the one
    document the request has created, under the id that was free, after
    validation and the overlap check. *)
Lemma handle_reservation_origin (rt : Runtime) (rq : request) (db : DB)
    (k : ObjectId) (r' : Reservation.doc) :
  reservations (handle rt rq db) !! k = Some r' ->
  (∃ r, reservations db !! k = Some r ∧ same_booking r r') ∨
  (k = fresh (dom (reservations db)) ∧
   Reservation.startDate r' < Reservation.endDate r' ∧
   ∀ j x, reservations db !! j = Some x ->
          Reservation.carId x = Reservation.carId r' ->
          ¬ overlap (Reservation.startDate r') (Reservation.endDate r')
                    (Reservation.startDate x) (Reservation.endDate x)).
Proof.
  assert (Hold : reservations db !! k = Some r' ->
            (∃ r, reservations db !! k = Some r ∧ same_booking r r') ∨
            (k = fresh (dom (reservations db)) ∧
             Reservation.startDate r' < Reservation.endDate r' ∧
             ∀ j x, reservations db !! j = Some x ->
                    Reservation.carId x = Reservation.carId r' ->
                    ¬ overlap (Reservation.startDate r') (Reservation.endDate r')
                              (Reservation.startDate x) (Reservation.endDate x))).
  { intros Hk. left. exists r'. split; [done|apply same_booking_refl]. }
  destruct rq as [now user body|id status|i updates|i|i|now i|i|name stateId];
    cbn [handle].
  - destruct (createReservation_outcomes now user body db)
      as [(_ & ->)|(c & s & e & r1 & _ & Hv & Hp & Ho & _ & ->)]; [done|].
    cbn [reservations set_reservations].
    destruct (decide (k = fresh (dom (reservations db)))) as [->|Hk].
    + rewrite lookup_insert_eq. intros [= <-]. right.
      apply validators_pass in Hv as (_ & _ & _ & Hlt & _).
      pose proof (pre_save_price_fields _ _ _ Hp)
        as (Hc & _ & Hsd & Hed & _).
      simpl in Hlt, Hc, Hsd, Hed. rewrite Hsd, Hed.
      split; [done|]. split; [done|].
      intros j x Hj Hcar Hov.
      pose proof (proj1 (pre_save_overlap_passes db r1) Ho j x Hj) as Hf.
      rewrite (proj2 (overlap_filter_true r1 x j)) in Hf; [done|].
      by rewrite Hsd, Hed.
    + rewrite lookup_insert_ne by done. done.
  - unfold updateReservationStatus. destruct id as [i|msg]; [|done].
    destruct (reservations db !! i) as [r0|] eqn:Hi; [|done].
    cbn [snd reservations set_reservations].
    destruct (decide (i = k)) as [->|Hne].
    + rewrite lookup_insert_eq. intros [= <-]. left. exists r0.
      split; [done|]. by repeat split.
    + by rewrite lookup_insert_ne.
  - unfold updateCar. repeat case_match; done.
  - unfold deleteCar, Car_findByIdAndDelete. destruct (cars db !! i); done.
  - unfold deleteLocation, Location_findByIdAndDelete.
    destruct (model_findById no_options i (locations db)); done.
  - unfold softDeleteLocation.
    destruct (model_findById no_options i (locations db)); done.
  - intros Hk. apply Hold. by apply deleteState_reservations in Hk.
  - by destruct (createCity_db rt name stateId db) as [-> | ->].
Qed.

Lemma handle_keeps_reservation_invariants (rt : Runtime) (rq : request)
    (db : DB) :
  no_double_booking db -> reservations_well_formed db ->
  no_double_booking (handle rt rq db) ∧
  reservations_well_formed (handle rt rq db).
Proof.
  intros Hnd Hwf. split.
  - intros k1 k2 r1 r2 Hne H1 H2 Hcar Hov.
    destruct (handle_reservation_origin rt rq db k1 r1 H1)
      as [(o1 & Ho1 & S1)|(E1 & _ & F1)];
      destruct (handle_reservation_origin rt rq db k2 r2 H2)
        as [(o2 & Ho2 & S2)|(E2 & _ & F2)].
    + destruct S1 as (C1 & _ & A1 & B1 & _), S2 as (C2 & _ & A2 & B2 & _).
      apply (Hnd k1 k2 o1 o2 Hne Ho1 Ho2); [congruence|].
      by rewrite <- A1, <- B1, <- A2, <- B2.
    + destruct S1 as (C1 & _ & A1 & B1 & _).
      apply (F2 k1 o1 Ho1); [congruence|].
      rewrite <- A1, <- B1. by apply overlap_sym.
    + destruct S2 as (C2 & _ & A2 & B2 & _).
      apply (F1 k2 o2 Ho2); [congruence|].
      by rewrite <- A2, <- B2.
    + congruence.
  - intros k r Hk.
    destruct (handle_reservation_origin rt rq db k r Hk)
      as [(o & Ho & S)|(_ & Hlt & _)]; [|done].
    destruct S as (_ & _ & A & B & _). pose proof (Hwf k o Ho) as Hlt.
    by rewrite A, B.
Qed.

(** The controllers of this part leave reservations, cars and states as
    they are, and of the cities they remove one at most. *)
Lemma api_handle_frame (rt : Runtime) (rq : api_request) (db : DB) :
  (∃ rq0, rq = Request rq0) ∨
  (reservations (api_handle rt rq db) = reservations db ∧
   cars (api_handle rt rq db) = cars db ∧
   states (api_handle rt rq db) = states db ∧
   (cities (api_handle rt rq db) = cities db ∨
    ∃ i, cities (api_handle rt rq db) = delete i (cities db))).
Proof.
  destruct rq as [rq0|i|i|body]; [left; by exists rq0|right..];
    cbn [api_handle].
  - unfold deleteCity, City_findByIdAndDelete.
    destruct (cities db !! i); cbn; repeat split; eauto.
  - unfold deleteUser, User_findByIdAndDelete.
    destruct (model_findById no_options i (users db)); cbn; repeat split; eauto.
  - unfold createLocation, Location_save.
    repeat case_match; simplify_eq; cbn; repeat split; eauto.
Qed.

Lemma api_handle_keeps_reservation_invariants (rt : Runtime)
    (rq : api_request) (db : DB) :
  no_double_booking db -> reservations_well_formed db ->
  no_double_booking (api_handle rt rq db) ∧
  reservations_well_formed (api_handle rt rq db).
Proof.
  intros Hnd Hwf.
  destruct (api_handle_frame rt rq db) as [[rq0 ->]|(Hr & _)].
  - by apply handle_keeps_reservation_invariants.
  - unfold no_double_booking, reservations_well_formed. by rewrite Hr.
Qed.

(** X16. No double booking: if no two stored reservations of one car
    overlap, and every stored reservation ends after it starts, then the
    same holds after any sequence of requests to [createReservation],
    [updateReservationStatus], [updateCar], [deleteCar], [deleteLocation],
    [softDeleteLocation], [deleteState], [createCity], [deleteCity],
    [deleteUser] and [createLocation], served one after the other,
    whatever the status of the reservations. *)
Theorem requests_keep_bookings_disjoint (rt : Runtime)
    (rqs : list api_request) (db : DB) :
  no_double_booking db -> reservations_well_formed db ->
  no_double_booking (api_run rt rqs db) ∧
  reservations_well_formed (api_run rt rqs db).
Proof.
  revert db. induction rqs as [|rq rest IH]; intros db Hnd Hwf; [done|].
  cbn [api_run fold_left].
  destruct (api_handle_keeps_reservation_invariants rt rq db Hnd Hwf)
    as [Hnd' Hwf'].
  by apply IH.
Qed.

Lemma requests_keep_bookings_disjoint_witness :
  let rqs :=
    [Request (CreateReservation 0 1 (booking 1 (1 * day) (4 * day)));
     Request (UpdateReservationStatus (Id 1) "cancelled");
     DeleteCity 1;
     Request (CreateReservation 1 1 (booking 1 (2 * day) (3 * day)));
     Request (CreateReservation 1 1 (booking 1 (4 * day) (6 * day)))] in
  let db := booked None (Reservation.mk 1 1 (6 * day) (8 * day) "confirmed"
                           (Some (Number_of_Z 200))) in
  no_double_booking (api_run ascii_runtime rqs db) ∧
  reservations_well_formed (api_run ascii_runtime rqs db) ∧
  dom (reservations (api_run ascii_runtime rqs db))
    = {[ 1%positive; 2%positive; 3%positive ]}.
Proof.
  cbv zeta. split; [|split]; [| |vm_compute; reflexivity].
  - apply requests_keep_bookings_disjoint.
    + intros k1 k2 r1 r2 Hne H1 H2.
      unfold booked in H1, H2. cbn [reservations set_reservations] in H1, H2.
      apply lookup_singleton_Some in H1 as [<- _].
      apply lookup_singleton_Some in H2 as [<- _]. done.
    + intros k r H1.
      unfold booked in H1. cbn [reservations set_reservations] in H1.
      apply lookup_singleton_Some in H1 as [_ <-].
      vm_compute. reflexivity.
  - apply requests_keep_bookings_disjoint.
    + intros k1 k2 r1 r2 Hne H1 H2.
      unfold booked in H1, H2. cbn [reservations set_reservations] in H1, H2.
      apply lookup_singleton_Some in H1 as [<- _].
      apply lookup_singleton_Some in H2 as [<- _]. done.
    + intros k r H1.
      unfold booked in H1. cbn [reservations set_reservations] in H1.
      apply lookup_singleton_Some in H1 as [_ <-].
      vm_compute. reflexivity.
Defined.

(** ** Names: the normalization as a whole, on ASCII names *)

Lemma is_upper_iff (c : code_unit) : is_upper c = true <-> (65 <= c <= 90)%N.
Proof. unfold is_upper. rewrite andb_true_iff, !N.leb_le. tauto. Qed.

Lemma is_lower_iff (c : code_unit) : is_lower c = true <-> (97 <= c <= 122)%N.
Proof. unfold is_lower. rewrite andb_true_iff, !N.leb_le. tauto. Qed.

Lemma is_digit_iff (c : code_unit) : is_digit c = true <-> (48 <= c <= 57)%N.
Proof. unfold is_digit. rewrite andb_true_iff, !N.leb_le. tauto. Qed.

Lemma is_ascii_iff (c : code_unit) : is_ascii c = true <-> (c < 128)%N.
Proof. unfold is_ascii. by rewrite N.ltb_lt. Qed.

(** The case mappings of ASCII move a character between the two ranges of
    letters, or leave it. *)
Lemma ascii_lower_cases (c : code_unit) :
  ((65 <= c <= 90)%N ∧ ascii_lower c = (c + 32)%N) ∨
  (¬ (65 <= c <= 90)%N ∧ ascii_lower c = c).
Proof.
  unfold ascii_lower. destruct (is_upper c) eqn:E.
  - left. by apply is_upper_iff in E.
  - right. split; [|done]. intros H. apply is_upper_iff in H. congruence.
Qed.

Lemma ascii_upper_cases (c : code_unit) :
  ((97 <= c <= 122)%N ∧ ascii_upper c = (c - 32)%N) ∨
  (¬ (97 <= c <= 122)%N ∧ ascii_upper c = c).
Proof.
  unfold ascii_upper. destruct (is_lower c) eqn:E.
  - left. by apply is_lower_iff in E.
  - right. split; [|done]. intros H. apply is_lower_iff in H. congruence.
Qed.

Lemma ascii_lower_upper (c : code_unit) :
  ascii_lower (ascii_upper c) = ascii_lower c.
Proof.
  destruct (ascii_upper_cases c) as [[Hc ->]|[Hc ->]]; [|done].
  destruct (ascii_lower_cases (c - 32)%N) as [[_ ->]|[Hn _]]; [|lia].
  destruct (ascii_lower_cases c) as [[Hu _]|[_ ->]]; lia.
Qed.

Lemma ascii_upper_lower (c : code_unit) :
  ascii_upper (ascii_lower c) = ascii_upper c.
Proof.
  destruct (ascii_lower_cases c) as [[Hc ->]|[Hc ->]]; [|done].
  destruct (ascii_upper_cases (c + 32)%N) as [[_ ->]|[Hn _]]; [|lia].
  destruct (ascii_upper_cases c) as [[Hu _]|[_ ->]]; lia.
Qed.

Lemma ascii_lower_idemp (c : code_unit) :
  ascii_lower (ascii_lower c) = ascii_lower c.
Proof.
  destruct (ascii_lower_cases c) as [[Hc ->]|[Hc E]]; [|by rewrite !E].
  destruct (ascii_lower_cases (c + 32)%N) as [[Hu _]|[_ ->]]; [lia|done].
Qed.

Lemma is_word_ascii_lower (c : code_unit) :
  is_word (ascii_lower c) = is_word c.
Proof.
  destruct (ascii_lower_cases c) as [[Hc ->]|[Hc ->]]; [|done].
  apply eq_iff_eq_true. rewrite !is_word_iff. lia.
Qed.

Lemma is_space_ascii_lower (c : code_unit) :
  is_space (ascii_lower c) = is_space c.
Proof.
  destruct (ascii_lower_cases c) as [[Hc ->]|[Hc ->]]; [|done].
  apply eq_iff_eq_true. rewrite !is_space_iff. lia.
Qed.

Lemma is_space_ascii_upper (c : code_unit) :
  is_space (ascii_upper c) = is_space c.
Proof.
  destruct (ascii_upper_cases c) as [[Hc ->]|[Hc ->]]; [|done].
  apply eq_iff_eq_true. rewrite !is_space_iff. lia.
Qed.

Lemma is_ascii_ascii_lower (c : code_unit) :
  is_ascii c = true -> is_ascii (ascii_lower c) = true.
Proof.
  rewrite !is_ascii_iff.
  destruct (ascii_lower_cases c) as [[Hc ->]|[Hc ->]]; lia.
Qed.

Lemma is_ascii_ascii_upper (c : code_unit) :
  is_ascii c = true -> is_ascii (ascii_upper c) = true.
Proof.
  rewrite !is_ascii_iff.
  destruct (ascii_upper_cases c) as [[Hc ->]|[Hc ->]]; lia.
Qed.

Lemma ascii_lower_nonword (c : code_unit) :
  is_word c = false -> ascii_lower c = c.
Proof.
  intros Hw. destruct (ascii_lower_cases c) as [[Hc _]|[_ ->]]; [|done].
  assert (is_word c = true) by (apply is_word_iff; lia). congruence.
Qed.

Lemma space_not_word (c : code_unit) : is_space c = true -> is_word c = false.
Proof.
  intros Hs. destruct (is_word c) eqn:Hw; [|done].
  rewrite (word_not_space c Hw) in Hs. done.
Qed.

Lemma pass_inside_token (tail after : jsstring) :
  Forall (fun x => negb (is_space x) = true) tail ->
  (after = [] ∨ ∃ d r, after = d :: r ∧ negb (is_space d) = false) ->
  replace_words_pass true (tail ++ after) =
  map ascii_lower tail ++ replace_words_pass false after.
Proof.
  intros Htail Hafter. induction Htail as [|c tail Hc _ IH].
  - destruct Hafter as [->|(d & r & -> & Hd)]; [done|].
    apply negb_false_iff in Hd. simpl.
    by rewrite Hd, (space_not_word d Hd).
  - apply negb_true_iff in Hc. simpl. by rewrite Hc, IH.
Qed.

(** With the case mappings of ASCII the search-and-replace loop and the
    single pass agree. *)
Lemma replace_words_is_pass (fuel : nat) (s : jsstring) :
  (length s <= fuel)%nat ->
  replace_words ascii_runtime fuel s = replace_words_pass false s.
Proof.
  revert s. induction fuel as [|fuel IH]; intros s Hlen.
  - destruct s; [done|]. simpl in Hlen. lia.
  - destruct s as [|c rest]; [done|]. simpl in Hlen.
    cbn [replace_words replace_words_pass].
    destruct (is_word c) eqn:Hc.
    + destruct (span (fun x => negb (is_space x)) rest) as [tail after] eqn:Hs.
      apply span_spec in Hs as (-> & Htail & Hafter).
      rewrite length_app in Hlen. rewrite IH by lia.
      rewrite pass_inside_token by done. done.
    + by rewrite IH by lia.
Qed.

Lemma pass_lower (b : bool) (s : jsstring) :
  map ascii_lower (replace_words_pass b s) = map ascii_lower s.
Proof.
  revert b. induction s as [|c s IH]; intros b; [done|].
  simpl. destruct b.
  - destruct (is_space c); simpl; rewrite IH, ?ascii_lower_idemp; done.
  - destruct (is_word c); simpl; rewrite IH, ?ascii_lower_upper; done.
Qed.

Lemma pass_of_lower (b : bool) (s : jsstring) :
  replace_words_pass b (map ascii_lower s) = replace_words_pass b s.
Proof.
  revert b. induction s as [|c s IH]; intros b; [done|].
  simpl. rewrite is_space_ascii_lower, is_word_ascii_lower.
  destruct b.
  - destruct (is_space c) eqn:Hs; rewrite IH, ?ascii_lower_idemp; [|done].
    by rewrite (ascii_lower_nonword c (space_not_word c Hs)).
  - destruct (is_word c) eqn:Hw; rewrite IH, ?ascii_upper_lower; [done|].
    by rewrite (ascii_lower_nonword c Hw).
Qed.

Lemma pass_idemp (b : bool) (s : jsstring) :
  replace_words_pass b (replace_words_pass b s) = replace_words_pass b s.
Proof.
  rewrite <- (pass_of_lower b (replace_words_pass b s)), pass_lower.
  apply pass_of_lower.
Qed.

Lemma pass_spaces (b : bool) (s : jsstring) :
  map is_space (replace_words_pass b s) = map is_space s.
Proof.
  revert b. induction s as [|c s IH]; intros b; [done|].
  simpl. destruct b.
  - destruct (is_space c) eqn:Hs; simpl;
      rewrite IH, ?is_space_ascii_lower, ?Hs; done.
  - destruct (is_word c); simpl; rewrite IH, ?is_space_ascii_upper; done.
Qed.

Lemma pass_ascii (b : bool) (s : jsstring) :
  forallb is_ascii s = true ->
  forallb is_ascii (replace_words_pass b s) = true.
Proof.
  revert b. induction s as [|c s IH]; intros b; [done|].
  simpl. rewrite andb_true_iff. intros [Hc Hs].
  destruct b.
  - destruct (is_space c); simpl;
      rewrite IH, ?is_ascii_ascii_lower, ?Hc; done.
  - destruct (is_word c); simpl;
      rewrite IH, ?is_ascii_ascii_upper, ?Hc; done.
Qed.

Lemma pass_leading_spaces (ws s : jsstring) :
  Forall (fun c => is_space c = true) ws ->
  replace_words_pass false (ws ++ s) = ws ++ replace_words_pass false s.
Proof.
  induction 1 as [|c ws Hc _ IH]; [done|].
  simpl. by rewrite (space_not_word c Hc), IH.
Qed.

Lemma pass_trailing_spaces (b : bool) (s ws : jsstring) :
  Forall (fun c => is_space c = true) ws ->
  replace_words_pass b (s ++ ws) = replace_words_pass b s ++ ws.
Proof.
  intros Hws. revert b. induction s as [|c s IH]; intros b.
  - simpl. revert b. induction Hws as [|d ws Hd _ IHws]; intros b; [done|].
    simpl. rewrite Hd, (space_not_word d Hd), IHws. by destruct b.
  - simpl. destruct b.
    + destruct (is_space c); by rewrite IH.
    + destruct (is_word c); by rewrite IH.
Qed.

Lemma trimStart_leading (ws s : jsstring) :
  Forall (fun c => is_space c = true) ws -> trimStart (ws ++ s) = trimStart s.
Proof. induction 1 as [|c ws Hc _ IH]; [done|]. simpl. by rewrite Hc. Qed.

Lemma trimStart_all_spaces (ws : jsstring) :
  Forall (fun c => is_space c = true) ws -> trimStart ws = [].
Proof. induction 1 as [|c ws Hc _ IH]; [done|]. simpl. by rewrite Hc. Qed.

(** What is between white space at both ends and has none at either end
    of its own is the result of [trim]. *)
Lemma trim_unique (ws1 y ws2 : jsstring) :
  Forall (fun c => is_space c = true) ws1 ->
  Forall (fun c => is_space c = true) ws2 ->
  (∀ c t, y = c :: t -> is_space c = false) ->
  (∀ c t, y = t ++ [c] -> is_space c = false) ->
  trim (ws1 ++ y ++ ws2) = y.
Proof.
  intros H1 H2 Hhead Hlast. unfold trim. rewrite trimStart_leading by done.
  destruct y as [|c t].
  - simpl. rewrite (trimStart_all_spaces ws2 H2). done.
  - cbn [app trimStart]. rewrite (Hhead c t eq_refl).
    change (c :: t ++ ws2) with ((c :: t) ++ ws2).
    rewrite rev_app_distr, trimStart_leading by (by apply Forall_rev).
    destruct (rev (c :: t)) as [|d u] eqn:Hr.
    + apply (f_equal (@length code_unit)) in Hr. rewrite length_rev in Hr. done.
    + simpl. rewrite (Hlast d (rev u)).
      * rewrite <- Hr. apply rev_involutive.
      * rewrite <- (rev_involutive (c :: t)), Hr. done.
Qed.

Lemma map_is_space_head (y s : jsstring) (c : code_unit) (t : jsstring) :
  map is_space y = map is_space s -> y = c :: t ->
  ∃ c0 t0, s = c0 :: t0 ∧ is_space c0 = is_space c.
Proof.
  intros Hm ->. destruct s as [|c0 t0]; [done|].
  injection Hm as Hc _. eauto.
Qed.

Lemma map_is_space_last (y s : jsstring) (c : code_unit) (t : jsstring) :
  map is_space y = map is_space s -> y = t ++ [c] ->
  ∃ c0 t0, s = t0 ++ [c0] ∧ is_space c0 = is_space c.
Proof.
  intros Hm ->. rewrite map_app in Hm. simpl in Hm.
  destruct (rev s) as [|c0 u] eqn:Hr.
  - apply (f_equal (@rev code_unit)) in Hr. rewrite rev_involutive in Hr.
    subst s. by destruct t.
  - assert (Hs : s = rev u ++ [c0]).
    { rewrite <- (rev_involutive s), Hr. done. }
    subst s. rewrite map_app in Hm. simpl in Hm.
    apply app_inj_tail in Hm as [_ Hc]. eauto.
Qed.

(** Trimming and the replacement commute. *)
Lemma trim_pass (s : jsstring) :
  trim (replace_words_pass false s) = replace_words_pass false (trim s).
Proof.
  destruct (trim_spec s) as (ws1 & ws2 & Hs & H1 & H2 & Hhead & Hlast).
  rewrite Hs at 1.
  rewrite pass_leading_spaces, pass_trailing_spaces by done.
  apply trim_unique; try done.
  - intros c t Hy.
    destruct (map_is_space_head _ _ c t (pass_spaces false (trim s)) Hy)
      as (c0 & t0 & Ht & <-).
    by apply (Hhead c0 t0).
  - intros c t Hy.
    destruct (map_is_space_last _ _ c t (pass_spaces false (trim s)) Hy)
      as (c0 & t0 & Ht & <-).
    by apply (Hlast c0 t0).
Qed.

Lemma trim_idemp (s : jsstring) : trim (trim s) = trim s.
Proof.
  destruct (trim_spec s) as (_ & _ & _ & _ & _ & Hhead & Hlast).
  rewrite <- (app_nil_r (trim s)) at 1.
  by apply (trim_unique [] (trim s) []).
Qed.

(** [name_set] with the case mappings of ASCII, as one pass. *)
Lemma name_set_pass (raw : jsstring) :
  name_set ascii_runtime raw = replace_words_pass false (trim raw).
Proof.
  unfold name_set. by rewrite replace_words_is_pass, trim_pass.
Qed.

Lemma name_set_pass_ascii (raw : jsstring) :
  forallb is_ascii raw = true ->
  forallb is_ascii (name_set ascii_runtime raw) = true.
Proof.
  intros Hraw. rewrite name_set_pass. by apply pass_ascii, trim_ascii.
Qed.

Lemma name_set_pass_idemp (raw : jsstring) :
  name_set ascii_runtime (name_set ascii_runtime raw)
  = name_set ascii_runtime raw.
Proof.
  rewrite (name_set_pass (name_set ascii_runtime raw)), (name_set_pass raw).
  rewrite <- (trim_pass raw), trim_idemp, (trim_pass raw). apply pass_idemp.
Qed.

(** On ASCII names the setters are idempotent, in every runtime. *)
Lemma name_set_idemp (rt : Runtime) (raw : jsstring) :
  forallb is_ascii raw = true ->
  name_set rt (name_set rt raw) = name_set rt raw.
Proof.
  intros Hraw. rewrite (name_set_ascii rt raw Hraw).
  rewrite (name_set_ascii rt _ (name_set_pass_ascii raw Hraw)).
  apply name_set_pass_idemp.
Qed.

(** On ASCII names the setters do not tell apart two names that differ in
    letter case and outer white space only. *)
Lemma name_set_case_insensitive (rt : Runtime) (a b : jsstring) :
  forallb is_ascii a = true -> forallb is_ascii b = true ->
  lower (trim a) = lower (trim b) -> name_set rt a = name_set rt b.
Proof.
  intros Ha Hb Hab.
  rewrite (name_set_ascii rt a Ha), (name_set_ascii rt b Hb), !name_set_pass.
  rewrite <- (pass_of_lower false (trim a)), <- (pass_of_lower false (trim b)).
  by f_equal.
Qed.

(** X17. On names of ASCII characters the setters of a state or city name
    are idempotent: a stored name is stored unchanged when it is written
    again.  Running the setters on the name that the
    [pre('findOneAndUpdate')] hook of the state schema hands on gives what
    they give on the name the hook received. *)
Theorem name_set_idempotent (rt : Runtime) :
  (∀ raw, forallb is_ascii raw = true ->
     name_set rt (name_set rt raw) = name_set rt raw) ∧
  (∀ raw hooked,
     forallb is_ascii raw = true ->
     State_pre_findOneAndUpdate rt (Some raw) = Some hooked ->
     name_set rt hooked = name_set rt raw).
Proof.
  split; [apply name_set_idemp|].
  intros raw hooked Hraw. unfold State_pre_findOneAndUpdate.
  case_bool_decide; intros [= <-]; [done|].
  rewrite (name_set_ascii rt raw Hraw).
  rewrite replace_words_tokenwise by done.
  rewrite (tokenwise_ascii _ (capitalize_from_word ascii_runtime) raw
             (capitalize_from_word_ascii rt) Hraw).
  rewrite <- (replace_words_tokenwise ascii_runtime (length raw) raw) by done.
  rewrite replace_words_is_pass by done.
  rewrite (name_set_ascii rt _ (pass_ascii false raw Hraw)), !name_set_pass.
  rewrite <- (trim_pass (replace_words_pass false raw)), pass_idemp.
  apply trim_pass.
Qed.

(** X18. On names of ASCII characters the normalization changes letter
    case and outer white space only: with its letters lowercased, the
    stored name is the trimmed input with its letters lowercased.  It is
    the same for two inputs that differ in letter case and outer white
    space only, so the second of two such city names under one state is
    refused with 409. *)
Theorem name_set_up_to_case (rt : Runtime) :
  (∀ raw, forallb is_ascii raw = true ->
     lower (name_set rt raw) = lower (trim raw)) ∧
  (∀ a b, forallb is_ascii a = true -> forallb is_ascii b = true ->
     lower (trim a) = lower (trim b) -> name_set rt a = name_set rt b) ∧
  (∀ a b stateId db k c,
     forallb is_ascii a = true -> forallb is_ascii b = true ->
     lower (trim a) = lower (trim b) ->
     cities db !! k = Some c -> City.stateId c = stateId ->
     City.name c = name_set rt a ->
     is_Some (states db !! stateId) ->
     City_name_validator (name_set rt b) = [] ->
     res_status (createCity rt b stateId db).1 = 409 ∧
     (createCity rt b stateId db).2 = db).
Proof.
  split.
  { intros raw Hraw. unfold lower.
    rewrite (name_set_ascii rt raw Hraw), name_set_pass. apply pass_lower. }
  split; [apply name_set_case_insensitive|].
  intros a b stateId db k c Ha Hb Hab Hk Hst Hname Hstate Hvalid.
  destruct (createCity_cases rt b stateId db Hstate Hvalid)
    as [(_ & Hs & Hdb)|(Hc & _)]; [done|].
  destruct (proj2 (City_index_conflicts_nonempty
                     (City.mk (name_set rt b) stateId) db)); [|done].
  exists k, c. simpl. rewrite Hname.
  by rewrite (name_set_case_insensitive rt a b Ha Hb Hab).
Qed.

(** ** Invariants of the cities *)

Lemma createCity_inserted (rt : Runtime) (name : jsstring) (stateId : ObjectId)
    (db : DB) :
  (createCity rt name stateId db).2 = db ∨
  (is_Some (states db !! stateId) ∧
   City_index_conflicts (City.mk (name_set rt name) stateId) db = ∅ ∧
   (createCity rt name stateId db).2 =
     set_cities db
       (<[fresh (dom (cities db)) := City.mk (name_set rt name) stateId]>
          (cities db))).
Proof.
  unfold createCity. case_bool_decide as Hst; cbn [negb]; [|by left].
  destruct (City_save _ _ db) as [e|db'] eqn:E; [by left|].
  right. split; [done|].
  pose proof (City_save_db _ _ _ _ E) as ->. split; [|done].
  unfold City_save in E. repeat case_match; simplify_eq.
  match goal with
  | H : bool_decide (City_index_conflicts _ _ = ∅) = true |- _ =>
      by apply bool_decide_eq_true in H
  end.
Qed.

(** The states and cities after a request. *)
Lemma handle_states_cities (rt : Runtime) (rq : request) (db : DB) :
  (states (handle rt rq db) = states db ∧
   cities (handle rt rq db) = cities db) ∨
  (∃ i, rq = DeleteState i ∧ states (handle rt rq db) = delete i (states db) ∧
        ∀ k c, cities (handle rt rq db) !! k = Some c <->
               cities db !! k = Some c ∧ City.stateId c ≠ i) ∨
  (∃ name stateId,
     is_Some (states db !! stateId) ∧
     City_index_conflicts (City.mk (name_set rt name) stateId) db = ∅ ∧
     states (handle rt rq db) = states db ∧
     cities (handle rt rq db) =
       <[fresh (dom (cities db)) := City.mk (name_set rt name) stateId]>
         (cities db)).
Proof.
  destruct rq as [now user body|id status|i updates|i|i|now i|i|name stateId];
    cbn [handle].
  - left. by destruct (createReservation_outcomes now user body db)
      as [(_ & ->)|(c & s & e & r1 & _ & _ & _ & _ & _ & ->)].
  - left. unfold updateReservationStatus. destruct id as [i|msg]; [|done].
    by destruct (reservations db !! i).
  - left. unfold updateCar. repeat case_match; done.
  - left. unfold deleteCar, Car_findByIdAndDelete. by destruct (cars db !! i).
  - left. unfold deleteLocation, Location_findByIdAndDelete.
    by destruct (model_findById no_options i (locations db)).
  - left. unfold softDeleteLocation.
    by destruct (model_findById no_options i (locations db)).
  - unfold deleteState, State_findByIdAndDelete.
    destruct (states db !! i) as [s|] eqn:Hs; [|by left].
    right. left. exists i. split; [done|].
    set (p := fun (_ : ObjectId) c => bool_decide (City.stateId c = i)).
    destruct (City_deleteMany_exact p db) as (Hcit & _ & _ & _ & Hst & _).
    rewrite Hst, Hs. cbn [snd states cities set_states]. split; [done|].
    intros k c. rewrite Hcit. unfold p. by rewrite bool_decide_eq_false.
  - destruct (createCity_inserted rt name stateId db) as [->|(Hst & Hc & ->)];
      [by left|].
    right. right. exists name, stateId. done.
Qed.

Lemma handle_keeps_cities_consistent (rt : Runtime) (rq : request) (db : DB) :
  cities_consistent db -> cities_consistent (handle rt rq db).
Proof.
  intros [Href Huniq]. unfold cities_consistent.
  destruct (handle_states_cities rt rq db)
    as [[-> ->]|[(i & _ & -> & Hcit)|(name & stateId & Hst & Hc & -> & ->)]].
  - done.
  - split.
    + intros k c Hk. apply Hcit in Hk as [Hk Hne].
      pose proof (Href k c Hk) as Hs. by rewrite lookup_delete_ne.
    + intros k1 k2 c1 c2 H1 H2. apply Hcit in H1 as [H1 _], H2 as [H2 _].
      by apply Huniq.
  - set (new := City.mk (name_set rt name) stateId) in *.
    set (i := fresh (dom (cities db))).
    assert (Hfree : cities db !! i = None) by apply not_elem_of_dom, is_fresh.
    assert (Hnone : ∀ k c, cities db !! k = Some c ->
              City.stateId c = stateId -> City.name c = name_set rt name ->
              False).
    { intros k c Hk H1 H2.
      apply (proj2 (City_index_conflicts_nonempty new db)); [|done]. eauto. }
    split.
    + intros k c. destruct (decide (k = i)) as [->|Hk].
      * rewrite lookup_insert_eq. by intros [= <-].
      * rewrite lookup_insert_ne by done. apply Href.
    + intros k1 k2 c1 c2.
      destruct (decide (k1 = i)) as [->|Hk1];
        destruct (decide (k2 = i)) as [->|Hk2]; try done.
      * rewrite lookup_insert_eq, lookup_insert_ne by done.
        intros [= <-] H2 E1 E2. destruct (Hnone k2 c2 H2); done.
      * rewrite lookup_insert_eq, lookup_insert_ne by done.
        intros H1 [= <-] E1 E2. destruct (Hnone k1 c1 H1); done.
      * rewrite !lookup_insert_ne by done. apply Huniq.
Qed.

Lemma api_handle_keeps_cities_consistent (rt : Runtime) (rq : api_request)
    (db : DB) :
  cities_consistent db -> cities_consistent (api_handle rt rq db).
Proof.
  intros Hc.
  destruct (api_handle_frame rt rq db)
    as [[rq0 ->]|(_ & _ & Hs & [Hci|[i Hci]])].
  - by apply handle_keeps_cities_consistent.
  - unfold cities_consistent. by rewrite Hs, Hci.
  - destruct Hc as [Href Huniq]. unfold cities_consistent.
    rewrite Hs, Hci. split.
    + intros k c Hk. apply lookup_delete_Some in Hk as [_ Hk].
      by apply (Href k c).
    + intros k1 k2 c1 c2 H1 H2.
      apply lookup_delete_Some in H1 as [_ H1], H2 as [_ H2]. by apply Huniq.
Qed.

(** X19. Cities stay consistent: if every stored city belongs to a stored
    state, and no two cities of one state hold the same name, then the
    same holds after any sequence of requests to [createReservation],
    [updateReservationStatus], [updateCar], [deleteCar], [deleteLocation],
    [softDeleteLocation], [deleteState], [createCity], [deleteCity],
    [deleteUser] and [createLocation], served one after the other, whatever
    the case mappings of the runtime; [createCity], [deleteCity] and
    [deleteState] are the ones that change cities or states.  Names are
    compared as the strings of code units that are stored. *)
Theorem requests_keep_cities_consistent (rt : Runtime)
    (rqs : list api_request) (db : DB) :
  cities_consistent db -> cities_consistent (api_run rt rqs db).
Proof.
  revert db. induction rqs as [|rq rest IH]; intros db Hc; [done|].
  cbn [api_run fold_left]. by apply IH, api_handle_keeps_cities_consistent.
Qed.

Lemma requests_keep_cities_consistent_witness :
  cities_consistent
    (api_run ascii_runtime
       [Request (CreateCity " san jose " 1);
        Request (CreateCity "SAN JOSE" 1);
        Request (CreateCity "San Jose" 2);
        Request (CreateCity "Fresno" 1);
        DeleteCity 1;
        Request (DeleteState 1)] two_states) ∧
  cities (api_run ascii_runtime
            [Request (CreateCity " san jose " 1);
             Request (CreateCity "SAN JOSE" 1);
             Request (CreateCity "San Jose" 2);
             Request (CreateCity "Fresno" 1);
             DeleteCity 1;
             Request (DeleteState 1)] two_states)
    = {[ 2%positive := City.mk "San Jose" 2 ]}.
Proof.
  split; [|vm_compute; reflexivity].
  apply requests_keep_cities_consistent. split.
  - intros k c H. vm_compute in H. discriminate.
  - intros k1 k2 c1 c2 H. vm_compute in H. discriminate.
Defined.

(** ** Phone and registration numbers *)

Lemma phone_chars_filter_id (l : jsstring) :
  Forall (fun c => is_digit c || is_plus c = true) l ->
  List.filter (fun c => is_digit c || is_plus c) l = l.
Proof.
  induction 1 as [|c l Hc _ IH]; [done|]. simpl. by rewrite Hc, IH.
Qed.

Lemma phone_number_set_fixed (v : jsstring) :
  Forall (fun c => is_digit c || is_plus c = true) v ->
  phone_number_set v = v.
Proof.
  intros Hall. rewrite phone_number_set_filter. by apply phone_chars_filter_id.
Qed.

Lemma phone_number_set_chars (raw : jsstring) :
  Forall (fun c => is_digit c || is_plus c = true) (phone_number_set raw).
Proof.
  rewrite phone_number_set_filter. apply Forall_forall. intros c Hc.
  apply list_elem_of_In, filter_In in Hc as [_ Hc]. done.
Qed.

Lemma phone_valid_chars (v : jsstring) :
  phone_number_validator v = true ->
  Forall (fun c => is_digit c || is_plus c = true) v.
Proof.
  intros (digits & -> & Hd & _)%phone_number_validator_spec.
  constructor; [done|].
  eapply Forall_impl; [exact Hd|]. intros c Hc. simpl in Hc. by rewrite Hc.
Qed.

(** X20. The phone setter is idempotent, and an accepted phone number is
    stable: a value that already matches the pattern is stored as it is,
    and what has been stored for some input is stored again unchanged
    when it is written back. *)
Theorem phone_number_stable :
  (∀ raw, phone_number_set (phone_number_set raw) = phone_number_set raw) ∧
  (∀ v, phone_number_validator v = true -> phone_number_stored v = Some v) ∧
  (∀ raw v, phone_number_stored raw = Some v -> phone_number_stored v = Some v).
Proof.
  assert (Hvalid : ∀ v, phone_number_validator v = true ->
            phone_number_stored v = Some v).
  { intros v Hv. unfold phone_number_stored.
    rewrite (phone_number_set_fixed v (phone_valid_chars v Hv)), Hv. done. }
  split; [intros raw; apply phone_number_set_fixed, phone_number_set_chars|].
  split; [exact Hvalid|].
  intros raw v. unfold phone_number_stored at 1.
  destruct (phone_number_validator (phone_number_set raw)) eqn:E; [|done].
  intros [= <-]. by apply Hvalid.
Qed.

Lemma upper_or_digit_ascii_upper (c : code_unit) :
  is_upper (ascii_upper c) || is_digit (ascii_upper c) =
  is_upper c || is_lower c || is_digit c.
Proof.
  apply eq_iff_eq_true.
  rewrite !orb_true_iff, !is_upper_iff, !is_digit_iff, is_lower_iff.
  destruct (ascii_upper_cases c) as [[Hc ->]|[Hc ->]]; lia.
Qed.

Lemma ascii_upper_upper_or_digit (c : code_unit) :
  is_upper c || is_digit c = true -> ascii_upper c = c.
Proof.
  rewrite orb_true_iff, is_upper_iff, is_digit_iff. intros Hc.
  destruct (ascii_upper_cases c) as [[Hl _]|[_ ->]]; [lia|done].
Qed.

Lemma upper_or_digit_is_ascii (c : code_unit) :
  is_upper c || is_digit c = true -> is_ascii c = true.
Proof.
  rewrite orb_true_iff, is_upper_iff, is_digit_iff, is_ascii_iff. lia.
Qed.

Lemma registrationNumber_validator_spec (v : jsstring) :
  registrationNumber_validator v = true <->
  Forall (fun c => is_upper c || is_digit c = true) v ∧
  (6 <= length v <= 12)%nat.
Proof.
  unfold registrationNumber_validator.
  rewrite !andb_true_iff, forallb_forall, !Nat.leb_le, Forall_forall.
  split.
  - intros [[Hall H6] H12]. split; [|lia].
    intros c Hc. apply Hall. by apply list_elem_of_In.
  - intros [Hall Hl]. repeat split; try lia.
    intros c Hc. apply Hall. by apply list_elem_of_In.
Qed.

(** A string of upper-case ASCII letters and digits is its own upper-case
    form, in every runtime. *)
Lemma toUpperCase_upper_or_digit (rt : Runtime) (v : jsstring) :
  Forall (fun c => is_upper c || is_digit c = true) v -> toUpperCase rt v = v.
Proof.
  intros Hall. rewrite toUpperCase_ascii.
  - induction Hall as [|c l Hc _ IH]; [done|].
    simpl. by rewrite (ascii_upper_upper_or_digit c Hc), IH.
  - apply forallb_forall. intros c Hc. apply upper_or_digit_is_ascii.
    rewrite Forall_forall in Hall. by apply Hall, list_elem_of_In.
Qed.

(** X21. What is stored as a registration number is the upper-case form
    of the input, as the runtime computes it, and consists of 6 to 12
    upper-case ASCII letters and digits.  An input of ASCII characters
    is accepted exactly when it consists of 6 to 12 ASCII letters and
    digits, in either case.  A stored number is stored unchanged when it
    is written back.  An input with other characters is accepted when its
    upper-case form matches the pattern: if the runtime maps the code
    unit 223 (sharp s) to [SS], as the Unicode case mapping does, the
    input of that letter followed by [abcde] is stored as [SSABCDE]. *)
Theorem registrationNumber_accepts_alphanumerics (rt : Runtime) :
  (∀ raw v, registrationNumber_stored rt raw = Some v <->
     v = toUpperCase rt raw ∧
     Forall (fun c => is_upper c || is_digit c = true) v ∧
     (6 <= length v <= 12)%nat) ∧
  (∀ raw, forallb is_ascii raw = true ->
     (is_Some (registrationNumber_stored rt raw) <->
      Forall (fun c => is_upper c || is_lower c || is_digit c = true) raw ∧
      (6 <= length raw <= 12)%nat) ∧
     (∀ v, registrationNumber_stored rt raw = Some v ->
           v = map ascii_upper raw)) ∧
  (∀ raw v, registrationNumber_stored rt raw = Some v ->
     registrationNumber_stored rt v = Some v) ∧
  (toUpperCase rt (223%N :: js "abcde") = js "SSABCDE" ->
   registrationNumber_stored rt (223%N :: js "abcde") = Some (js "SSABCDE")).
Proof.
  assert (Hstored : ∀ raw v, registrationNumber_stored rt raw = Some v <->
            v = toUpperCase rt raw ∧
            Forall (fun c => is_upper c || is_digit c = true) v ∧
            (6 <= length v <= 12)%nat).
  { intros raw v. unfold registrationNumber_stored, registrationNumber_set.
    destruct (registrationNumber_validator (toUpperCase rt raw)) eqn:E.
    - apply registrationNumber_validator_spec in E. split.
      + by intros [= <-].
      + by intros [-> _].
    - split; [done|]. intros [-> Hv].
      apply registrationNumber_validator_spec in Hv. congruence. }
  split; [exact Hstored|]. split; [|split].
  - intros raw Hraw. split.
    + unfold is_Some. setoid_rewrite Hstored.
      rewrite (toUpperCase_ascii rt raw Hraw). split.
      * intros (v & -> & Hall & Hlen). rewrite length_map in Hlen.
        split; [|done]. apply Forall_map in Hall.
        eapply Forall_impl; [exact Hall|]. intros c Hc. simpl in Hc.
        by rewrite <- upper_or_digit_ascii_upper.
      * intros [Hall Hlen]. exists (map ascii_upper raw).
        rewrite length_map. split; [done|]. split; [|done].
        apply Forall_map. eapply Forall_impl; [exact Hall|].
        intros c Hc. simpl. by rewrite upper_or_digit_ascii_upper.
    + intros v (-> & _)%Hstored. by apply toUpperCase_ascii.
  - intros raw v (-> & Hall & Hlen)%Hstored. apply Hstored.
    by rewrite (toUpperCase_upper_or_digit rt _ Hall).
  - intros Hss. apply Hstored. rewrite Hss. split; [done|].
    split; [|simpl; lia].
    apply Forall_forall. intros c Hc. vm_compute in Hc.
    repeat (apply elem_of_cons in Hc as [->|Hc]; [done|]).
    by apply elem_of_nil in Hc.
Qed.

(** ** Creating a location *)






(** ** Pages of the state list *)

Section Pages.
Context {A : Type}.
Implicit Types (l : list A) (n m : nat).

Lemma chunks_cover l n m :
  concat (map (fun p => take n (drop (p * n) l)) (seq 0 m)) = take (m * n) l.
Proof.
  induction m as [|m IH]; [done|].
  rewrite seq_S, map_app, concat_app, IH. simpl. rewrite app_nil_r.
  rewrite <- (take_drop (m * n) (take (n + m * n) l)).
  rewrite take_take, skipn_firstn_comm.
  rewrite Nat.min_l by lia.
  replace (n + m * n - m * n)%nat with n by lia. done.
Qed.

Lemma getStates_data_chunk l (page limit : Z) :
  1 <= page -> 1 <= limit ->
  getStates_data l page limit =
  take (Z.to_nat (limitNumber limit))
       (drop ((Z.to_nat page - 1) * Z.to_nat (limitNumber limit)) l).
Proof.
  intros Hp Hl. unfold getStates_data. f_equal. f_equal.
  assert (0 <= limitNumber limit) by (unfold limitNumber; lia).
  rewrite Z2Nat.inj_mul by lia. f_equal. lia.
Qed.

(** X23. The pages of [getStates] tile the list of matching states: for
    a limit of at least 1 (capped at 100), the pages 1 to [meta.pages],
    one after the other, are the whole sorted list, each state once and
    in order; no page is longer than the capped limit, and a page after
    the last one is empty. *)
Theorem getStates_pages_tile (sorted : list A) (limit : Z) :
  1 <= limit ->
  concat (map (fun p => getStates_data sorted (Z.of_nat p) limit)
            (seq 1 (Z.to_nat (getStates_pages sorted limit)))) = sorted ∧
  (∀ page, 1 <= page ->
     (length (getStates_data sorted page limit) <= 100)%nat ∧
     Z.of_nat (length (getStates_data sorted page limit)) <= limit) ∧
  (∀ page, getStates_pages sorted limit < page ->
     getStates_data sorted page limit = []).
Proof.
  intros Hl.
  set (n := Z.to_nat (limitNumber limit)).
  assert (Hn : (1 <= n <= 100)%nat) by (unfold n, limitNumber; lia).
  assert (Hnz : Z.of_nat n = limitNumber limit)
    by (unfold n, limitNumber; lia).
  destruct (ceil_div_bounds (Z.of_nat (length sorted)) (limitNumber limit))
    as [Hlo Hhi]; [unfold limitNumber; lia|].
  fold (getStates_pages sorted limit) in Hlo, Hhi.
  set (m := Z.to_nat (getStates_pages sorted limit)).
  assert (Hm0 : 0 <= getStates_pages sorted limit).
  { destruct (Z.le_gt_cases 0 (getStates_pages sorted limit)); [done|]. nia. }
  assert (Hmz : Z.of_nat m = getStates_pages sorted limit) by (unfold m; lia).
  split.
  { transitivity (take (m * n) sorted); [|apply take_ge; nia].
    rewrite <- chunks_cover, <- fmap_S_seq.
    change (S <$> seq 0 m) with (map S (seq 0 m)). rewrite map_map.
    f_equal. apply map_ext. intros p.
    rewrite getStates_data_chunk by lia. fold n. rewrite Nat2Z.id.
    replace (S p - 1)%nat with p by lia. done. }
  split.
  { intros page Hp. rewrite getStates_data_chunk by lia. fold n.
    rewrite length_take. unfold limitNumber in Hnz. lia. }
  intros page Hp. rewrite getStates_data_chunk by lia. fold n.
  rewrite drop_ge; [by rewrite take_nil|]. nia.
Qed.
End Pages.

Lemma getStates_pages_tile_witness :
  concat (map (fun p => getStates_data [1; 2; 3; 4; 5] (Z.of_nat p) 2)
            (seq 1 (Z.to_nat (getStates_pages [1; 2; 3; 4; 5] 2))))
  = [1; 2; 3; 4; 5].
Proof.
  destruct (getStates_pages_tile [1; 2; 3; 4; 5] 2 ltac:(lia)) as [H _].
  exact H.
Defined.

(** ** Cars and prices *)

Lemma handleErrors_status {A} (dup : Error -> jsstring) (error : Error)
    (defaultMessage : jsstring) :
  let r : Response A := handleErrors dup error defaultMessage in
  res_status r = 400 ∨ res_status r = 409 ∨ res_status r = 500.
Proof. unfold handleErrors. repeat case_bool_decide; auto. Qed.

(** The answers of [updateCar], case by case. *)
Lemma updateCar_cases (i : ObjectId) (updates : CarUpdates) (db : DB) :
  let location_ok :=
    ∀ l, upd_locationId updates = Some l ->
         ∃ loc, locations db !! l = Some loc ∧ Location.deleted loc = None in
  let out := updateCar i updates db in
  (¬ location_ok ∧ out = (mkRes 400 (ErrorJson "Invalid location"), db)) ∨
  (location_ok ∧
   ∃ err, (upd_rejected updates = Some err ∨
           upd_rejected updates = None ∧
           ∃ c, cars db !! i = Some c ∧ upd_write updates c = inl err) ∧
          out = (handleErrors (fun _ => js "Registration number already exists")
                   err "Failed to update car", db)) ∨
  (location_ok ∧ upd_rejected updates = None ∧ cars db !! i = None ∧
   out = (mkRes 404 (ErrorJson "Car not found"), db)) ∨
  (location_ok ∧ upd_rejected updates = None ∧
   ∃ c c', cars db !! i = Some c ∧ upd_write updates c = inr c' ∧
           out = (mkRes 200 (Json c'), set_cars db (<[i := c']> (cars db)))).
Proof.
  intros location_ok out. unfold out, updateCar.
  assert (Hloc : match upd_locationId updates with
                 | None => true
                 | Some l => bool_decide (is_Some
                     (model_findById no_options l (locations db)))
                 end = true <-> location_ok).
  { unfold location_ok. destruct (upd_locationId updates) as [l|].
    - rewrite bool_decide_eq_true. split.
      + intros [loc Hl] ? [= <-].
        apply findById_lookup in Hl as (Hl & [Ho|Hd]); [done|]. eauto.
      + intros Hall. destruct (Hall l eq_refl) as (loc & Hl & Hd).
        exists loc. apply findById_lookup. auto.
    - split; [intros _ l; done|done]. }
  destruct (match upd_locationId updates with None => true | Some _ => _ end)
    eqn:El; cbn [negb].
  2:{ left. split; [|done]. intros Hl. apply Hloc in Hl. done. }
  assert (Hl : location_ok) by (by apply Hloc).
  right. destruct (upd_rejected updates) as [err|] eqn:Hrej.
  { left. split; [done|]. exists err. split; [by left|done]. }
  destruct (cars db !! i) as [c|] eqn:Hc.
  2:{ right. left. done. }
  destruct (upd_write updates c) as [err|c'] eqn:Hw.
  - left. split; [done|]. exists err. split; [|done]. right. eauto.
  - right. right. split; [done|]. split; [done|]. by exists c, c'.
Qed.

(** X24. [updateCar] answers 400 'Invalid location' and changes nothing
    when the body names a location that is not stored or is soft-deleted.
    Otherwise the answer is that of [handleErrors] when Mongoose refuses
    the update or the write fails (400 for a validation error, 409 for a
    duplicate key, 500 for anything else), 404 when the car is not stored,
    and 200 with the updated car when the write succeeds; what the update
    document does to the car is an input of the model.  Only an answer of
    200 changes the store, and it changes that one car: no other car, no
    reservation and no location changes.  For the update document
    [{ priceByDay: p }] the answer is 200 exactly when [p] is a number of
    at least 1 and the car is stored, and the car then has the price [p]
    and its location as before; a number that is not at least 1 is
    answered 400. *)
Theorem updateCar_validates (i : ObjectId) (updates : CarUpdates) (db : DB) :
  let location_ok :=
    ∀ l, upd_locationId updates = Some l ->
         ∃ loc, locations db !! l = Some loc ∧ Location.deleted loc = None in
  let out := updateCar i updates db in
  (¬ location_ok -> out = (mkRes 400 (ErrorJson "Invalid location"), db)) ∧
  (res_status out.1 = 200 <->
     location_ok ∧ upd_rejected updates = None ∧
     ∃ c c', cars db !! i = Some c ∧ upd_write updates c = inr c') ∧
  (res_status out.1 = 404 <->
     location_ok ∧ upd_rejected updates = None ∧ cars db !! i = None) ∧
  (∀ c c', location_ok -> upd_rejected updates = None ->
     cars db !! i = Some c -> upd_write updates c = inr c' ->
     out = (mkRes 200 (Json c'), set_cars db (<[i := c']> (cars db)))) ∧
  (res_status out.1 ≠ 200 ->
     (res_status out.1 = 400 ∨ res_status out.1 = 404 ∨
      res_status out.1 = 409 ∨ res_status out.1 = 500) ∧ out.2 = db) ∧
  (∀ k, k ≠ i -> cars out.2 !! k = cars db !! k) ∧
  reservations out.2 = reservations db ∧
  locations out.2 = locations db ∧
  (∀ p, res_status (updateCar i (set_priceByDay p) db).1 = 200 <->
        PrimFloat.is_nan p = false ∧
        PrimFloat.leb (Number_of_Z 1) p = true ∧ is_Some (cars db !! i)) ∧
  (∀ p c, PrimFloat.is_nan p = false ->
        PrimFloat.leb (Number_of_Z 1) p = true -> cars db !! i = Some c ->
        cars (updateCar i (set_priceByDay p) db).2 !! i
          = Some (Car.mk (Car.locationId c) p)) ∧
  (∀ p, PrimFloat.is_nan p = false ->
        PrimFloat.leb (Number_of_Z 1) p = false ->
        res_status (updateCar i (set_priceByDay p) db).1 = 400).
Proof.
  intros location_ok out.
  split; [|split; [|split; [|split; [|split; [|split; [|split; [|split]]]]]]].
  - intros Hn.
    destruct (updateCar_cases i updates db)
      as [(_ & Ho)|[(Hl & _)|[(Hl & _)|(Hl & _)]]]; done.
  - destruct (updateCar_cases i updates db)
      as [(Hn & Ho)|[(Hl & err & Herr & Ho)|[(Hl & Hr & Hc & Ho)
          |(Hl & Hr & c & c' & Hc & Hw & Ho)]]];
      fold out in Ho; rewrite Ho; cbn [fst res_status].
    + split; [done|tauto].
    + pose proof (handleErrors_status (A := Car.doc)
                    (fun _ => js "Registration number already exists") err
                    "Failed to update car") as Hst. simpl in Hst.
      split; [lia|].
      intros (_ & Hr & c & c' & Hc & Hw).
      destruct Herr as [Hrej|(_ & c0 & Hc0 & Hw0)]; congruence.
    + split; [done|]. intros (_ & _ & c & c' & Hc' & _). congruence.
    + split; [|done]. intros _. eauto 10.
  - destruct (updateCar_cases i updates db)
      as [(Hn & Ho)|[(Hl & err & Herr & Ho)|[(Hl & Hr & Hc & Ho)
          |(Hl & Hr & c & c' & Hc & Hw & Ho)]]];
      fold out in Ho; rewrite Ho; cbn [fst res_status].
    + split; [done|tauto].
    + pose proof (handleErrors_status (A := Car.doc)
                    (fun _ => js "Registration number already exists") err
                    "Failed to update car") as Hst. simpl in Hst.
      split; [lia|].
      intros (_ & Hr & Hc).
      destruct Herr as [Hrej|(_ & c0 & Hc0 & Hw0)]; congruence.
    + done.
    + split; [done|]. intros (_ & _ & Hc'). congruence.
  - intros c c' Hl Hr Hc Hw. unfold out, updateCar.
    rewrite Hr, Hc, Hw.
    destruct (updateCar_cases i updates db)
      as [(Hn & _)|_]; [done|].
    destruct (upd_locationId updates) as [l|]; [|done].
    destruct (Hl l eq_refl) as (loc & Hloc & Hd).
    rewrite bool_decide_true; [done|].
    exists loc. apply findById_lookup. auto.
  - destruct (updateCar_cases i updates db)
      as [(Hn & Ho)|[(Hl & err & Herr & Ho)|[(Hl & Hr & Hc & Ho)
          |(Hl & Hr & c & c' & Hc & Hw & Ho)]]];
      fold out in Ho; rewrite Ho; cbn [fst snd res_status]; intros Hne.
    + auto.
    + pose proof (handleErrors_status (A := Car.doc)
                    (fun _ => js "Registration number already exists") err
                    "Failed to update car") as Hst. simpl in Hst.
      split; [tauto|done].
    + auto.
    + done.
  - intros k Hk.
    destruct (updateCar_cases i updates db)
      as [(Hn & Ho)|[(Hl & err & Herr & Ho)|[(Hl & Hr & Hc & Ho)
          |(Hl & Hr & c & c' & Hc & Hw & Ho)]]];
      fold out in Ho; rewrite Ho; cbn [snd cars set_cars]; try done.
    by rewrite lookup_insert_ne.
  - destruct (updateCar_cases i updates db)
      as [(Hn & Ho)|[(Hl & err & Herr & Ho)|[(Hl & Hr & Hc & Ho)
          |(Hl & Hr & c & c' & Hc & Hw & Ho)]]];
      fold out in Ho; rewrite Ho; done.
  - destruct (updateCar_cases i updates db)
      as [(Hn & Ho)|[(Hl & err & Herr & Ho)|[(Hl & Hr & Hc & Ho)
          |(Hl & Hr & c & c' & Hc & Hw & Ho)]]];
      fold out in Ho; rewrite Ho; done.
  - split; [|split].
    + intros p. unfold updateCar, set_priceByDay.
      destruct (PrimFloat.is_nan p) eqn:En; cbn.
      { split; [done|]. by intros [? _]. }
      destruct (PrimFloat.leb (Number_of_Z 1) p) eqn:Ep; cbn.
      * destruct (cars db !! i) as [c|] eqn:Hc; cbn.
        -- split; [|done]. intros _. split; [done|]. split; [done|].
           by exists c.
        -- split; [done|]. intros (_ & _ & [c Hc']). done.
      * split; [done|]. by intros (_ & ? & _).
    + intros p c En Hp Hc. unfold updateCar, set_priceByDay.
      rewrite En, Hp. cbn. rewrite Hc. cbn.
      apply lookup_insert_eq.
    + intros p En Ep. unfold updateCar, set_priceByDay.
      rewrite En, Ep. done.
Qed.

(** X26. No status update frees an interval: after
    [updateReservationStatus] on a stored reservation, whatever the new
    status ("cancelled" included), a request for the same car whose
    interval overlaps that reservation is still refused and stores
    nothing. *)
Theorem status_update_keeps_interval_blocked (i : ObjectId) (status : jsstring)
    (db : DB) (r : Reservation.doc) (now : Date) (user : ObjectId)
    (startDate endDate : Date) :
  reservations db !! i = Some r ->
  overlap startDate endDate
          (Reservation.startDate r) (Reservation.endDate r) ->
  let db1 := (updateReservationStatus (Id i) status db).2 in
  let body := mkBody (Some (Id (Reservation.carId r)))
                (Some startDate) (Some endDate) in
  let out := createReservation now user body db1 in
  (res_status out.1 = 409 ∨ res_status out.1 = 400) ∧ out.2 = db1.
Proof.
  intros Hr Hov db1 body out.
  assert (H1 : reservations db1 !! i = Some (set_status r status)).
  { unfold db1, updateReservationStatus. rewrite Hr.
    cbn [snd reservations set_reservations]. apply lookup_insert_eq. }
  destruct (createReservation_outcomes now user body db1)
    as [(Hs & Hdb)|(c & s & e & r1 & Hc & _ & Hp & Ho & _)].
  { fold out in Hs, Hdb. split; [tauto|done]. }
  injection Hc as <- <- <-.
  pose proof (proj1 (pre_save_overlap_passes db1 r1) Ho i _ H1) as Hf.
  rewrite (proj2 (overlap_filter_true r1 (set_status r status) i)) in Hf;
    [done|].
  apply pre_save_price_fields in Hp as (-> & _ & -> & -> & _). done.
Qed.

Lemma status_update_keeps_interval_blocked_witness :
  res_status
    (createReservation 0 1 (booking 1 (2 * day) (3 * day))
       (updateReservationStatus (Id 1) "cancelled"
          (booked None (three_days "pending"))).2).1 = 409.
Proof.
  destruct (status_update_keeps_interval_blocked 1 "cancelled"
              (booked None (three_days "pending")) (three_days "pending")
              0 1 (2 * day) (3 * day) eq_refl)
    as [[H|H] _].
  - unfold overlap. vm_compute. split; reflexivity.
  - exact H.
  - vm_compute in H. discriminate.
Defined.
